(** * GroverAccelerator: a shallow embedding of [cpp/grover_accelerator.cpp]

    The class [GroverAccelerator] is a collection of pure member functions
    over [int], [size_t], [std::string], [std::vector] and [double].  Each
    one is translated below, loop by loop, into a Rocq function:

    - an [int] is a [Z] in the range of a 32-bit two's complement integer,
      a [size_t] a [Z] below [2^64]; conversions between them are written
      out ([to_size_t], [static_cast_int]);
    - a [std::string] is a [string], a [std::vector<T>] a [list T];
    - a [double] is a binary64 [spec_float];
    - an operation the C++ standard leaves undefined, or a call that throws,
      is an explicit outcome of the [result] type;
    - what the system decides is a parameter: the random number generator
      of [generate_random_dna], and whether [std::async] can start a thread
      in [find_pattern_matches_parallel_async];
    - where the contract speaks of real numbers (the iteration count), a
      double is related to the reals of the Standard Library through
      [double_value]. *)

From Stdlib Require Import ZArith List Bool Lia Ascii String Permutation Sorted.
From Stdlib Require Import SpecFloat.
From Stdlib Require Reals Machin Lra.
Import ListNotations.

Local Open Scope Z_scope.

(** ** Machine integers *)

Module Int.

Definition INT_MIN : Z := - 2 ^ 31.
Definition INT_MAX : Z := 2 ^ 31 - 1.
Definition SIZE_MODULUS : Z := 2 ^ 64.

(** The values of type [int]. *)
Definition is_int (z : Z) : Prop := INT_MIN <= z <= INT_MAX.

(** Conversion of an integer to [size_t]: reduction modulo [2^64]. *)
Definition to_size_t (z : Z) : Z := z mod SIZE_MODULUS.

(** [static_cast<int>] of an unsigned value: reduction modulo [2^32] into the
    signed range. *)
Definition static_cast_int (z : Z) : Z := (z + 2 ^ 31) mod 2 ^ 32 - 2 ^ 31.

(** Largest element count a [std::vector] or [std::string] accepts; a
    negative [int] converted to [size_t] is always above it. *)
Definition MAX_SIZE : Z := 2 ^ 63 - 1.

End Int.
Import Int.

(** ** Outcomes of a call *)

Inductive undefined_behaviour : Type :=
| ShiftCountOutOfRange
| DivisionByZero
| IndexOutOfBounds
| SignedOverflow
| FloatToIntOutOfRange.

(** [std::length_error] is what the containers throw; [std::system_error] is
    what [std::async] throws when the system cannot start a thread; nothing
    in the class throws [std::invalid_argument]. *)
Inductive exception : Type :=
| LengthError
| InvalidArgument
| SystemError.

Inductive result (A : Type) : Type :=
| Ret (v : A)
| Undefined (u : undefined_behaviour)
| Throws (e : exception).

Arguments Ret {A} v.
Arguments Undefined {A} u.
Arguments Throws {A} e.

Definition bind {A B : Type} (r : result A) (k : A -> result B) : result B :=
  match r with
  | Ret v => k v
  | Undefined u => Undefined u
  | Throws e => Throws e
  end.

Notation "x <- r ;; k" := (bind r (fun x => k))
  (at level 61, r at next level, right associativity).

(** [container.reserve(n)] / the sizing constructor with an [int] argument:
    the argument is converted to [size_t] and refused above [max_size()]. *)
Definition check_size (n : Z) : result unit :=
  if to_size_t n <=? MAX_SIZE then Ret tt else Throws LengthError.

(** ** Position encoder *)

(** [pos >> bit] on [int]: undefined unless [0 <= bit < 32]. *)
Definition shr_int (pos bit : Z) : result Z :=
  if (0 <=? bit) && (bit <? 32) then Ret (Z.shiftr pos bit)
  else Undefined ShiftCountOutOfRange.

Definition push_char (s : string) (c : ascii) : string :=
  (s ++ String c EmptyString)%string.

(** The inner loop [for (bit = n_qubits - 1; bit >= 0; --bit)], entered at
    [bit] with [fuel = bit + 1] iterations left. *)
Fixpoint encode_bits (pos bit : Z) (fuel : nat) (binary : string)
  : result string :=
  match fuel with
  | O => Ret binary
  | S fuel' =>
      v <- shr_int pos bit ;;
      encode_bits pos (bit - 1) fuel'
        (push_char binary (if Z.land v 1 =? 0 then "0"%char else "1"%char))
  end.

(** The outer loop [for (pos = 0; pos < num_candidates; ++pos)]. *)
Fixpoint encode_loop (n_qubits pos : Z) (fuel : nat) (encodings : list string)
  : result (list string) :=
  match fuel with
  | O => Ret encodings
  | S fuel' =>
      _ <- check_size n_qubits ;;
      binary <- encode_bits pos (n_qubits - 1) (Z.to_nat n_qubits) EmptyString ;;
      encode_loop n_qubits (pos + 1) fuel' (encodings ++ [binary])
  end.

Definition encode_positions (num_candidates n_qubits : Z)
  : result (list string) :=
  _ <- check_size num_candidates ;;
  encode_loop n_qubits 0 (Z.to_nat num_candidates) [].

(** Reading a string of binary digits as an unsigned numeral, most
    significant digit first. *)
Fixpoint parse_binary_from (acc : Z) (s : string) : Z :=
  match s with
  | EmptyString => acc
  | String c s' => parse_binary_from (2 * acc + (if Ascii.eqb c "1"%char then 1 else 0)) s'
  end.

Definition parse_binary (s : string) : Z := parse_binary_from 0 s.

Definition is_bit (c : ascii) : Prop := c = "0"%char \/ c = "1"%char.

(** ** Sequence matcher *)

(** [s[k]] for an index below the length. *)
Definition char_at (s : string) (k : Z) : option ascii :=
  String.get (Z.to_nat k) s.

Definition same_char (a b : option ascii) : bool :=
  match a, b with
  | Some x, Some y => Ascii.eqb x y
  | None, None => true
  | _, _ => false
  end.

(** The comparison loop [for (j = 0; j < pattern_len; ++j)] at offset [i],
    entered at [j]: [false] as soon as two characters differ ([break]),
    [true] when the loop runs to its end. *)
Fixpoint compare_at (sequence pattern : string) (i j : Z) (fuel : nat) : bool :=
  match fuel with
  | O => true
  | S fuel' =>
      if negb (same_char (char_at sequence (i + j)) (char_at pattern j))
      then false
      else compare_at sequence pattern i (j + 1) fuel'
  end.

Definition match_at (sequence pattern : string) (i : Z) : bool :=
  compare_at sequence pattern i 0 (String.length pattern).

(** The scanning loop over start offsets, entered at [i] with [fuel]
    iterations left; a matching offset is pushed as an [int]. *)
Fixpoint scan (sequence pattern : string) (i : Z) (fuel : nat)
  (matches : list Z) : list Z :=
  match fuel with
  | O => matches
  | S fuel' =>
      scan sequence pattern (i + 1) fuel'
        (if match_at sequence pattern i
         then matches ++ [static_cast_int i]
         else matches)
  end.

Definition size (s : string) : Z := Z.of_nat (String.length s).

(** The guard shared by both variants. *)
Definition degenerate (sequence pattern : string) : bool :=
  (size pattern =? 0) || (size sequence =? 0) || (size sequence <? size pattern).

Definition find_pattern_matches (sequence pattern : string) : list Z :=
  if degenerate sequence pattern then []
  else
    let pattern_len := size pattern in
    let sequence_len := size sequence in
    (* matches.reserve(...) changes no value;
       for (i = 0; i <= sequence_len - pattern_len; ++i) *)
    scan sequence pattern 0 (Z.to_nat (sequence_len - pattern_len + 1)) [].

(** [std::sort] on a vector of [int]: the ascending rearrangement. *)
Fixpoint insert_sorted (x : Z) (l : list Z) : list Z :=
  match l with
  | [] => [x]
  | y :: l' => if x <=? y then x :: l else y :: insert_sorted x l'
  end.

Fixpoint std_sort (l : list Z) : list Z :=
  match l with
  | [] => []
  | x :: l' => insert_sorted x (std_sort l')
  end.

(** The bounds [start], [end] computed for worker [t], in [size_t]
    arithmetic. *)
Definition chunk_bounds (search_len chunk_size num_threads t : Z) : Z * Z :=
  let start := to_size_t (to_size_t t * chunk_size) in
  let end_ := if t =? num_threads - 1 then search_len
              else to_size_t (to_size_t (t + 1) * chunk_size) in
  (start, end_).

(** The loop [for (t = 0; t < num_threads; ++t)], collecting the bounds of
    the task launched at each iteration. *)
Fixpoint spawn (search_len chunk_size num_threads t : Z) (fuel : nat)
  (tasks : list (Z * Z)) : list (Z * Z) :=
  match fuel with
  | O => tasks
  | S fuel' =>
      spawn search_len chunk_size num_threads (t + 1) fuel'
        (tasks ++ [chunk_bounds search_len chunk_size num_threads t])
  end.

Definition chunks (search_len chunk_size num_threads : Z) : list (Z * Z) :=
  spawn search_len chunk_size num_threads 0 (Z.to_nat num_threads) [].

(** The body of a task: [for (i = start; i < end; ++i)]. *)
Definition worker (sequence pattern : string) (bounds : Z * Z) : list Z :=
  let '(start, end_) := bounds in
  scan sequence pattern start (Z.to_nat (end_ - start)) [].

Definition find_pattern_matches_parallel (sequence pattern : string)
  (num_threads : Z) : result (list Z) :=
  if degenerate sequence pattern then Ret []
  else
    let sequence_len := size sequence in
    let pattern_len := size pattern in
    let search_len := sequence_len - pattern_len + 1 in
    if to_size_t num_threads =? 0 then Undefined DivisionByZero
    else
      let chunk_size := search_len / to_size_t num_threads in
      let futures :=
        map (worker sequence pattern) (chunks search_len chunk_size num_threads) in
      (* futures are awaited in launch order and their results appended *)
      let all_matches := List.concat futures in
      Ret (std_sort all_matches).

(** The same function with the behaviour of the system made explicit.
    [std::async(std::launch::async, task)] either starts a thread for the
    task or throws [std::system_error]; which of the two is up to the
    system, and [started t] tells it for the call of iteration [t].  The
    exception leaves the loop and the function: the futures obtained so far
    are destroyed, which waits for their tasks, and nothing is returned.
    [find_pattern_matches_parallel] above is the run in which every thread
    is started. *)
Fixpoint spawn_async (started : Z -> bool) (search_len chunk_size num_threads t : Z)
  (fuel : nat) (tasks : list (Z * Z)) : result (list (Z * Z)) :=
  match fuel with
  | O => Ret tasks
  | S fuel' =>
      if started t then
        spawn_async started search_len chunk_size num_threads (t + 1) fuel'
          (tasks ++ [chunk_bounds search_len chunk_size num_threads t])
      else Throws SystemError
  end.

Definition find_pattern_matches_parallel_async (started : Z -> bool)
  (sequence pattern : string) (num_threads : Z) : result (list Z) :=
  if degenerate sequence pattern then Ret []
  else
    let sequence_len := size sequence in
    let pattern_len := size pattern in
    let search_len := sequence_len - pattern_len + 1 in
    if to_size_t num_threads =? 0 then Undefined DivisionByZero
    else
      let chunk_size := search_len / to_size_t num_threads in
      tasks <-
        spawn_async started search_len chunk_size num_threads 0
          (Z.to_nat num_threads) [] ;;
      let futures := map (worker sequence pattern) tasks in
      let all_matches := List.concat futures in
      Ret (std_sort all_matches).

(** The half-open range of offsets [start, start + n). *)
Fixpoint offsets (start : Z) (n : nat) : list Z :=
  match n with
  | O => []
  | S n' => start :: offsets (start + 1) n'
  end.

(** [pattern] occurs verbatim in [sequence] at offset [i]. *)
Definition occurs_at (sequence pattern : string) (i : Z) : Prop :=
  0 <= i /\ i + size pattern <= size sequence /\
  String.substring (Z.to_nat i) (String.length pattern) sequence = pattern.

(** ** Binary64 arithmetic *)

Module Double.

Definition prec : Z := 53.
Definition emax : Z := 1024.

Definition double : Type := spec_float.

(** Conversion of an integer to [double], rounding to nearest even (exact
    for every [int]). *)
Definition of_Z (z : Z) : double := binary_normalize prec emax z 0 false.

Definition div (x y : double) : double := SFdiv prec emax x y.
Definition mul (x y : double) : double := SFmul prec emax x y.
Definition sub (x y : double) : double := SFsub prec emax x y.
Definition sqrt (x : double) : double := SFsqrt prec emax x.

Definition zero : double := S754_zero false.

(** [M_PI] = 3.14159265358979323846, the double [0x400921FB54442D18]. *)
Definition M_PI : double := S754_finite false 7074237752028440 (-51).

(** The integer below a finite double. *)
Definition floor_Z (x : double) : option Z :=
  match x with
  | S754_zero _ => Some 0
  | S754_finite s m e =>
      let v := if s then Zneg m else Zpos m in
      Some (if 0 <=? e then v * 2 ^ e else v / 2 ^ (- e))
  | _ => None
  end.

(** [std::floor]: infinities and NaN are returned unchanged. *)
Definition floor (x : double) : double :=
  match x with
  | S754_finite s _ _ =>
      match floor_Z x with
      | Some z => binary_normalize prec emax z 0 s
      | None => x
      end
  | _ => x
  end.

(** [static_cast<int>] of a [double]: truncation towards zero, undefined
    when the truncated value is no [int] (and for infinities and NaN). *)
Definition to_int (x : double) : result Z :=
  match x with
  | S754_zero _ => Ret 0
  | S754_finite s m e =>
      let a := if 0 <=? e then Zpos m * 2 ^ e else Zpos m / 2 ^ (- e) in
      let v := if s then - a else a in
      if (INT_MIN <=? v) && (v <=? INT_MAX) then Ret v
      else Undefined FloatToIntOutOfRange
  | _ => Undefined FloatToIntOutOfRange
  end.

Definition is_nan (x : double) : bool :=
  match x with S754_nan => true | _ => false end.

Definition is_inf (x : double) : bool :=
  match x with S754_infinity _ => true | _ => false end.

End Double.

(** ** Oracle builder *)

Definition complex : Type := (Double.double * Double.double)%type.

Definition plus_one : complex := (Double.of_Z 1, Double.zero).
Definition minus_one : complex := (Double.of_Z (-1), Double.zero).

Fixpoint set_nth {A : Type} (k : nat) (x : A) (v : list A) {struct v}
  : list A :=
  match v with
  | [] => []
  | y :: v' =>
      match k with
      | O => x :: v'
      | S k' => y :: set_nth k' x v'
      end
  end.

(** [v[index] = x] with an [int] index: [operator[]] takes a [size_t] and
    checks nothing; an index at or above the size is out of bounds. *)
Definition store {A : Type} (v : list A) (index : Z) (x : A) : result (list A) :=
  let k := to_size_t index in
  if k <? Z.of_nat (List.length v) then Ret (set_nth (Z.to_nat k) x v)
  else Undefined IndexOutOfBounds.

(** The loop [for (int match : matches)]. *)
Fixpoint mark (matches : list Z) (database_size : Z) (diagonal : list complex)
  : result (list complex) :=
  match matches with
  | [] => Ret diagonal
  | m :: rest =>
      if m <? database_size
      then diagonal' <- store diagonal m minus_one ;;
           mark rest database_size diagonal'
      else mark rest database_size diagonal
  end.

Definition build_oracle_diagonal (matches : list Z) (database_size : Z)
  : result (list complex) :=
  _ <- check_size database_size ;;
  mark matches database_size (repeat plus_one (Z.to_nat database_size)).

(** ** Iteration calculator *)

Definition calculate_optimal_iterations (total_items marked_items : Z)
  : result Z :=
  if (marked_items <=? 0) || (total_items <=? 0) then Ret 1
  else
    let ratio := Double.div (Double.of_Z total_items) (Double.of_Z marked_items) in
    iterations <-
      Double.to_int
        (Double.floor
           (Double.mul (Double.div Double.M_PI (Double.of_Z 4)) (Double.sqrt ratio))) ;;
    Ret (Z.max 1 iterations).

(** ** Statistics analyzer *)

(** The [std::unordered_map<std::string, int>] argument, as the sequence of
    entries its iterator yields; the keys of a map are pairwise distinct. *)
Definition histogram : Type := list (string * Z).

Definition well_formed (counts : histogram) : Prop := NoDup (map fst counts).

(** The four entries of the returned map. *)
Record report : Type := {
  success_probability : Double.double;
  max_amplitude : Double.double;
  entropy : Double.double;
  num_unique_states : Double.double
}.

(** [a += b] on [int]. *)
Definition add_int (a b : Z) : result Z :=
  if (INT_MIN <=? a + b) && (a + b <=? INT_MAX) then Ret (a + b)
  else Undefined SignedOverflow.

(** The locals [total_match_shots], [max_count], [most_frequent_state]. *)
Record tally : Type := {
  total_match_shots : Z;
  max_count : Z;
  most_frequent_state : string
}.

(** The loop [for (const auto& [state, count] : counts)]. *)
Fixpoint tally_loop (counts : histogram) (acc : tally) : result tally :=
  match counts with
  | [] => Ret acc
  | (state, count) :: rest =>
      let '(max_count', most_frequent_state') :=
        if max_count acc <? count then (count, state)
        else (max_count acc, most_frequent_state acc) in
      total' <- add_int (total_match_shots acc) count ;;
      tally_loop rest
        {| total_match_shots := total';
           max_count := max_count';
           most_frequent_state := most_frequent_state' |}
  end.

Section Statistics.

(** [std::log2] of the C library. *)
Variable log2 : Double.double -> Double.double.

Fixpoint shannon_loop (counts : histogram) (total_shots : Z)
  (entropy : Double.double) : Double.double :=
  match counts with
  | [] => entropy
  | (_, count) :: rest =>
      shannon_loop rest total_shots
        (if 0 <? count
         then
           let probability := Double.div (Double.of_Z count) (Double.of_Z total_shots) in
           Double.sub entropy (Double.mul probability (log2 probability))
         else entropy)
  end.

Definition calculate_shannon_entropy (counts : histogram) (total_shots : Z)
  : Double.double :=
  shannon_loop counts total_shots Double.zero.

Definition analyze_measurement_statistics (counts : histogram)
  (expected_matches : list Z) (total_shots : Z) : result report :=
  acc <- tally_loop counts
           {| total_match_shots := 0; max_count := 0;
              most_frequent_state := EmptyString |} ;;
  Ret {| success_probability :=
           Double.div (Double.of_Z (total_match_shots acc)) (Double.of_Z total_shots);
         max_amplitude :=
           Double.div (Double.of_Z (max_count acc)) (Double.of_Z total_shots);
         entropy := calculate_shannon_entropy counts total_shots;
         num_unique_states := Double.of_Z (Z.of_nat (List.length counts)) |}.

End Statistics.

(** The sum and the largest of the counts of a histogram. *)
Definition sum_counts (counts : histogram) : Z :=
  fold_right (fun e acc => snd e + acc) 0 counts.

Definition largest_count (counts : histogram) : Z :=
  fold_right (fun e acc => Z.max (snd e) acc) 0 counts.

(** ** Vocabulary of the statements *)

(** The [n] low-order binary digits of [pos], most significant first. *)
Fixpoint binary_digits (pos : Z) (n : nat) : string :=
  match n with
  | O => EmptyString
  | S n' =>
      String (if Z.testbit pos (Z.of_nat n') then "1"%char else "0"%char)
             (binary_digits pos n')
  end.

Definition search_space (sequence pattern : string) : list Z :=
  offsets 0 (Z.to_nat (size sequence - size pattern + 1)).

(** The start offsets a task with the given bounds visits. *)
Definition chunk_offsets (bounds : Z * Z) : list Z :=
  offsets (fst bounds) (Z.to_nat (snd bounds - fst bounds)).

Fixpoint string_repeat (c : ascii) (n : nat) : string :=
  match n with
  | O => EmptyString
  | S n' => String c (string_repeat c n')
  end.

(** The character [a], then [n] times [c], then [a] again. *)
Definition bracketed (a c : ascii) (n : nat) : string :=
  String a (string_repeat c n ++ String a EmptyString).

(** A sequence of [2^31 + 1] characters: ['A'], [2^31 - 1] times ['C'],
    ['A']. *)
Definition far_apart : string :=
  bracketed "A" "C" (Z.to_nat (2 ^ 31 - 1)).

Definition search_len (sequence pattern : string) : Z :=
  size sequence - size pattern + 1.

(** The tasks the parallel variant launches on a non-degenerate input. *)
Definition launched (sequence pattern : string) (num_threads : Z) : list (Z * Z) :=
  chunks (search_len sequence pattern)
         (search_len sequence pattern / to_size_t num_threads) num_threads.

(** The system starts a thread at each of the iterations
    [0 .. num_threads - 1]. *)
Definition all_started (started : Z -> bool) (num_threads : Z) : bool :=
  forallb started (offsets 0 (Z.to_nat num_threads)).

(** The system that starts every thread, and the one that has room for
    [capacity] threads only. *)
Definition unlimited : Z -> bool := fun _ => true.
Definition limited (capacity : Z) : Z -> bool := fun t => t <? capacity.

(** Whether offset [i] occurs in the match list. *)
Definition marked (matches : list Z) (i : Z) : bool := existsb (Z.eqb i) matches.

Definition double_eq_dec (x y : Double.double) : {x = y} + {x <> y}.
Proof.
  decide equality; try apply Z.eq_dec; try apply Pos.eq_dec; apply bool_dec.
Defined.

Definition complex_eq_dec (x y : complex) : {x = y} + {x <> y}.
Proof. decide equality; apply double_eq_dec. Defined.

(** The diagonal with [-1] at the marked indices and [+1] elsewhere. *)
Definition phase_flips (matches : list Z) (database_size : Z) : list complex :=
  map (fun i => if marked matches i then minus_one else plus_one)
      (offsets 0 (Z.to_nat database_size)).

Definition nan_or_infinite (x : Double.double) : bool :=
  Double.is_nan x || Double.is_inf x.

(** The double [(M_PI / 4.0) * std::sqrt(ratio)] of the iteration
    calculator. *)
Definition grover_angle_ratio (total_items marked_items : Z) : Double.double :=
  Double.mul (Double.div Double.M_PI (Double.of_Z 4))
    (Double.sqrt (Double.div (Double.of_Z total_items) (Double.of_Z marked_items))).

(** [x] is [+0] or a positive finite double below [2^E]. *)
Definition below (E : Z) (x : Double.double) : Prop :=
  x = S754_zero false \/
  exists m e, x = S754_finite false m e /\ Z.pos (digits2_pos m) + e <= E.

(** ** Utilities *)

(** The tuple [DNA_BASES] of the Python module; the array [bases] of the
    generator lists the same characters in the same order. *)
Definition DNA_BASES : list ascii := ["A"; "T"; "G"; "C"]%char.

(** The loop [for (char base : sequence)] with its early [return false]. *)
Fixpoint is_valid_dna (sequence : string) : bool :=
  match sequence with
  | EmptyString => true
  | String base rest =>
      if negb (Ascii.eqb base "A") && negb (Ascii.eqb base "T")
         && negb (Ascii.eqb base "G") && negb (Ascii.eqb base "C")
      then false
      else is_valid_dna rest
  end.

Definition is_gc (base : ascii) : bool :=
  Ascii.eqb base "G" || Ascii.eqb base "C".

(** The counting loop of [calculate_gc_content]; [gc_count++] is on [int]. *)
Fixpoint gc_loop (sequence : string) (gc_count : Z) : result Z :=
  match sequence with
  | EmptyString => Ret gc_count
  | String base rest =>
      if is_gc base
      then gc_count' <- add_int gc_count 1 ;; gc_loop rest gc_count'
      else gc_loop rest gc_count
  end.

Definition calculate_gc_content (sequence : string) : result Double.double :=
  if size sequence =? 0 then Ret Double.zero
  else
    gc_count <- gc_loop sequence 0 ;;
    Ret (Double.div (Double.of_Z gc_count) (Double.of_Z (size sequence))).

Section Generator.

(** The generator of the C library: its state, [std::srand] and
    [std::rand], which returns a number and the next state. *)
Variable rng : Type.
Variable srand : Z -> rng.
Variable rand : rng -> Z * rng.

(** [bases[std::rand() % 4]]: [%] truncates towards zero. *)
Definition pick_base (r : Z) : result ascii :=
  let k := Z.rem r 4 in
  if k <? 0 then Undefined IndexOutOfBounds
  else
    match nth_error DNA_BASES (Z.to_nat k) with
    | Some base => Ret base
    | None => Undefined IndexOutOfBounds
    end.

(** The loop [for (i = 0; i < length; ++i)], threading the generator. *)
Fixpoint generate_loop (fuel : nat) (g : rng) (sequence : string)
  : result (string * rng) :=
  match fuel with
  | O => Ret (sequence, g)
  | S fuel' =>
      let '(r, g') := rand g in
      base <- pick_base r ;;
      generate_loop fuel' g' (push_char sequence base)
  end.

(** Returns the sequence and the state the process-wide generator is left
    in. *)
Definition generate_random_dna (length seed : Z) : result (string * rng) :=
  let g := srand seed in
  _ <- check_size length ;;
  generate_loop (Z.to_nat length) g EmptyString.

End Generator.

Arguments generate_loop {rng} rand fuel g sequence.
Arguments generate_random_dna {rng} srand rand length seed.

(** A linear congruential generator, one possible [std::rand]. *)
Definition lcg_srand (seed : Z) : Z := seed mod 2 ^ 32.

Definition lcg_rand (g : Z) : Z * Z :=
  let g' := (g * 1103515245 + 12345) mod 2 ^ 31 in (g', g').

(** The number of ['G'] and ['C'] characters of a sequence. *)
Fixpoint gc_bases (sequence : string) : Z :=
  match sequence with
  | EmptyString => 0
  | String base rest => (if is_gc base then 1 else 0) + gc_bases rest
  end.

(** The double [1.0]. *)
Definition one : Double.double := S754_finite false 4503599627370496 (-52).

(** An outcome with a positive count. *)
Definition observed (entry : string * Z) : bool := 0 <? snd entry.

(** ** Doubles as real numbers *)

Section RealValue.
Import Reals.
Local Open Scope R_scope.

(** The power of two [2^e], for an exponent of any sign. *)
Definition pow2 (e : Z) : R := powerRZ 2 e.

(** The real number a finite double stands for. *)
Definition double_value (x : Double.double) : R :=
  match x with
  | S754_finite s m e => (if s then -1 else 1) * IZR (Z.pos m) * pow2 e
  | _ => 0
  end.

(** [x] is a normal positive double with exponent in [[lo, hi]], and [v]
    lies between its two neighbours. *)
Definition near (lo hi : Z) (x : Double.double) (v : R) : Prop :=
  exists p e,
    x = S754_finite false p e /\
    (2 ^ 52 <= Z.pos p < 2 ^ 53)%Z /\ (lo <= e <= hi)%Z /\
    (IZR (Z.pos p) - 1) * pow2 e <= v <= (IZR (Z.pos p) + 1) * pow2 e.

(** The relative distance between neighbouring doubles, [2^-52]. *)
Definition eps : R := / 4503599627370496.

(** The contract of the iteration calculator, over the real numbers:
    [max(1, floor((pi / 4) * sqrt(total_items / marked_items)))]. *)
Definition grover_iterations (total_items marked_items : Z) : Z :=
  Z.max 1 (Int_part (PI / 4 * sqrt (IZR total_items / IZR marked_items))).

End RealValue.

(** * Properties *)

(** ** Machine integers *)

Lemma to_size_t_small (z : Z) : 0 <= z < SIZE_MODULUS -> to_size_t z = z.
Proof. intros H. unfold to_size_t. now apply Z.mod_small. Qed.

Lemma static_cast_int_small (z : Z) : is_int z -> static_cast_int z = z.
Proof.
  unfold is_int, INT_MIN, INT_MAX, static_cast_int. intros H.
  rewrite Z.mod_small; lia.
Qed.

Lemma check_size_ok (n : Z) : 0 <= n <= INT_MAX -> check_size n = Ret tt.
Proof.
  unfold check_size, INT_MAX, MAX_SIZE. intros H.
  rewrite to_size_t_small by (unfold SIZE_MODULUS; lia).
  destruct (Z.leb_spec n (2 ^ 63 - 1)); [reflexivity | lia].
Qed.

Lemma check_size_negative (n : Z) :
  INT_MIN <= n < 0 -> check_size n = Throws LengthError.
Proof.
  unfold check_size, INT_MIN, MAX_SIZE, to_size_t, SIZE_MODULUS. intros H.
  replace (n mod 2 ^ 64) with (n + 2 ^ 64).
  - destruct (Z.leb_spec (n + 2 ^ 64) (2 ^ 63 - 1)); [lia | reflexivity].
  - apply Z.mod_unique with (q := -1); lia.
Qed.

(** ** Position encoder *)

Lemma land_one_testbit (pos bit : Z) :
  (Z.land (Z.shiftr pos bit) 1 =? 0) = negb (Z.testbit pos bit).
Proof.
  rewrite Z.testbit_odd.
  change 1 with (Z.ones 1).
  rewrite Z.land_ones by lia.
  change (2 ^ 1) with 2.
  rewrite Zmod_odd.
  now destruct (Z.odd (Z.shiftr pos bit)).
Qed.

Lemma string_app_assoc (a b c : string) :
  ((a ++ b) ++ c = a ++ (b ++ c))%string.
Proof. induction a as [|x a IH]; simpl; [reflexivity | now rewrite IH]. Qed.

Lemma string_app_nil_r (a : string) : (a ++ EmptyString)%string = a.
Proof. induction a as [|x a IH]; simpl; [reflexivity | now rewrite IH]. Qed.

Lemma encode_bits_spec (pos : Z) (fuel : nat) (binary : string) :
  (fuel <= 32)%nat ->
  encode_bits pos (Z.of_nat fuel - 1) fuel binary
  = Ret (binary ++ binary_digits pos fuel)%string.
Proof.
  revert binary. induction fuel as [|fuel IH]; intros binary Hle.
  - simpl. now rewrite string_app_nil_r.
  - cbn [encode_bits binary_digits].
    replace (Z.of_nat (S fuel) - 1) with (Z.of_nat fuel) by lia.
    unfold shr_int.
    destruct (Z.leb_spec 0 (Z.of_nat fuel)); [|lia].
    destruct (Z.ltb_spec (Z.of_nat fuel) 32); [|lia].
    cbn [andb bind].
    rewrite IH by lia.
    rewrite land_one_testbit.
    unfold push_char. rewrite string_app_assoc. cbn [append].
    now destruct (Z.testbit pos (Z.of_nat fuel)).
Qed.

Lemma encode_loop_spec (n_qubits pos : Z) (fuel : nat) (encodings : list string) :
  0 <= n_qubits <= 32 ->
  encode_loop n_qubits pos fuel encodings
  = Ret (encodings
         ++ map (fun i => binary_digits i (Z.to_nat n_qubits)) (offsets pos fuel)).
Proof.
  intros Hq. revert pos encodings.
  induction fuel as [|fuel IH]; intros pos encodings.
  - simpl. now rewrite app_nil_r.
  - cbn [encode_loop offsets map].
    rewrite check_size_ok by (unfold INT_MAX; lia). cbn [bind].
    replace (n_qubits - 1) with (Z.of_nat (Z.to_nat n_qubits) - 1) by lia.
    rewrite encode_bits_spec by lia. cbn [bind append].
    rewrite IH. now rewrite <- app_assoc.
Qed.

Lemma offsets_length (start : Z) (n : nat) : List.length (offsets start n) = n.
Proof. revert start. induction n; intros; simpl; [reflexivity | now rewrite IHn]. Qed.

Lemma offsets_nth_error (start : Z) (n k : nat) :
  (k < n)%nat -> nth_error (offsets start n) k = Some (start + Z.of_nat k).
Proof.
  revert start k. induction n as [|n IH]; intros start k Hk; [lia|].
  destruct k as [|k]; simpl.
  - f_equal. lia.
  - rewrite IH by lia. f_equal. lia.
Qed.

Lemma offsets_In (start : Z) (n : nat) (i : Z) :
  In i (offsets start n) <-> start <= i < start + Z.of_nat n.
Proof.
  revert start. induction n as [|n IH]; intros start; simpl.
  - lia.
  - rewrite IH. lia.
Qed.

Lemma offsets_app (start : Z) (n m : nat) :
  offsets start (n + m) = offsets start n ++ offsets (start + Z.of_nat n) m.
Proof.
  revert start. induction n as [|n IH]; intros start.
  - simpl. f_equal. lia.
  - cbn [Nat.add offsets app]. rewrite IH. do 3 f_equal. lia.
Qed.

Lemma binary_digits_length (pos : Z) (n : nat) :
  String.length (binary_digits pos n) = n.
Proof. induction n; simpl; [reflexivity | now rewrite IHn]. Qed.

Lemma binary_digits_get (pos : Z) (n k : nat) :
  (k < n)%nat ->
  String.get k (binary_digits pos n)
  = Some (if Z.testbit pos (Z.of_nat (n - 1 - k)) then "1"%char else "0"%char).
Proof.
  revert k. induction n as [|n IH]; intros k Hk; [lia|].
  destruct k as [|k]; cbn [binary_digits String.get].
  - now replace (S n - 1 - 0)%nat with n by lia.
  - rewrite IH by lia. now replace (S n - 1 - S k)%nat with (n - 1 - k)%nat by lia.
Qed.

Lemma binary_digits_bits (pos : Z) (n k : nat) (c : ascii) :
  String.get k (binary_digits pos n) = Some c -> is_bit c.
Proof.
  revert k. induction n as [|n IH]; intros k; [now destruct k|].
  destruct k as [|k]; cbn [binary_digits String.get].
  - intros [= <-]. unfold is_bit. destruct (Z.testbit pos (Z.of_nat n)); auto.
  - apply IH.
Qed.

Lemma parse_binary_from_digits (pos acc : Z) (n : nat) :
  0 <= pos ->
  parse_binary_from acc (binary_digits pos n)
  = acc * 2 ^ Z.of_nat n + pos mod 2 ^ Z.of_nat n.
Proof.
  intros Hpos. revert acc. induction n as [|n IH]; intros acc.
  - simpl. rewrite Z.mod_1_r. lia.
  - cbn [binary_digits parse_binary_from]. rewrite IH.
    replace (Z.of_nat (S n)) with (Z.succ (Z.of_nat n)) by lia.
    rewrite Z.pow_succ_r by lia.
    rewrite (Z.mul_comm 2 (2 ^ Z.of_nat n)).
    rewrite Z.rem_mul_r by lia.
    rewrite <- Z.shiftr_div_pow2 by lia.
    assert (Hb : (if Ascii.eqb (if Z.testbit pos (Z.of_nat n) then "1"%char else "0"%char) "1"%char
                  then 1 else 0) = Z.shiftr pos (Z.of_nat n) mod 2).
    { rewrite Zmod_odd, <- Z.testbit_odd.
      now destruct (Z.testbit pos (Z.of_nat n)). }
    rewrite Hb. lia.
Qed.

Lemma encode_positions_digits (num_candidates n_qubits : Z) :
  0 <= num_candidates <= INT_MAX -> 0 <= n_qubits <= 32 ->
  encode_positions num_candidates n_qubits
  = Ret (map (fun i => binary_digits i (Z.to_nat n_qubits))
             (offsets 0 (Z.to_nat num_candidates))).
Proof.
  intros Hc Hq. unfold encode_positions.
  rewrite check_size_ok by assumption. cbn [bind].
  now rewrite encode_loop_spec.
Qed.

Lemma encoding_nth_error (n_qubits i : Z) (count : nat) :
  0 <= i < Z.of_nat count ->
  nth_error (map (fun i => binary_digits i (Z.to_nat n_qubits)) (offsets 0 count))
            (Z.to_nat i)
  = Some (binary_digits i (Z.to_nat n_qubits)).
Proof.
  intros Hi. rewrite nth_error_map, offsets_nth_error by lia.
  cbn [option_map]. do 2 f_equal. lia.
Qed.

(** C7 (amended): for [0 <= num_candidates] and [0 <= n_qubits <= 32], the
    width of [int], [encode_positions] returns [num_candidates] strings; the
    string at index [i] has [n_qubits] characters, each ['0'] or ['1'], its
    character at place [k] is bit [n_qubits - 1 - k] of [i] (most significant
    first, zero padded on the left), and read as a binary numeral it is
    [i mod 2^n_qubits]: when [n_qubits] is too small, only the low-order
    [n_qubits] bits of the index are kept and no error is raised. *)
Theorem encode_positions_spec (num_candidates n_qubits : Z) :
  0 <= num_candidates <= INT_MAX ->
  0 <= n_qubits <= 32 ->
  exists encodings,
    encode_positions num_candidates n_qubits = Ret encodings /\
    Z.of_nat (List.length encodings) = num_candidates /\
    forall i, 0 <= i < num_candidates ->
      exists s,
        nth_error encodings (Z.to_nat i) = Some s /\
        Z.of_nat (String.length s) = n_qubits /\
        (forall k c, String.get k s = Some c -> is_bit c) /\
        (forall k, 0 <= k < n_qubits ->
           String.get (Z.to_nat k) s
           = Some (if Z.testbit i (n_qubits - 1 - k) then "1"%char else "0"%char)) /\
        parse_binary s = i mod 2 ^ n_qubits.
Proof.
  intros Hc Hq. eexists. split; [now apply encode_positions_digits|].
  split.
  - rewrite length_map, offsets_length. lia.
  - intros i Hi. exists (binary_digits i (Z.to_nat n_qubits)).
    split; [apply encoding_nth_error; lia|].
    split; [rewrite binary_digits_length; lia|].
    split; [intros k c; apply binary_digits_bits|].
    split.
    + intros k Hk. rewrite binary_digits_get by lia.
      now replace (Z.of_nat (Z.to_nat n_qubits - 1 - Z.to_nat k))
        with (n_qubits - 1 - k) by lia.
    + unfold parse_binary. rewrite parse_binary_from_digits by lia.
      rewrite Z2Nat.id by lia. lia.
Qed.

Lemma encode_positions_spec_witness :
  exists encodings,
    encode_positions 5 2 = Ret encodings /\
    Z.of_nat (List.length encodings) = 5 /\
    forall i, 0 <= i < 5 ->
      exists s,
        nth_error encodings (Z.to_nat i) = Some s /\
        Z.of_nat (String.length s) = 2 /\
        (forall k c, String.get k s = Some c -> is_bit c) /\
        (forall k, 0 <= k < 2 ->
           String.get (Z.to_nat k) s
           = Some (if Z.testbit i (2 - 1 - k) then "1"%char else "0"%char)) /\
        parse_binary s = i mod 2 ^ 2.
Proof. apply (encode_positions_spec 5 2); unfold INT_MAX; lia. Defined.

(** C7 as stated fails above the width of [int]: with 33 qubits the first
    shift, [pos >> 32], has no defined result, so no list of strings is
    returned. *)
Lemma encode_positions_wide_undefined :
  encode_positions 2 33 = Undefined ShiftCountOutOfRange.
Proof. reflexivity. Qed.

(** C8: for [n >= 0] with [2^n] an [int], and [0 <= i < 2^n], the string at
    index [i] of [encode_positions(2^n, n)] read as an unsigned binary
    numeral is [i]. *)
Theorem encode_positions_round_trip (n i : Z) :
  0 <= n ->
  is_int (2 ^ n) ->
  0 <= i < 2 ^ n ->
  exists encodings s,
    encode_positions (2 ^ n) n = Ret encodings /\
    nth_error encodings (Z.to_nat i) = Some s /\
    parse_binary s = i.
Proof.
  intros Hn [_ Hmax] Hi.
  assert (Hn32 : n <= 32).
  { destruct (Z.le_gt_cases n 32) as [|Hgt]; [assumption|exfalso].
    assert (2 ^ 32 <= 2 ^ n) by (apply Z.pow_le_mono_r; lia).
    unfold INT_MAX in Hmax. lia. }
  exists (map (fun i => binary_digits i (Z.to_nat n)) (offsets 0 (Z.to_nat (2 ^ n)))).
  exists (binary_digits i (Z.to_nat n)).
  split; [apply encode_positions_digits; lia|].
  split; [apply encoding_nth_error; lia|].
  unfold parse_binary. rewrite parse_binary_from_digits by lia.
  rewrite Z2Nat.id by lia. rewrite Z.mod_small; lia.
Qed.

Lemma encode_positions_round_trip_witness :
  exists encodings s,
    encode_positions (2 ^ 3) 3 = Ret encodings /\
    nth_error encodings (Z.to_nat 5) = Some s /\
    parse_binary s = 5.
Proof.
  apply (encode_positions_round_trip 3 5); unfold is_int, INT_MIN, INT_MAX; lia.
Defined.

(** ** Sequence matcher *)

Lemma get_below (s : string) (n : nat) :
  (n < String.length s)%nat -> exists c, String.get n s = Some c.
Proof.
  revert n. induction s as [|a s IH]; intros n Hn; simpl in Hn; [lia|].
  destruct n as [|n]; simpl; [now exists a | apply IH; lia].
Qed.

Lemma get_beyond (s : string) (n : nat) :
  (String.length s <= n)%nat -> String.get n s = None.
Proof.
  revert n. induction s as [|a s IH]; intros n Hn; simpl in *; [reflexivity|].
  destruct n as [|n]; [lia | apply IH; lia].
Qed.

Lemma same_char_some (a b : option ascii) :
  same_char a b = true -> a = b.
Proof.
  destruct a as [x|], b as [y|]; simpl; try discriminate; try reflexivity.
  intros H. apply Ascii.eqb_eq in H. now subst.
Qed.

Lemma same_char_refl (a : option ascii) : same_char a a = true.
Proof. destruct a; simpl; [apply Ascii.eqb_refl | reflexivity]. Qed.

Lemma compare_at_true (sequence pattern : string) (i j : Z) (fuel : nat) :
  compare_at sequence pattern i j fuel = true <->
  forall k, (k < fuel)%nat ->
    char_at sequence (i + j + Z.of_nat k) = char_at pattern (j + Z.of_nat k).
Proof.
  revert j. induction fuel as [|fuel IH]; intros j; cbn [compare_at].
  - split; [intros _ k Hk; lia | reflexivity].
  - destruct (same_char (char_at sequence (i + j)) (char_at pattern j)) eqn:E;
      cbn [negb].
    + rewrite IH. apply same_char_some in E. split; intros H k Hk.
      * destruct k as [|k].
        -- now rewrite !Z.add_0_r.
        -- specialize (H k ltac:(lia)).
           now replace (i + j + Z.of_nat (S k)) with (i + (j + 1) + Z.of_nat k) by lia;
             replace (j + Z.of_nat (S k)) with (j + 1 + Z.of_nat k) by lia.
      * specialize (H (S k) ltac:(lia)).
        now replace (i + j + Z.of_nat (S k)) with (i + (j + 1) + Z.of_nat k) in H by lia;
          replace (j + Z.of_nat (S k)) with (j + 1 + Z.of_nat k) in H by lia.
    + split; [discriminate|]. intros H. specialize (H O ltac:(lia)).
      rewrite !Z.add_0_r in H. rewrite H, same_char_refl in E. discriminate.
Qed.

(** Inside the sequence, the comparison loop succeeds exactly where the
    pattern occurs verbatim. *)
Lemma match_at_occurs (sequence pattern : string) (i : Z) :
  0 <= i -> i + size pattern <= size sequence ->
  match_at sequence pattern i = true <->
  String.substring (Z.to_nat i) (String.length pattern) sequence = pattern.
Proof.
  unfold size, match_at. intros Hi Hfit.
  rewrite compare_at_true, <- get_correct. unfold char_at.
  split; intros H k.
  - destruct (Nat.lt_ge_cases k (String.length pattern)) as [Hk|Hk].
    + rewrite substring_correct1 by assumption.
      specialize (H k Hk).
      replace (Z.to_nat (i + 0 + Z.of_nat k)) with (k + Z.to_nat i)%nat in H by lia.
      now replace (Z.to_nat (0 + Z.of_nat k)) with k in H by lia.
    + rewrite substring_correct2 by assumption.
      now rewrite get_beyond.
  - intros Hk. specialize (H k).
    rewrite substring_correct1 in H by assumption.
    replace (Z.to_nat (i + 0 + Z.of_nat k)) with (k + Z.to_nat i)%nat by lia.
    now replace (Z.to_nat (0 + Z.of_nat k)) with k by lia.
Qed.

(** The scanning loop pushes, in order, the matching offsets of its range. *)
Lemma scan_spec (sequence pattern : string) (i : Z) (fuel : nat) (matches : list Z) :
  scan sequence pattern i fuel matches
  = matches ++ map static_cast_int (filter (match_at sequence pattern) (offsets i fuel)).
Proof.
  revert i matches. induction fuel as [|fuel IH]; intros i matches.
  - simpl. now rewrite app_nil_r.
  - cbn [scan offsets filter]. rewrite IH.
    destruct (match_at sequence pattern i); [|reflexivity].
    cbn [map]. now rewrite <- app_assoc.
Qed.

Lemma find_pattern_matches_scan (sequence pattern : string) :
  degenerate sequence pattern = false ->
  find_pattern_matches sequence pattern
  = map static_cast_int
        (filter (match_at sequence pattern) (search_space sequence pattern)).
Proof.
  intros Hd. unfold find_pattern_matches. rewrite Hd. cbv zeta.
  now rewrite scan_spec.
Qed.

Lemma degenerate_false (sequence pattern : string) :
  degenerate sequence pattern = false <->
  0 < size pattern <= size sequence.
Proof.
  unfold degenerate, size.
  destruct (Z.eqb_spec (Z.of_nat (String.length pattern)) 0);
    destruct (Z.eqb_spec (Z.of_nat (String.length sequence)) 0);
    destruct (Z.ltb_spec (Z.of_nat (String.length sequence))
                         (Z.of_nat (String.length pattern)));
    cbn [orb]; split; intros Hd; try discriminate; try reflexivity; lia.
Qed.

Lemma map_static_cast_int_id (l : list Z) :
  Forall is_int l -> map static_cast_int l = l.
Proof.
  induction 1 as [|x l Hx _ IH]; simpl; [reflexivity|].
  now rewrite IH, static_cast_int_small.
Qed.

Lemma offsets_lt_sorted (start : Z) (n : nat) :
  StronglySorted Z.lt (offsets start n).
Proof.
  revert start. induction n as [|n IH]; intros start; simpl; constructor.
  - apply IH.
  - apply Forall_forall. intros x Hx. apply offsets_In in Hx. lia.
Qed.

Lemma filter_lt_sorted (f : Z -> bool) (l : list Z) :
  StronglySorted Z.lt l -> StronglySorted Z.lt (filter f l).
Proof.
  induction 1 as [|x l Hs IH Hx]; simpl; [constructor|].
  destruct (f x); [|assumption].
  constructor; [assumption|].
  apply Forall_forall. intros y Hy. apply filter_In in Hy.
  rewrite Forall_forall in Hx. now apply Hx.
Qed.

Lemma insert_sorted_least (x : Z) (l : list Z) :
  Forall (Z.lt x) l -> insert_sorted x l = x :: l.
Proof.
  destruct 1 as [|y l Hy _]; simpl; [reflexivity|].
  destruct (Z.leb_spec x y); [reflexivity | lia].
Qed.

(** Sorting leaves an ascending vector as it is. *)
Lemma std_sort_sorted (l : list Z) : StronglySorted Z.lt l -> std_sort l = l.
Proof.
  induction 1 as [|x l _ IH Hx]; simpl; [reflexivity|].
  rewrite IH. now apply insert_sorted_least.
Qed.

Lemma worker_spec (sequence pattern : string) (bounds : Z * Z) :
  worker sequence pattern bounds
  = map static_cast_int (filter (match_at sequence pattern) (chunk_offsets bounds)).
Proof. destruct bounds as [start end_]. unfold worker. now rewrite scan_spec. Qed.

Lemma filter_concat {A : Type} (f : A -> bool) (ls : list (list A)) :
  filter f (List.concat ls) = List.concat (map (filter f) ls).
Proof.
  induction ls as [|l ls IH]; simpl; [reflexivity|].
  now rewrite filter_app, IH.
Qed.

Lemma workers_spec (sequence pattern : string) (tasks : list (Z * Z)) :
  List.concat (map (worker sequence pattern) tasks)
  = map static_cast_int
      (filter (match_at sequence pattern) (List.concat (map chunk_offsets tasks))).
Proof.
  rewrite filter_concat, concat_map, !map_map.
  f_equal. apply map_ext. intros b. apply worker_spec.
Qed.

Section Chunks.

Variables search_len num_threads : Z.
Hypothesis Hlen : 0 <= search_len < SIZE_MODULUS.
Hypothesis Hthreads : 1 <= num_threads <= INT_MAX.

Let chunk_size : Z := search_len / num_threads.

Lemma chunk_size_bounds : 0 <= chunk_size /\ num_threads * chunk_size <= search_len.
Proof.
  unfold chunk_size. split.
  - apply Z.div_pos; lia.
  - apply Z.mul_div_le; lia.
Qed.

Lemma chunk_bounds_inner (t : Z) :
  0 <= t < num_threads - 1 ->
  chunk_bounds search_len chunk_size num_threads t
  = (t * chunk_size, (t + 1) * chunk_size).
Proof.
  intros Ht. destruct chunk_size_bounds as [Hc Hk].
  assert (t * chunk_size <= (t + 1) * chunk_size) by nia.
  assert ((t + 1) * chunk_size <= num_threads * chunk_size) by nia.
  assert (0 <= t * chunk_size) by nia.
  unfold chunk_bounds. cbv zeta.
  destruct (Z.eqb_spec t (num_threads - 1)); [lia|].
  unfold INT_MAX, SIZE_MODULUS in *.
  rewrite (to_size_t_small t), (to_size_t_small (t + 1))
    by (unfold SIZE_MODULUS; lia).
  now rewrite !to_size_t_small by (unfold SIZE_MODULUS; lia).
Qed.

Lemma chunk_bounds_last :
  chunk_bounds search_len chunk_size num_threads (num_threads - 1)
  = ((num_threads - 1) * chunk_size, search_len).
Proof.
  destruct chunk_size_bounds as [Hc Hk].
  assert (0 <= (num_threads - 1) * chunk_size) by nia.
  assert ((num_threads - 1) * chunk_size <= num_threads * chunk_size) by nia.
  unfold chunk_bounds. cbv zeta. rewrite Z.eqb_refl.
  unfold INT_MAX, SIZE_MODULUS in *.
  rewrite (to_size_t_small (num_threads - 1)) by (unfold SIZE_MODULUS; lia).
  now rewrite to_size_t_small by (unfold SIZE_MODULUS; lia).
Qed.

(** The tasks launched from iteration [t] on visit the offsets from
    [t * chunk_size] up to [search_len], each once and in order. *)
Lemma spawn_offsets (fuel : nat) (t : Z) (tasks : list (Z * Z)) :
  0 <= t -> t + Z.of_nat fuel = num_threads -> (0 < fuel)%nat ->
  List.concat (map chunk_offsets (spawn search_len chunk_size num_threads t fuel tasks))
  = List.concat (map chunk_offsets tasks)
    ++ offsets (t * chunk_size) (Z.to_nat (search_len - t * chunk_size)).
Proof.
  destruct chunk_size_bounds as [Hc Hk].
  revert t tasks. induction fuel as [|fuel IH]; intros t tasks Ht Hsum Hpos; [lia|].
  cbn [spawn]. destruct fuel as [|fuel].
  - cbn [spawn]. replace t with (num_threads - 1) by lia.
    rewrite chunk_bounds_last.
    rewrite map_app, concat_app. cbn [map List.concat chunk_offsets fst snd].
    now rewrite app_nil_r.
  - rewrite IH by lia.
    rewrite chunk_bounds_inner by lia.
    rewrite map_app, concat_app. cbn [map List.concat chunk_offsets fst snd].
    rewrite app_nil_r, <- app_assoc. f_equal.
    assert ((t + 1) * chunk_size <= num_threads * chunk_size) by nia.
    replace (Z.to_nat (search_len - t * chunk_size))
      with (Z.to_nat ((t + 1) * chunk_size - t * chunk_size)
            + Z.to_nat (search_len - (t + 1) * chunk_size))%nat by lia.
    rewrite offsets_app. do 2 f_equal. lia.
Qed.

Lemma chunks_cover :
  List.concat (map chunk_offsets (chunks search_len chunk_size num_threads))
  = offsets 0 (Z.to_nat search_len).
Proof.
  unfold chunks. rewrite spawn_offsets by lia.
  cbn [map List.concat app]. now rewrite Z.sub_0_r.
Qed.

Lemma spawn_length (fuel : nat) (t : Z) (tasks : list (Z * Z)) :
  List.length (spawn search_len chunk_size num_threads t fuel tasks)
  = (List.length tasks + fuel)%nat.
Proof.
  revert t tasks. induction fuel as [|fuel IH]; intros t tasks; cbn [spawn].
  - lia.
  - rewrite IH, length_app. simpl. lia.
Qed.

End Chunks.

Lemma search_space_is_int (sequence pattern : string) :
  size sequence - size pattern <= INT_MAX ->
  Forall is_int (filter (match_at sequence pattern) (search_space sequence pattern)).
Proof.
  intros Hs. apply Forall_forall. intros i Hi.
  apply filter_In in Hi. destruct Hi as [Hi _].
  apply offsets_In in Hi. unfold is_int, INT_MIN, INT_MAX in *. lia.
Qed.

(** When every start offset is an [int] the serial result is the ascending
    list of the matching offsets. *)
Lemma find_pattern_matches_filter (sequence pattern : string) :
  size sequence - size pattern <= INT_MAX ->
  degenerate sequence pattern = false ->
  find_pattern_matches sequence pattern
  = filter (match_at sequence pattern) (search_space sequence pattern).
Proof.
  intros Hs Hd. rewrite find_pattern_matches_scan by assumption.
  now apply map_static_cast_int_id, search_space_is_int.
Qed.

Lemma find_pattern_matches_sorted (sequence pattern : string) :
  size pattern = 0 \/ size sequence - size pattern <= INT_MAX ->
  StronglySorted Z.lt (find_pattern_matches sequence pattern).
Proof.
  intros Hs. destruct (degenerate sequence pattern) eqn:Hd.
  - unfold find_pattern_matches. rewrite Hd. constructor.
  - pose proof (proj1 (degenerate_false _ _) Hd).
    rewrite find_pattern_matches_filter by (assumption || lia).
    apply filter_lt_sorted, offsets_lt_sorted.
Qed.

Lemma to_size_t_threads (num_threads : Z) :
  1 <= num_threads <= INT_MAX -> to_size_t num_threads = num_threads.
Proof. unfold INT_MAX. intros H. apply to_size_t_small. unfold SIZE_MODULUS. lia. Qed.

(** Before sorting, the merged vector of the parallel variant already is the
    vector of the serial one. *)
Lemma parallel_merge (sequence pattern : string) (num_threads : Z) :
  search_len sequence pattern < SIZE_MODULUS ->
  1 <= num_threads <= INT_MAX ->
  degenerate sequence pattern = false ->
  find_pattern_matches_parallel sequence pattern num_threads
  = Ret (std_sort (find_pattern_matches sequence pattern)).
Proof.
  unfold search_len.
  intros Hs Hk Hd. unfold find_pattern_matches_parallel. rewrite Hd. cbv zeta.
  rewrite to_size_t_threads by assumption.
  destruct (Z.eqb_spec num_threads 0); [lia|].
  rewrite workers_spec.
  pose proof (proj1 (degenerate_false _ _) Hd) as Hp.
  rewrite chunks_cover by lia.
  now rewrite find_pattern_matches_scan by assumption.
Qed.

Lemma parallel_serial (sequence pattern : string) (num_threads : Z) :
  size pattern = 0 \/ size sequence - size pattern <= INT_MAX ->
  1 <= num_threads <= INT_MAX ->
  find_pattern_matches_parallel sequence pattern num_threads
  = Ret (find_pattern_matches sequence pattern).
Proof.
  intros Hs Hk. destruct (degenerate sequence pattern) eqn:Hd.
  - unfold find_pattern_matches_parallel, find_pattern_matches. now rewrite Hd.
  - pose proof (proj1 (degenerate_false _ _) Hd).
    rewrite parallel_merge
      by (assumption || (unfold search_len, SIZE_MODULUS, INT_MAX in *; lia)).
    now rewrite std_sort_sorted by now apply find_pattern_matches_sorted.
Qed.

(** *** Sequences longer than [INT_MAX] *)

Lemma string_repeat_length (c : ascii) (n : nat) :
  String.length (string_repeat c n) = n.
Proof. induction n; simpl; [reflexivity | now rewrite IHn]. Qed.

Lemma string_repeat_get (c : ascii) (n k : nat) :
  (k < n)%nat -> String.get k (string_repeat c n) = Some c.
Proof.
  revert k. induction n as [|n IH]; intros k Hk; [lia|].
  destruct k as [|k]; simpl; [reflexivity | apply IH; lia].
Qed.

Lemma append_length (s1 s2 : string) :
  String.length (s1 ++ s2) = (String.length s1 + String.length s2)%nat.
Proof. induction s1 as [|x s1 IH]; simpl; [reflexivity | now rewrite IH]. Qed.

Lemma bracketed_length (a c : ascii) (n : nat) :
  String.length (bracketed a c n) = S (S n).
Proof.
  unfold bracketed. cbn [String.length].
  rewrite append_length, string_repeat_length. cbn [String.length]. lia.
Qed.

Lemma bracketed_get_inner (a c : ascii) (n k : nat) :
  (k < n)%nat -> String.get (S k) (bracketed a c n) = Some c.
Proof.
  intros Hk. unfold bracketed. cbn [String.get].
  rewrite <- append_correct1 by now rewrite string_repeat_length.
  now apply string_repeat_get.
Qed.

Lemma bracketed_get_last (a c : ascii) (n : nat) :
  String.get (S n) (bracketed a c n) = Some a.
Proof.
  unfold bracketed. cbn [String.get].
  pose proof (append_correct2 (string_repeat c n) (String a EmptyString) O) as H.
  rewrite string_repeat_length in H. cbn [Nat.add] in H. now rewrite <- H.
Qed.

Lemma filter_none {A : Type} (f : A -> bool) (l : list A) :
  (forall x, In x l -> f x = false) -> filter f l = [].
Proof.
  induction l as [|x l IH]; intros H; simpl; [reflexivity|].
  rewrite (H x (or_introl eq_refl)). apply IH.
  intros y Hy. apply H. now right.
Qed.

Lemma match_at_single (sequence : string) (a : ascii) (i : Z) :
  match_at sequence (String a EmptyString) i
  = same_char (char_at sequence i) (Some a).
Proof.
  unfold match_at. cbn [String.length compare_at]. rewrite Z.add_0_r.
  change (char_at (String a EmptyString) 0) with (Some a).
  now destruct (same_char (char_at sequence i) (Some a)).
Qed.

(** In [bracketed a c n] with [a <> c] the one-character pattern [a] matches
    at the offsets [0] and [n + 1] only; the serial scan pushes both,
    converted to [int]. *)
Lemma find_in_bracketed (a c : ascii) (n : nat) :
  a <> c ->
  find_pattern_matches (bracketed a c n) (String a EmptyString)
  = [static_cast_int 0; static_cast_int (Z.of_nat n + 1)].
Proof.
  intros Hac.
  assert (Hsize : size (bracketed a c n) = Z.of_nat n + 2)
    by (unfold size; rewrite bracketed_length; lia).
  assert (Hd : degenerate (bracketed a c n) (String a EmptyString) = false).
  { apply degenerate_false. rewrite Hsize. unfold size. cbn [String.length]. lia. }
  rewrite find_pattern_matches_scan by exact Hd.
  unfold search_space. rewrite Hsize.
  replace (size (String a EmptyString)) with 1 by reflexivity.
  replace (Z.to_nat (Z.of_nat n + 2 - 1 + 1)) with (1 + (n + 1))%nat by lia.
  rewrite offsets_app, offsets_app.
  change (Z.of_nat 1) with 1. rewrite Z.add_0_l.
  change (offsets 0 1) with [0].
  change (offsets (1 + Z.of_nat n) 1) with [1 + Z.of_nat n].
  rewrite !filter_app.
  rewrite (filter_none _ (offsets 1 n)).
  2:{ intros i Hi. apply offsets_In in Hi. rewrite match_at_single.
      unfold char_at. replace (Z.to_nat i) with (S (Z.to_nat (i - 1))) by lia.
      rewrite bracketed_get_inner by lia. cbn [same_char].
      apply Ascii.eqb_neq. congruence. }
  cbn [filter app]. rewrite !match_at_single.
  replace (char_at (bracketed a c n) 0) with (Some a) by reflexivity.
  replace (char_at (bracketed a c n) (1 + Z.of_nat n)) with (Some a).
  2:{ unfold char_at. replace (Z.to_nat (1 + Z.of_nat n)) with (S n) by lia.
      now rewrite bracketed_get_last. }
  cbn [same_char]. rewrite Ascii.eqb_refl. cbn [app map].
  now rewrite (Z.add_comm 1).
Qed.

Lemma find_pattern_matches_degenerate (sequence pattern : string) :
  size pattern = 0 \/ size sequence = 0 \/ size sequence < size pattern ->
  find_pattern_matches sequence pattern = [].
Proof.
  intros H. unfold find_pattern_matches.
  destruct (degenerate sequence pattern) eqn:Hd; [reflexivity|].
  apply degenerate_false in Hd. lia.
Qed.

Lemma find_pattern_matches_In (sequence pattern : string) (i : Z) :
  size sequence - size pattern <= INT_MAX ->
  In i (find_pattern_matches sequence pattern) <->
  0 < size pattern /\ occurs_at sequence pattern i.
Proof.
  intros Hs. unfold occurs_at.
  destruct (degenerate sequence pattern) eqn:Hd.
  - unfold find_pattern_matches. rewrite Hd.
    assert (~ 0 < size pattern <= size sequence)
      by (rewrite <- degenerate_false; congruence).
    split; [intros [] | lia].
  - rewrite find_pattern_matches_filter by assumption.
    apply degenerate_false in Hd.
    rewrite filter_In. unfold search_space. rewrite offsets_In.
    split.
    + intros [Hi Hm].
      rewrite match_at_occurs in Hm by lia.
      repeat split; try lia. exact Hm.
    + intros [_ [Hi [Hfit Hsub]]]. split; [lia|].
      apply match_at_occurs; assumption.
Qed.

(** C2 (amended): when every start offset is an [int], that is when
    [|sequence| - |pattern| <= INT_MAX], [find_pattern_matches] returns the
    strictly ascending list of all zero-based offsets at which the pattern
    occurs verbatim, overlapping occurrences included; for an empty pattern,
    an empty sequence or a pattern longer than the sequence, whatever their
    lengths, it returns the empty list; on ["AAAA"], ["AA"] it returns
    [[0; 1; 2]]. *)
Theorem find_pattern_matches_spec (sequence pattern : string) :
  (size sequence - size pattern <= INT_MAX ->
   StronglySorted Z.lt (find_pattern_matches sequence pattern) /\
   forall i, In i (find_pattern_matches sequence pattern) <->
             0 < size pattern /\ occurs_at sequence pattern i) /\
  (size pattern = 0 \/ size sequence = 0 \/ size sequence < size pattern ->
   find_pattern_matches sequence pattern = []) /\
  find_pattern_matches "AAAA" "AA" = [0; 1; 2].
Proof.
  split; [|split].
  - intros Hs. split.
    + apply find_pattern_matches_sorted. now right.
    + intros i. now apply find_pattern_matches_In.
  - apply find_pattern_matches_degenerate.
  - reflexivity.
Qed.

Lemma find_pattern_matches_spec_witness :
  StronglySorted Z.lt (find_pattern_matches "ATATAT" "ATA") /\
  forall i, In i (find_pattern_matches "ATATAT" "ATA") <->
            0 < size "ATA" /\ occurs_at "ATATAT" "ATA" i.
Proof.
  apply (proj1 (find_pattern_matches_spec "ATATAT" "ATA")).
  unfold size, INT_MAX. simpl. lia.
Defined.

Lemma far_apart_size : Z.of_nat (Z.to_nat (2 ^ 31 - 1)) + 1 = 2 ^ 31.
Proof. rewrite Z2Nat.id; lia. Qed.

Lemma find_in_far_apart : find_pattern_matches far_apart "A" = [0; INT_MIN].
Proof.
  unfold far_apart.
  rewrite (find_in_bracketed "A" "C" (Z.to_nat (2 ^ 31 - 1))) by discriminate.
  rewrite far_apart_size. reflexivity.
Qed.

(** C2 as stated fails on [far_apart]: the pattern occurs at the offsets [0]
    and [2^31]; the second is reported as the negative number [INT_MIN],
    which is no zero-based position, and the list is not ascending. *)
Lemma find_pattern_matches_far_apart :
  find_pattern_matches far_apart "A" = [0; - 2 ^ 31].
Proof. exact find_in_far_apart. Qed.

(** C1 (amended): when every start offset is an [int], that is when
    [|sequence| - |pattern| <= INT_MAX], or when the pattern is empty, and
    for [num_threads] among 1, 2, 3, 4, 8, the parallel variant returns
    exactly the list of the serial one, which is strictly ascending;
    degenerate inputs included. *)
Theorem parallel_matches_serial (sequence pattern : string) (num_threads : Z) :
  size pattern = 0 \/ size sequence - size pattern <= INT_MAX ->
  In num_threads [1; 2; 3; 4; 8] ->
  find_pattern_matches_parallel sequence pattern num_threads
  = Ret (find_pattern_matches sequence pattern) /\
  StronglySorted Z.lt (find_pattern_matches sequence pattern).
Proof.
  intros Hs Hk. split.
  - apply parallel_serial; [assumption|].
    unfold INT_MAX. simpl in Hk. lia.
  - now apply find_pattern_matches_sorted.
Qed.

Lemma parallel_matches_serial_witness :
  find_pattern_matches_parallel "ATGCATGCATAT" "AT" 3
  = Ret (find_pattern_matches "ATGCATGCATAT" "AT") /\
  StronglySorted Z.lt (find_pattern_matches "ATGCATGCATAT" "AT").
Proof.
  apply (parallel_matches_serial "ATGCATGCATAT" "AT" 3).
  - right. unfold size, INT_MAX. simpl. lia.
  - simpl. tauto.
Defined.

(** C1 as stated fails on [far_apart]: the serial variant returns
    [[0; INT_MIN]] in scan order, the parallel variant sorts and returns
    [[INT_MIN; 0]]. *)
Lemma parallel_differs_on_far_apart :
  find_pattern_matches far_apart "A" = [0; - 2 ^ 31] /\
  find_pattern_matches_parallel far_apart "A" 1 = Ret [- 2 ^ 31; 0].
Proof.
  split; [exact find_in_far_apart|].
  rewrite parallel_merge.
  - rewrite find_in_far_apart. reflexivity.
  - unfold search_len, far_apart, size. rewrite bracketed_length.
    pose proof far_apart_size. unfold SIZE_MODULUS. cbn [String.length]. lia.
  - unfold INT_MAX. lia.
  - apply degenerate_false. unfold far_apart, size.
    rewrite bracketed_length. cbn [String.length]. lia.
Qed.

Lemma to_size_t_zero_iff (z : Z) : is_int z -> (to_size_t z = 0 <-> z = 0).
Proof.
  unfold is_int, INT_MIN, INT_MAX, to_size_t, SIZE_MODULUS. intros H. split.
  - intros Hz. destruct (Z.neg_nonneg_cases z) as [Hneg|Hpos].
    + assert (z + 2 ^ 64 = z mod 2 ^ 64)
        by (apply Z.mod_unique with (q := -1); lia).
      lia.
    + rewrite Z.mod_small in Hz; lia.
  - intros ->. reflexivity.
Qed.

(** Launching with the system made explicit: the tasks of [spawn] when every
    thread is started, [std::system_error] otherwise. *)
Lemma spawn_async_spec (started : Z -> bool) (search_len chunk_size num_threads : Z)
  (fuel : nat) (t : Z) (tasks : list (Z * Z)) :
  spawn_async started search_len chunk_size num_threads t fuel tasks
  = if forallb started (offsets t fuel)
    then Ret (spawn search_len chunk_size num_threads t fuel tasks)
    else Throws SystemError.
Proof.
  revert t tasks. induction fuel as [|fuel IH]; intros t tasks;
    cbn [spawn_async spawn offsets forallb]; [reflexivity|].
  destruct (started t); cbn [andb]; [apply IH | reflexivity].
Qed.

Lemma parallel_async_spec (started : Z -> bool) (sequence pattern : string)
  (num_threads : Z) :
  find_pattern_matches_parallel_async started sequence pattern num_threads
  = if degenerate sequence pattern then Ret []
    else if to_size_t num_threads =? 0 then Undefined DivisionByZero
    else if all_started started num_threads
         then find_pattern_matches_parallel sequence pattern num_threads
         else Throws SystemError.
Proof.
  unfold find_pattern_matches_parallel_async, find_pattern_matches_parallel.
  destruct (degenerate sequence pattern); [reflexivity|]. cbv zeta.
  destruct (to_size_t num_threads =? 0); [reflexivity|].
  rewrite spawn_async_spec. unfold all_started, chunks.
  now destruct (forallb started _).
Qed.

(** C10: on a non-degenerate input whose length is a [size_t], for every
    [int] [num_threads]: the divisor of the chunk-size computation is
    non-zero and the launched tasks visit every start offset exactly once,
    in order, if and only if [num_threads >= 1].  With [num_threads >= 1]
    the call is defined: what the tasks report, in launch order, is the
    matching offsets, each once, and the call returns them sorted, unless
    the system cannot start one of the threads, in which case
    [std::system_error] leaves the function.  With [num_threads = 0] the
    divisor is zero and the division is undefined, whatever the system
    does.  With [num_threads < 0] the divisor is non-zero, no task is
    launched and the result is empty. *)
Theorem chunking_needs_positive_threads (sequence pattern : string) :
  degenerate sequence pattern = false ->
  size sequence < SIZE_MODULUS ->
  (forall num_threads, is_int num_threads ->
     (to_size_t num_threads <> 0 /\
      List.concat (map chunk_offsets (launched sequence pattern num_threads))
      = offsets 0 (Z.to_nat (search_len sequence pattern)))
     <-> 1 <= num_threads) /\
  (forall started num_threads, is_int num_threads -> 1 <= num_threads ->
     List.concat (map (worker sequence pattern) (launched sequence pattern num_threads))
     = map static_cast_int
         (filter (match_at sequence pattern) (search_space sequence pattern)) /\
     find_pattern_matches_parallel_async started sequence pattern num_threads
     = (if all_started started num_threads
        then Ret (std_sort
                    (map static_cast_int
                       (filter (match_at sequence pattern)
                          (search_space sequence pattern))))
        else Throws SystemError) /\
     find_pattern_matches_parallel sequence pattern num_threads
     = Ret (std_sort
              (map static_cast_int
                 (filter (match_at sequence pattern)
                    (search_space sequence pattern))))) /\
  (forall started,
     to_size_t 0 = 0 /\
     find_pattern_matches_parallel_async started sequence pattern 0
     = Undefined DivisionByZero /\
     find_pattern_matches_parallel sequence pattern 0
     = Undefined DivisionByZero) /\
  (forall started num_threads, is_int num_threads -> num_threads < 0 ->
     to_size_t num_threads <> 0 /\
     launched sequence pattern num_threads = [] /\
     find_pattern_matches_parallel_async started sequence pattern num_threads
     = Ret [] /\
     find_pattern_matches_parallel sequence pattern num_threads = Ret []).
Proof.
  intros Hd Hs.
  pose proof (proj1 (degenerate_false _ _) Hd) as Hp.
  assert (Hneg : forall num_threads,
             num_threads < 0 -> launched sequence pattern num_threads = []).
  { intros num_threads Hlt. unfold launched, chunks.
    now replace (Z.to_nat num_threads) with O by lia. }
  assert (Hcover : forall num_threads, is_int num_threads -> 1 <= num_threads ->
             List.concat (map chunk_offsets (launched sequence pattern num_threads))
             = offsets 0 (Z.to_nat (search_len sequence pattern))).
  { intros num_threads Hk Hge. unfold launched. unfold is_int in Hk.
    rewrite to_size_t_threads by lia.
    apply chunks_cover; unfold search_len; lia. }
  split; [|split; [|split]].
  - intros num_threads Hk.
    pose proof (to_size_t_zero_iff num_threads Hk) as Hz. split.
    + intros [Hnz Hall].
      destruct (Z.lt_trichotomy num_threads 0) as [Hlt|[Heq|Hgt]]; [exfalso| |lia].
      * rewrite (Hneg _ Hlt) in Hall. cbn [map List.concat] in Hall.
        unfold search_len in Hall.
        replace (Z.to_nat (size sequence - size pattern + 1))
          with (S (Z.to_nat (size sequence - size pattern))) in Hall by lia.
        discriminate.
      * exfalso. apply Hnz. now apply Hz.
    + intros Hge. split; [intros H0; apply Hz in H0; lia|].
      now apply Hcover.
  - intros started num_threads Hk Hge.
    pose proof (to_size_t_zero_iff num_threads Hk) as Hz.
    assert (Hreport :
              List.concat (map (worker sequence pattern)
                             (launched sequence pattern num_threads))
              = map static_cast_int
                  (filter (match_at sequence pattern)
                     (search_space sequence pattern))).
    { rewrite workers_spec, Hcover by assumption. reflexivity. }
    assert (Hall :
              find_pattern_matches_parallel sequence pattern num_threads
              = Ret (std_sort
                       (map static_cast_int
                          (filter (match_at sequence pattern)
                             (search_space sequence pattern))))).
    { rewrite <- Hreport. unfold find_pattern_matches_parallel. rewrite Hd.
      cbv zeta. destruct (Z.eqb_spec (to_size_t num_threads) 0) as [H0|_];
        [apply Hz in H0; lia | reflexivity]. }
    split; [exact Hreport|]. split; [|exact Hall].
    rewrite parallel_async_spec, Hd.
    destruct (Z.eqb_spec (to_size_t num_threads) 0) as [H0|_];
      [apply Hz in H0; lia|].
    now rewrite Hall.
  - intros started. split; [reflexivity|]. split.
    + now rewrite parallel_async_spec, Hd.
    + unfold find_pattern_matches_parallel. now rewrite Hd.
  - intros started num_threads Hk Hlt.
    pose proof (to_size_t_zero_iff num_threads Hk) as Hz.
    assert (Hnz : to_size_t num_threads <> 0) by (intros H0; apply Hz in H0; lia).
    assert (Hall : find_pattern_matches_parallel sequence pattern num_threads = Ret []).
    { unfold find_pattern_matches_parallel. rewrite Hd. cbv zeta.
      destruct (Z.eqb_spec (to_size_t num_threads) 0) as [H0|_]; [contradiction|].
      unfold chunks. now replace (Z.to_nat num_threads) with O by lia. }
    split; [exact Hnz|]. split; [now apply Hneg|]. split; [|exact Hall].
    rewrite parallel_async_spec, Hd, Hall.
    destruct (Z.eqb_spec (to_size_t num_threads) 0) as [H0|_]; [contradiction|].
    unfold all_started. now replace (Z.to_nat num_threads) with O by lia.
Qed.

Lemma chunking_needs_positive_threads_witness :
  (to_size_t 3 <> 0 /\
   List.concat (map chunk_offsets (launched "ATGCATGCATAT" "AT" 3))
   = offsets 0 (Z.to_nat (search_len "ATGCATGCATAT" "AT"))) /\
  find_pattern_matches_parallel_async unlimited "ATGCATGCATAT" "AT" 3
  = Ret [0; 4; 8; 10] /\
  find_pattern_matches_parallel_async (limited 2) "ATGCATGCATAT" "AT" 3
  = Throws SystemError /\
  find_pattern_matches_parallel_async unlimited "ATGCATGCATAT" "AT" 0
  = Undefined DivisionByZero /\
  (launched "ATGCATGCATAT" "AT" (-2) = [] /\
   find_pattern_matches_parallel_async unlimited "ATGCATGCATAT" "AT" (-2) = Ret []).
Proof.
  assert (Hint : forall k, -5 <= k <= 5 -> is_int k)
    by (unfold is_int, INT_MIN, INT_MAX; lia).
  destruct (chunking_needs_positive_threads "ATGCATGCATAT" "AT")
    as (Hiff & Hpos & Hzero & Hneg).
  - reflexivity.
  - unfold size, SIZE_MODULUS. simpl. lia.
  - split; [apply (Hiff 3); [apply Hint|]; lia|].
    split; [exact (proj1 (proj2 (Hpos unlimited 3 (Hint 3 ltac:(lia)) ltac:(lia))))|].
    split; [exact (proj1 (proj2 (Hpos (limited 2) 3 (Hint 3 ltac:(lia)) ltac:(lia))))|].
    split; [exact (proj1 (proj2 (Hzero unlimited)))|].
    destruct (Hneg unlimited (-2) (Hint (-2) ltac:(lia)) ltac:(lia))
      as (_ & Hnone & Hempty & _).
    split; [exact Hnone | exact Hempty].
Defined.

(** ** Oracle builder *)

Lemma set_nth_length {A : Type} (k : nat) (x : A) (v : list A) :
  List.length (set_nth k x v) = List.length v.
Proof.
  revert k. induction v as [|y v IH]; intros k; [reflexivity|].
  destruct k; simpl; [reflexivity | now rewrite IH].
Qed.

Lemma set_nth_nth {A : Type} (k j : nat) (x d : A) (v : list A) :
  (k < List.length v)%nat ->
  nth j (set_nth k x v) d = if Nat.eqb j k then x else nth j v d.
Proof.
  revert k j. induction v as [|y v IH]; intros k j Hk; simpl in Hk; [lia|].
  destruct k as [|k], j as [|j]; simpl; try reflexivity.
  apply IH. lia.
Qed.

Lemma marked_In (matches : list Z) (i : Z) : marked matches i = true <-> In i matches.
Proof.
  unfold marked. rewrite existsb_exists. split.
  - intros [m [Hin Heq]]. apply Z.eqb_eq in Heq. now subst.
  - intros Hin. exists i. split; [assumption | apply Z.eqb_refl].
Qed.

Section Oracle.

Variable database_size : Z.
Hypothesis Hsize : 0 <= database_size <= INT_MAX.

Lemma store_in_bounds (diagonal : list complex) (m : Z) (x : complex) :
  Z.of_nat (List.length diagonal) = database_size ->
  0 <= m < database_size ->
  store diagonal m x = Ret (set_nth (Z.to_nat m) x diagonal).
Proof.
  intros Hlen Hm. unfold store. cbv zeta. unfold INT_MAX in Hsize.
  rewrite to_size_t_small by (unfold SIZE_MODULUS; lia).
  destruct (Z.ltb_spec m (Z.of_nat (List.length diagonal))); [reflexivity | lia].
Qed.

Lemma store_negative (diagonal : list complex) (m : Z) (x : complex) :
  Z.of_nat (List.length diagonal) = database_size ->
  INT_MIN <= m < 0 ->
  store diagonal m x = Undefined IndexOutOfBounds.
Proof.
  intros Hlen Hm. unfold store. cbv zeta.
  unfold INT_MAX, INT_MIN in *.
  assert (Hw : m + 2 ^ 64 = to_size_t m).
  { unfold to_size_t, SIZE_MODULUS. apply Z.mod_unique with (q := -1); lia. }
  rewrite <- Hw.
  destruct (Z.ltb_spec (m + 2 ^ 64) (Z.of_nat (List.length diagonal)));
    [lia | reflexivity].
Qed.

(** With non-negative positions every write is in bounds, and the loop ends
    with [-1] exactly at the marked indices. *)
Lemma mark_nonnegative (matches : list Z) (diagonal : list complex) :
  Forall (fun m => 0 <= m) matches ->
  Z.of_nat (List.length diagonal) = database_size ->
  exists diagonal',
    mark matches database_size diagonal = Ret diagonal' /\
    List.length diagonal' = List.length diagonal /\
    forall k, (k < List.length diagonal)%nat ->
      nth k diagonal' plus_one
      = if marked matches (Z.of_nat k) then minus_one else nth k diagonal plus_one.
Proof.
  intros Hnn. revert diagonal.
  induction Hnn as [|m rest Hm _ IH]; intros diagonal Hlen.
  - exists diagonal. repeat split.
  - cbn [mark]. destruct (Z.ltb_spec m database_size) as [Hlt|Hge].
    + rewrite store_in_bounds by lia. cbn [bind].
      destruct (IH (set_nth (Z.to_nat m) minus_one diagonal)) as [d' [Hrun [Hl Hnth]]].
      { now rewrite set_nth_length. }
      rewrite set_nth_length in Hl, Hnth.
      exists d'. split; [assumption|]. split; [assumption|].
      intros k Hk. rewrite (Hnth k Hk), set_nth_nth by lia.
      unfold marked. cbn [existsb].
      destruct (existsb (Z.eqb (Z.of_nat k)) rest); [now rewrite orb_true_r|].
      rewrite orb_false_r.
      destruct (Nat.eqb_spec k (Z.to_nat m)), (Z.eqb_spec (Z.of_nat k) m);
        try reflexivity; lia.
    + destruct (IH diagonal Hlen) as [d' [Hrun [Hl Hnth]]].
      exists d'. split; [assumption|]. split; [assumption|].
      intros k Hk. rewrite (Hnth k Hk).
      unfold marked. cbn [existsb].
      destruct (Z.eqb_spec (Z.of_nat k) m); [lia | reflexivity].
Qed.

(** A negative position passes the guard [match < database_size] and its
    write is out of bounds. *)
Lemma mark_negative (matches : list Z) (diagonal : list complex) :
  Forall is_int matches ->
  Exists (fun m => m < 0) matches ->
  Z.of_nat (List.length diagonal) = database_size ->
  mark matches database_size diagonal = Undefined IndexOutOfBounds.
Proof.
  intros Hint. revert diagonal.
  induction Hint as [|m rest Hm _ IH]; intros diagonal Hex Hlen.
  - inversion Hex.
  - cbn [mark]. destruct (Z.neg_nonneg_cases m) as [Hneg|Hnn].
    + destruct (Z.ltb_spec m database_size); [|lia].
      rewrite store_negative; [reflexivity | assumption | unfold is_int in Hm; lia].
    + assert (Hrest : Exists (fun m => m < 0) rest)
        by (inversion Hex; subst; [lia | assumption]).
      destruct (Z.ltb_spec m database_size).
      * rewrite store_in_bounds by lia. cbn [bind].
        apply IH; [assumption | now rewrite set_nth_length].
      * now apply IH.
Qed.

End Oracle.

Lemma repeat_nth {A : Type} (x d : A) (n k : nat) :
  (k < n)%nat -> nth k (repeat x n) d = x.
Proof.
  revert k. induction n as [|n IH]; intros k Hk; [lia|].
  destruct k; simpl; [reflexivity | apply IH; lia].
Qed.

Lemma negative_or_all_nonnegative (matches : list Z) :
  Exists (fun m => m < 0) matches \/ Forall (fun m => 0 <= m) matches.
Proof.
  induction matches as [|m rest [IH|IH]].
  - right. constructor.
  - left. now apply Exists_cons_tl.
  - destruct (Z.neg_nonneg_cases m); [left; now apply Exists_cons_hd|].
    right. now constructor.
Qed.

(** C9: let [diagonal] be the vector of length [database_size] and the
    positions be [int]s.  The only guard of the write [diagonal[match]] is
    [match < database_size].  All the writes of the loop are inside the
    vector, so that the loop (and with it [build_oracle_diagonal]) runs to
    its end, if and only if every position is non-negative; as soon as one
    position is negative the guard lets it through and the write is out of
    bounds, whereas a position at or above [database_size] is skipped by the
    guard. *)
Theorem oracle_writes_in_bounds_iff (matches : list Z) (database_size : Z)
  (diagonal : list complex) :
  Z.of_nat (List.length diagonal) = database_size ->
  database_size <= INT_MAX ->
  Forall is_int matches ->
  ((exists diagonal', mark matches database_size diagonal = Ret diagonal')
   <-> Forall (fun m => 0 <= m) matches) /\
  (Forall (fun m => 0 <= m) matches ->
   exists diagonal', build_oracle_diagonal matches database_size = Ret diagonal') /\
  (Exists (fun m => m < 0) matches ->
   mark matches database_size diagonal = Undefined IndexOutOfBounds /\
   build_oracle_diagonal matches database_size = Undefined IndexOutOfBounds) /\
  (forall m rest,
     database_size <= m ->
     mark (m :: rest) database_size diagonal = mark rest database_size diagonal).
Proof.
  intros Hlen Hmax Hint.
  assert (Hsize : 0 <= database_size <= INT_MAX) by lia.
  assert (Hinit : Z.of_nat (List.length (repeat plus_one (Z.to_nat database_size)))
                  = database_size) by (rewrite repeat_length; lia).
  assert (Hneg : Exists (fun m => m < 0) matches ->
                 mark matches database_size diagonal = Undefined IndexOutOfBounds)
    by (intros Hex; now apply mark_negative).
  split; [|split; [|split]].
  - split.
    + intros [diagonal' Hret].
      destruct (negative_or_all_nonnegative matches) as [Hex|Hall]; [|assumption].
      rewrite (Hneg Hex) in Hret. discriminate.
    + intros Hall.
      destruct (mark_nonnegative database_size Hsize matches _ Hall Hlen)
        as [d' [Hrun _]].
      now exists d'.
  - intros Hall. unfold build_oracle_diagonal.
    rewrite check_size_ok by assumption. cbn [bind].
    destruct (mark_nonnegative database_size Hsize matches _ Hall Hinit)
      as [d' [Hrun _]].
    now exists d'.
  - intros Hex. split; [now apply Hneg|].
    unfold build_oracle_diagonal.
    rewrite check_size_ok by assumption. cbn [bind].
    now apply mark_negative.
  - intros m rest Hge. cbn [mark].
    destruct (Z.ltb_spec m database_size); [lia | reflexivity].
Qed.

Lemma oracle_writes_in_bounds_iff_witness :
  ((exists diagonal', mark [2; -1; 7] 4 (repeat plus_one 4) = Ret diagonal')
   <-> Forall (fun m => 0 <= m) [2; -1; 7]) /\
  (Forall (fun m => 0 <= m) [2; -1; 7] ->
   exists diagonal', build_oracle_diagonal [2; -1; 7] 4 = Ret diagonal') /\
  (Exists (fun m => m < 0) [2; -1; 7] ->
   mark [2; -1; 7] 4 (repeat plus_one 4) = Undefined IndexOutOfBounds /\
   build_oracle_diagonal [2; -1; 7] 4 = Undefined IndexOutOfBounds) /\
  (forall m rest,
     4 <= m ->
     mark (m :: rest) 4 (repeat plus_one 4) = mark rest 4 (repeat plus_one 4)).
Proof.
  apply (oracle_writes_in_bounds_iff [2; -1; 7] 4 (repeat plus_one 4)).
  - reflexivity.
  - unfold INT_MAX. lia.
  - unfold is_int, INT_MIN, INT_MAX. repeat constructor; lia.
Defined.

Lemma nth_map_offsets {A : Type} (f : Z -> A) (d : A) (n k : nat) :
  (k < n)%nat -> nth k (map f (offsets 0 n)) d = f (Z.of_nat k).
Proof.
  intros Hk. apply nth_error_nth.
  now rewrite nth_error_map, offsets_nth_error.
Qed.

Lemma build_oracle_diagonal_flips (matches : list Z) (database_size : Z) :
  0 <= database_size <= INT_MAX ->
  Forall (fun m => 0 <= m) matches ->
  build_oracle_diagonal matches database_size
  = Ret (phase_flips matches database_size).
Proof.
  intros Hsize Hall. unfold build_oracle_diagonal.
  rewrite check_size_ok by assumption. cbn [bind].
  destruct (mark_nonnegative database_size Hsize matches
              (repeat plus_one (Z.to_nat database_size)) Hall)
    as [d' [Hrun [Hl Hnth]]].
  { rewrite repeat_length. lia. }
  rewrite Hrun. f_equal. rewrite repeat_length in Hl, Hnth.
  apply nth_ext with (d := plus_one) (d' := plus_one).
  - unfold phase_flips. now rewrite length_map, offsets_length.
  - intros k Hk. rewrite Hl in Hk. rewrite (Hnth k Hk).
    unfold phase_flips. rewrite nth_map_offsets by assumption.
    now rewrite repeat_nth.
Qed.

Lemma offsets_NoDup (start : Z) (n : nat) : NoDup (offsets start n).
Proof.
  revert start. induction n as [|n IH]; intros start; simpl; constructor.
  - rewrite offsets_In. lia.
  - apply IH.
Qed.

Lemma count_flips (matches l : list Z) :
  count_occ complex_eq_dec
    (map (fun i => if marked matches i then minus_one else plus_one) l) minus_one
  = List.length (filter (marked matches) l).
Proof.
  induction l as [|i l IH]; [reflexivity|].
  cbn [map filter]. destruct (marked matches i).
  - rewrite count_occ_cons_eq by reflexivity. cbn [List.length]. now rewrite IH.
  - rewrite count_occ_cons_neq by discriminate. exact IH.
Qed.

Lemma marked_below (matches : list Z) (database_size : Z) :
  0 <= database_size ->
  Forall (fun m => 0 <= m) matches ->
  List.length (filter (marked matches) (offsets 0 (Z.to_nat database_size)))
  = List.length (nodup Z.eq_dec (filter (fun m => m <? database_size) matches)).
Proof.
  intros Hsize Hall. apply Permutation_length, NoDup_Permutation.
  - apply NoDup_filter, offsets_NoDup.
  - apply NoDup_nodup.
  - intros x. rewrite nodup_In, !filter_In, offsets_In, marked_In, Z.ltb_lt.
    rewrite Forall_forall in Hall. split.
    + intros [Hx Hin]. split; [assumption | lia].
    + intros [Hin Hx]. specialize (Hall x Hin). split; [lia | assumption].
Qed.

(** C3 (amended): for a size [0 <= database_size] and a list of non-negative
    match positions, [build_oracle_diagonal] returns a vector of exactly
    [database_size] complex numbers; its entry at position [i] is [-1 + 0i]
    if [i] occurs in the list and [+1 + 0i] otherwise; positions at or above
    [database_size] leave no trace, so the number of entries equal to [-1]
    is the number of distinct positions of the list below [database_size]. *)
Theorem build_oracle_diagonal_spec (matches : list Z) (database_size : Z) :
  0 <= database_size <= INT_MAX ->
  Forall (fun m => 0 <= m) matches ->
  exists diagonal,
    build_oracle_diagonal matches database_size = Ret diagonal /\
    Z.of_nat (List.length diagonal) = database_size /\
    (forall i, 0 <= i < database_size ->
       (In i matches -> nth_error diagonal (Z.to_nat i) = Some minus_one) /\
       (~ In i matches -> nth_error diagonal (Z.to_nat i) = Some plus_one)) /\
    count_occ complex_eq_dec diagonal minus_one
    = List.length (nodup Z.eq_dec (filter (fun m => m <? database_size) matches)) /\
    minus_one = (S754_finite true 4503599627370496 (-52), S754_zero false) /\
    plus_one = (S754_finite false 4503599627370496 (-52), S754_zero false).
Proof.
  intros Hsize Hall. exists (phase_flips matches database_size).
  split; [now apply build_oracle_diagonal_flips|].
  split; [unfold phase_flips; rewrite length_map, offsets_length; lia|].
  split; [|split; [|split; reflexivity]].
  - intros i Hi.
    assert (Hnth : nth_error (phase_flips matches database_size) (Z.to_nat i)
                   = Some (if marked matches i then minus_one else plus_one)).
    { unfold phase_flips. rewrite nth_error_map, offsets_nth_error by lia.
      cbn [option_map]. now replace (0 + Z.of_nat (Z.to_nat i)) with i by lia. }
    rewrite Hnth. split; intros Hin.
    + apply marked_In in Hin. now rewrite Hin.
    + destruct (marked matches i) eqn:Hm; [|reflexivity].
      apply marked_In in Hm. contradiction.
  - unfold phase_flips. rewrite count_flips. apply marked_below; [lia | assumption].
Qed.

Lemma build_oracle_diagonal_spec_witness :
  exists diagonal,
    build_oracle_diagonal [1; 5; 1] 3 = Ret diagonal /\
    Z.of_nat (List.length diagonal) = 3 /\
    (forall i, 0 <= i < 3 ->
       (In i [1; 5; 1] -> nth_error diagonal (Z.to_nat i) = Some minus_one) /\
       (~ In i [1; 5; 1] -> nth_error diagonal (Z.to_nat i) = Some plus_one)) /\
    count_occ complex_eq_dec diagonal minus_one
    = List.length (nodup Z.eq_dec (filter (fun m => m <? 3) [1; 5; 1])) /\
    minus_one = (S754_finite true 4503599627370496 (-52), S754_zero false) /\
    plus_one = (S754_finite false 4503599627370496 (-52), S754_zero false).
Proof.
  apply (build_oracle_diagonal_spec [1; 5; 1] 3).
  - unfold INT_MAX. lia.
  - repeat constructor; lia.
Defined.

(** C3 as stated fails outside these bounds: a negative position is below
    every size, so it is counted by the claim, but its write falls outside
    the vector; and with a negative size no vector is built at all. *)
Lemma build_oracle_diagonal_out_of_range :
  build_oracle_diagonal [-1] 1 = Undefined IndexOutOfBounds /\
  build_oracle_diagonal [] (-1) = Throws LengthError.
Proof. split; reflexivity. Qed.

(** ** Binary64 conversions *)

Lemma digits2_pos_lower (p : positive) :
  2 ^ (Z.pos (digits2_pos p) - 1) <= Z.pos p.
Proof.
  induction p as [p IH|p IH|]; cbn [digits2_pos].
  - rewrite Pos2Z.inj_succ.
    replace (Z.succ (Z.pos (digits2_pos p)) - 1)
      with (Z.succ (Z.pos (digits2_pos p) - 1)) by lia.
    rewrite Z.pow_succ_r by lia. lia.
  - rewrite Pos2Z.inj_succ.
    replace (Z.succ (Z.pos (digits2_pos p)) - 1)
      with (Z.succ (Z.pos (digits2_pos p) - 1)) by lia.
    rewrite Z.pow_succ_r by lia. lia.
  - simpl. lia.
Qed.

Lemma digits2_pos_int (p : positive) :
  Z.pos p <= INT_MAX -> Z.pos (digits2_pos p) <= 31.
Proof.
  unfold INT_MAX. intros Hp.
  destruct (Z.le_gt_cases (Z.pos (digits2_pos p)) 31) as [|Hgt]; [assumption|].
  pose proof (digits2_pos_lower p).
  assert (2 ^ 31 <= 2 ^ (Z.pos (digits2_pos p) - 1))
    by (apply Z.pow_le_mono_r; lia).
  lia.
Qed.

Lemma digits2_pos_shift (p k : positive) :
  digits2_pos (Pos.iter xO p k) = (digits2_pos p + k)%positive.
Proof.
  induction k as [|k IH] using Pos.peano_ind.
  - cbn. lia.
  - rewrite Pos.iter_succ. cbn [digits2_pos]. rewrite IH. lia.
Qed.

(** A mantissa of 53 digits with an exponent in range is left as it is. *)
Lemma binary_round_aux_canonical (s : bool) (m : positive) (e : Z) :
  digits2_pos m = 53%positive -> -1074 <= e <= 971 ->
  binary_round_aux Double.prec Double.emax s (Z.pos m) e loc_Exact
  = S754_finite s m e.
Proof.
  intros Hd He.
  assert (Hfexp : fexp Double.prec Double.emax (Z.pos 53 + e) - e = 0).
  { unfold fexp, emin, Double.prec, Double.emax. lia. }
  unfold binary_round_aux, shr_fexp. cbn [Zdigits2 shr_record_of_loc].
  rewrite Hd, Hfexp. cbn [shr shr_m loc_of_shr_record round_nearest_even Zdigits2].
  rewrite Hd, Hfexp. cbn [shr shr_m].
  unfold Double.prec, Double.emax.
  destruct (Z.leb_spec e (1024 - 53)); [reflexivity | lia].
Qed.

(** The conversion of a non-zero [int] is a finite double of the same
    sign. *)
Lemma binary_round_int (s : bool) (p : positive) :
  Z.pos p <= INT_MAX ->
  exists m e, binary_round Double.prec Double.emax s p 0 = S754_finite s m e.
Proof.
  intros Hp. pose proof (digits2_pos_int p Hp) as Hd.
  unfold binary_round, shl_align.
  assert (Hfexp : fexp Double.prec Double.emax (Z.pos (digits2_pos p) + 0)
                  = Z.pos (digits2_pos p) - 53).
  { unfold fexp, emin, Double.prec, Double.emax. lia. }
  rewrite Hfexp, Z.sub_0_r.
  destruct (Z.pos (digits2_pos p) - 53) as [|k|k] eqn:Hk; try lia.
  exists (Pos.iter xO p k), (Z.neg k).
  apply binary_round_aux_canonical.
  - rewrite digits2_pos_shift. lia.
  - lia.
Qed.

Lemma of_Z_positive (z : Z) :
  0 < z <= INT_MAX -> exists m e, Double.of_Z z = S754_finite false m e.
Proof.
  intros Hz. destruct z as [|p|p]; try lia.
  unfold Double.of_Z. cbn [binary_normalize]. apply binary_round_int. lia.
Qed.

Lemma div_zero_by_positive (z : Z) :
  0 < z <= INT_MAX -> Double.div (Double.of_Z 0) (Double.of_Z z) = Double.zero.
Proof.
  intros Hz. destruct (of_Z_positive z Hz) as [m [e ->]]. reflexivity.
Qed.

Lemma div_by_zero (z : Z) :
  0 <= z <= INT_MAX ->
  Double.div (Double.of_Z z) (Double.of_Z 0)
  = if z =? 0 then S754_nan else S754_infinity false.
Proof.
  intros Hz. destruct (Z.eqb_spec z 0) as [->|Hnz]; [reflexivity|].
  destruct (of_Z_positive z ltac:(lia)) as [m [e ->]]. reflexivity.
Qed.

(** ** Statistics analyzer *)

Lemma sum_counts_nonneg (counts : histogram) :
  Forall (fun e => 0 <= snd e) counts -> 0 <= sum_counts counts.
Proof. induction 1 as [|e l He _ IH]; simpl; lia. Qed.

Lemma largest_count_nonneg (counts : histogram) : 0 <= largest_count counts.
Proof. induction counts as [|e l IH]; simpl; lia. Qed.

Lemma largest_count_upper (counts : histogram) (e : string * Z) :
  In e counts -> snd e <= largest_count counts.
Proof.
  induction counts as [|e' l IH]; intros Hin; [destruct Hin|].
  destruct Hin as [->|Hin]; simpl; [lia|]. specialize (IH Hin). lia.
Qed.

Lemma largest_count_attained (counts : histogram) :
  Forall (fun e => 0 <= snd e) counts -> counts <> [] ->
  exists e, In e counts /\ snd e = largest_count counts.
Proof.
  induction 1 as [|e l He Hl IH]; intros Hne; [congruence|].
  destruct l as [|e' l'].
  - exists e. split; [now left|]. simpl. lia.
  - destruct (IH ltac:(discriminate)) as [x [Hin Hx]].
    destruct (Z.le_gt_cases (snd e) (largest_count (e' :: l'))).
    + exists x. split; [now right|].
      change (largest_count (e :: e' :: l'))
        with (Z.max (snd e) (largest_count (e' :: l'))). lia.
    + exists e. split; [now left|].
      change (largest_count (e :: e' :: l'))
        with (Z.max (snd e) (largest_count (e' :: l'))). lia.
Qed.

Lemma largest_count_le_sum (counts : histogram) :
  Forall (fun e => 0 <= snd e) counts -> largest_count counts <= sum_counts counts.
Proof.
  induction 1 as [|e l He Hl IH]; simpl; [lia|].
  pose proof (sum_counts_nonneg l Hl). lia.
Qed.

(** The accumulation loop, for non-negative counts whose running total stays
    an [int]. *)
Lemma tally_loop_spec (counts : histogram) (acc : tally) :
  Forall (fun e => 0 <= snd e) counts ->
  0 <= total_match_shots acc ->
  0 <= max_count acc ->
  total_match_shots acc + sum_counts counts <= INT_MAX ->
  exists acc',
    tally_loop counts acc = Ret acc' /\
    total_match_shots acc' = total_match_shots acc + sum_counts counts /\
    max_count acc' = Z.max (max_count acc) (largest_count counts).
Proof.
  intros Hnn. revert acc.
  induction Hnn as [|[state count] rest Hc Hrest IH]; intros acc Hacc Hmax Hsum.
  - exists acc. cbn [tally_loop sum_counts largest_count fold_right].
    repeat split; lia.
  - cbn [snd] in Hc. pose proof (sum_counts_nonneg rest Hrest) as Hr.
    change (sum_counts ((state, count) :: rest)) with (count + sum_counts rest) in *.
    change (largest_count ((state, count) :: rest))
      with (Z.max count (largest_count rest)).
    cbn [tally_loop]. unfold add_int.
    unfold INT_MIN, INT_MAX in *.
    destruct (Z.leb_spec (- 2 ^ 31) (total_match_shots acc + count)); [|lia].
    destruct (Z.leb_spec (total_match_shots acc + count) (2 ^ 31 - 1)); [|lia].
    destruct (Z.ltb_spec (max_count acc) count);
      cbn [andb bind];
      match goal with
      | |- context [tally_loop rest ?a] =>
          destruct (IH a) as [acc' [Hrun [Ht Hm]]];
          [cbn [total_match_shots]; lia | cbn [max_count]; lia
          | cbn [total_match_shots]; lia |];
          cbn [total_match_shots max_count] in Ht, Hm;
          exists acc'; split; [exact Hrun|]; split; lia
      end.
Qed.

Lemma count_labels (counts : histogram) :
  well_formed counts ->
  List.length (nodup string_dec (map fst counts)) = List.length counts.
Proof.
  unfold well_formed. intros Hnd. rewrite nodup_fixed_point by assumption.
  apply length_map.
Qed.

Section StatisticsProperties.

Variable log2 : Double.double -> Double.double.

Lemma analyze_returns (counts : histogram) (expected_matches : list Z)
  (total_shots : Z) :
  Forall (fun e => 0 <= snd e) counts ->
  sum_counts counts <= INT_MAX ->
  analyze_measurement_statistics log2 counts expected_matches total_shots
  = Ret {| success_probability :=
             Double.div (Double.of_Z (sum_counts counts)) (Double.of_Z total_shots);
           max_amplitude :=
             Double.div (Double.of_Z (largest_count counts)) (Double.of_Z total_shots);
           entropy := calculate_shannon_entropy log2 counts total_shots;
           num_unique_states := Double.of_Z (Z.of_nat (List.length counts)) |}.
Proof.
  intros Hnn Hsum. unfold analyze_measurement_statistics.
  destruct (tally_loop_spec counts
              {| total_match_shots := 0; max_count := 0;
                 most_frequent_state := EmptyString |} Hnn)
    as [acc [Hrun [Ht Hm]]].
  { cbn [total_match_shots]. lia. }
  { cbn [max_count]. lia. }
  { cbn [total_match_shots]. lia. }
  rewrite Hrun. cbn [bind total_match_shots max_count] in *.
  rewrite Ht, Hm.
  pose proof (largest_count_nonneg counts).
  now rewrite Z.add_0_l, Z.max_r by assumption.
Qed.

End StatisticsProperties.

(** C5 (amended): for a histogram of non-negative counts whose sum is an
    [int] and [0 < total_shots], whatever [expected_matches] is,
    [analyze_measurement_statistics] returns a report in which
    [success_probability] is the sum of all counts divided by [total_shots],
    [max_amplitude] is the largest count divided by [total_shots] and
    [num_unique_states] is the number of distinct labels; for the empty
    histogram the four metrics are 0. *)
Theorem analyze_measurement_statistics_spec
  (log2 : Double.double -> Double.double) (counts : histogram)
  (expected_matches : list Z) (total_shots : Z) :
  0 < total_shots <= INT_MAX ->
  well_formed counts ->
  Forall (fun e => 0 <= snd e) counts ->
  sum_counts counts <= INT_MAX ->
  exists r,
    analyze_measurement_statistics log2 counts expected_matches total_shots = Ret r /\
    success_probability r
    = Double.div (Double.of_Z (sum_counts counts)) (Double.of_Z total_shots) /\
    max_amplitude r
    = Double.div (Double.of_Z (largest_count counts)) (Double.of_Z total_shots) /\
    (forall e, In e counts -> snd e <= largest_count counts) /\
    (counts <> [] -> exists e, In e counts /\ snd e = largest_count counts) /\
    num_unique_states r
    = Double.of_Z (Z.of_nat (List.length (nodup string_dec (map fst counts)))) /\
    (counts = [] ->
     success_probability r = Double.zero /\ max_amplitude r = Double.zero /\
     entropy r = Double.zero /\ num_unique_states r = Double.zero).
Proof.
  intros Hshots Hwf Hnn Hsum. eexists.
  split; [now apply analyze_returns|].
  cbn [success_probability max_amplitude entropy num_unique_states].
  split; [reflexivity|]. split; [reflexivity|].
  split; [intros e; apply largest_count_upper|].
  split; [now apply largest_count_attained|].
  split; [now rewrite count_labels|].
  intros ->. cbn [sum_counts largest_count fold_right List.length Z.of_nat].
  rewrite div_zero_by_positive by assumption.
  repeat split.
Qed.

Lemma analyze_measurement_statistics_spec_witness :
  exists r,
    analyze_measurement_statistics (fun x => x)
      [("000"%string, 40); ("111"%string, 60)] [0; 7] 100 = Ret r /\
    success_probability r
    = Double.div
        (Double.of_Z (sum_counts [("000"%string, 40); ("111"%string, 60)]))
        (Double.of_Z 100) /\
    max_amplitude r
    = Double.div
        (Double.of_Z (largest_count [("000"%string, 40); ("111"%string, 60)]))
        (Double.of_Z 100) /\
    (forall e, In e [("000"%string, 40); ("111"%string, 60)] ->
               snd e <= largest_count [("000"%string, 40); ("111"%string, 60)]) /\
    ([("000"%string, 40); ("111"%string, 60)] <> [] ->
     exists e, In e [("000"%string, 40); ("111"%string, 60)] /\
               snd e = largest_count [("000"%string, 40); ("111"%string, 60)]) /\
    num_unique_states r
    = Double.of_Z
        (Z.of_nat
           (List.length
              (nodup string_dec (map fst [("000"%string, 40); ("111"%string, 60)])))) /\
    ([("000"%string, 40); ("111"%string, 60)] = [] ->
     success_probability r = Double.zero /\ max_amplitude r = Double.zero /\
     entropy r = Double.zero /\ num_unique_states r = Double.zero).
Proof.
  apply (analyze_measurement_statistics_spec (fun x => x)
           [("000"%string, 40); ("111"%string, 60)] [0; 7] 100).
  - unfold INT_MAX. lia.
  - unfold well_formed. simpl. repeat constructor; simpl; intuition discriminate.
  - repeat constructor; simpl; lia.
  - unfold INT_MAX. simpl. lia.
Defined.

(** C5 as stated fails outside these bounds: when the counts sum to more
    than [INT_MAX] the accumulation [total_match_shots += count] overflows,
    and when every count is negative [max_count] stays at its initial 0
    instead of the largest count. *)
Lemma analyze_measurement_statistics_out_of_range :
  (forall log2 expected_matches,
     analyze_measurement_statistics log2
       [("a"%string, 2147483647); ("b"%string, 1)] expected_matches 1
     = Undefined SignedOverflow) /\
  (exists r,
     (forall log2 expected_matches,
        analyze_measurement_statistics log2 [("a"%string, -5)] expected_matches 10
        = Ret r) /\
     max_amplitude r = Double.zero /\
     Double.div (Double.of_Z (-5)) (Double.of_Z 10)
     = S754_finite true 4503599627370496 (-53)).
Proof.
  split; [intros; reflexivity|].
  exists {| success_probability := S754_finite true 4503599627370496 (-53);
            max_amplitude := Double.zero;
            entropy := Double.zero;
            num_unique_states := S754_finite false 4503599627370496 (-52) |}.
  split; [intros; reflexivity|]. repeat split.
Qed.

(** C4 (amended): with [total_shots = 0] nothing is checked and no error is
    raised: for a histogram of non-negative counts whose sum is an [int] the
    call returns a report, in which [success_probability] and
    [max_amplitude] are the results of the divisions by zero, NaN for [0/0]
    and [+Inf] for a positive count. *)
Theorem zero_shots_not_rejected
  (log2 : Double.double -> Double.double) (counts : histogram)
  (expected_matches : list Z) :
  Forall (fun e => 0 <= snd e) counts ->
  sum_counts counts <= INT_MAX ->
  exists r,
    analyze_measurement_statistics log2 counts expected_matches 0 = Ret r /\
    success_probability r
    = (if sum_counts counts =? 0 then S754_nan else S754_infinity false) /\
    max_amplitude r
    = (if largest_count counts =? 0 then S754_nan else S754_infinity false) /\
    nan_or_infinite (success_probability r) = true /\
    nan_or_infinite (max_amplitude r) = true.
Proof.
  intros Hnn Hsum. eexists.
  split; [now apply analyze_returns|].
  cbn [success_probability max_amplitude].
  pose proof (sum_counts_nonneg counts Hnn).
  pose proof (largest_count_nonneg counts).
  pose proof (largest_count_le_sum counts Hnn).
  rewrite !div_by_zero by lia.
  repeat split;
    try (now destruct (sum_counts counts =? 0));
    now destruct (largest_count counts =? 0).
Qed.

Lemma zero_shots_not_rejected_witness :
  exists r,
    analyze_measurement_statistics (fun x => x) [("0"%string, 3)] [] 0 = Ret r /\
    success_probability r
    = (if sum_counts [("0"%string, 3)] =? 0 then S754_nan else S754_infinity false) /\
    max_amplitude r
    = (if largest_count [("0"%string, 3)] =? 0 then S754_nan else S754_infinity false) /\
    nan_or_infinite (success_probability r) = true /\
    nan_or_infinite (max_amplitude r) = true.
Proof.
  apply (zero_shots_not_rejected (fun x => x) [("0"%string, 3)] []).
  - repeat constructor; simpl; lia.
  - unfold INT_MAX. simpl. lia.
Defined.

(** C4 as stated fails: on the empty histogram with [total_shots = 0] the
    call returns a report, whose [success_probability] is NaN; no
    [InvalidArgument] is raised. *)
Lemma zero_shots_returns_nan :
  exists r,
    (forall log2 expected_matches,
       analyze_measurement_statistics log2 [] expected_matches 0 = Ret r) /\
    success_probability r = S754_nan /\
    max_amplitude r = S754_nan.
Proof.
  exists {| success_probability := S754_nan; max_amplitude := S754_nan;
            entropy := Double.zero; num_unique_states := Double.zero |}.
  split; [intros; reflexivity|]. split; reflexivity.
Qed.

(** ** Binary64 rounding: magnitude bounds *)

Lemma digits2_pos_upper (p : positive) :
  Z.pos p < 2 ^ Z.pos (digits2_pos p).
Proof.
  induction p as [p IH|p IH|]; cbn [digits2_pos].
  - rewrite Pos2Z.inj_succ, Z.pow_succ_r by lia. lia.
  - rewrite Pos2Z.inj_succ, Z.pow_succ_r by lia. lia.
  - simpl. lia.
Qed.

Lemma Zdigits2_nonneg (z : Z) : 0 <= z -> 0 <= Zdigits2 z.
Proof. destruct z; simpl; lia. Qed.

Lemma Zdigits2_upper (z : Z) : 0 <= z -> z < 2 ^ Zdigits2 z.
Proof.
  destruct z as [|p|p]; intros Hz; try lia.
  - simpl. lia.
  - apply digits2_pos_upper.
Qed.

Lemma Zdigits2_lower (z : Z) : 0 < z -> 2 ^ (Zdigits2 z - 1) <= z.
Proof.
  destruct z as [|p|p]; intros Hz; try lia. apply digits2_pos_lower.
Qed.

(** A non-negative number below [2^D] has at most [D] binary digits. *)
Lemma Zdigits2_le (z D : Z) : 0 <= z < 2 ^ D -> 0 <= D -> Zdigits2 z <= D.
Proof.
  intros [Hz Hlt] HD.
  destruct (Z.eq_dec z 0) as [->|Hnz]; [simpl; lia|].
  pose proof (Zdigits2_lower z ltac:(lia)) as Hlow.
  pose proof (Zdigits2_nonneg z Hz).
  destruct (Z.le_gt_cases (Zdigits2 z) D) as [|Hgt]; [assumption|exfalso].
  assert (2 ^ D <= 2 ^ (Zdigits2 z - 1)) by (apply Z.pow_le_mono_r; lia).
  lia.
Qed.

Lemma Zdigits2_div_pow2 (z n : Z) :
  0 <= z -> 0 <= n -> Zdigits2 (z / 2 ^ n) <= Z.max 0 (Zdigits2 z - n).
Proof.
  intros Hz Hn.
  pose proof (Zdigits2_upper z Hz) as Hup.
  pose proof (Zdigits2_nonneg z Hz) as Hd.
  assert (Hpow : 0 < 2 ^ n) by (apply Z.pow_pos_nonneg; lia).
  assert (Hq : 0 <= z / 2 ^ n) by (apply Z.div_pos; lia).
  apply Zdigits2_le; [split; [assumption|] | lia].
  apply Z.div_lt_upper_bound; [assumption|].
  rewrite <- Z.pow_add_r by lia.
  eapply Z.lt_le_trans; [exact Hup|].
  apply Z.pow_le_mono_r; lia.
Qed.

Lemma Zdigits2_succ (z : Z) : 0 <= z -> Zdigits2 (z + 1) <= Zdigits2 z + 1.
Proof.
  intros Hz. pose proof (Zdigits2_upper z Hz). pose proof (Zdigits2_nonneg z Hz).
  apply Zdigits2_le; [|lia].
  rewrite Z.pow_add_r by lia. change (2 ^ 1) with 2. lia.
Qed.

Lemma Zdigits2_mul (x y : Z) :
  0 <= x -> 0 <= y -> Zdigits2 (x * y) <= Zdigits2 x + Zdigits2 y.
Proof.
  intros Hx Hy.
  pose proof (Zdigits2_upper x Hx). pose proof (Zdigits2_upper y Hy).
  pose proof (Zdigits2_nonneg x Hx). pose proof (Zdigits2_nonneg y Hy).
  apply Zdigits2_le; [|lia].
  rewrite Z.pow_add_r by lia. nia.
Qed.

Lemma shr_1_mantissa (mrs : shr_record) :
  0 <= shr_m mrs -> shr_m (shr_1 mrs) = shr_m mrs / 2.
Proof.
  destruct mrs as [m r s]. cbn [shr_m]. intros Hm. unfold shr_1.
  destruct m as [|[p|p|]|p]; cbn [shr_m]; try lia; try reflexivity.
  - apply Z.div_unique with (r := 1); lia.
  - apply Z.div_unique with (r := 0); lia.
Qed.

Lemma pow2_pos (n : Z) : 0 <= n -> 0 < 2 ^ n.
Proof. intros. apply Z.pow_pos_nonneg; lia. Qed.

Lemma div_pow2_twice (z a b : Z) :
  0 <= a -> 0 <= b -> z / 2 ^ a / 2 ^ b = z / 2 ^ (a + b).
Proof.
  intros Ha Hb. pose proof (pow2_pos a Ha). pose proof (pow2_pos b Hb).
  rewrite Z.pow_add_r by assumption.
  rewrite Z.div_div; [reflexivity | lia | lia].
Qed.

Lemma iter_shr_1_mantissa (p : positive) (mrs : shr_record) :
  0 <= shr_m mrs ->
  shr_m (iter_pos shr_1 p mrs) = shr_m mrs / 2 ^ Z.pos p.
Proof.
  revert mrs. induction p as [p IH|p IH|]; intros mrs Hm; cbn [iter_pos].
  - assert (H1 : 0 <= shr_m (shr_1 mrs))
      by (rewrite shr_1_mantissa by assumption; apply Z.div_pos; lia).
    assert (H2 : 0 <= shr_m (iter_pos shr_1 p (shr_1 mrs)))
      by (rewrite IH by assumption; apply Z.div_pos; [lia | apply pow2_pos; lia]).
    rewrite IH, IH, shr_1_mantissa by assumption.
    change 2 with (2 ^ 1) at 1.
    rewrite !div_pow2_twice by lia.
    f_equal. f_equal. lia.
  - assert (H2 : 0 <= shr_m (iter_pos shr_1 p mrs))
      by (rewrite IH by assumption; apply Z.div_pos; [lia | apply pow2_pos; lia]).
    rewrite IH, IH by assumption.
    rewrite div_pow2_twice by lia.
    f_equal. f_equal. lia.
  - rewrite shr_1_mantissa by assumption. reflexivity.
Qed.

Lemma shr_record_of_loc_mantissa (m : Z) (l : location) :
  shr_m (shr_record_of_loc m l) = m.
Proof. destruct l as [|[| |]]; reflexivity. Qed.

(** The shift that brings a mantissa to its canonical exponent. *)
Lemma shr_fexp_spec (m e : Z) (l : location) :
  0 <= m ->
  exists mrs e',
    shr_fexp Double.prec Double.emax m e l = (mrs, e') /\
    e' = Z.max e (fexp Double.prec Double.emax (Zdigits2 m + e)) /\
    shr_m mrs = m / 2 ^ (e' - e).
Proof.
  intros Hm. unfold shr_fexp, shr.
  destruct (fexp Double.prec Double.emax (Zdigits2 m + e) - e) as [|p|p] eqn:Hn.
  - eexists _, _. split; [reflexivity|]. split; [lia|].
    rewrite shr_record_of_loc_mantissa, Z.sub_diag.
    now rewrite Z.pow_0_r, Z.div_1_r.
  - eexists _, _. split; [reflexivity|]. split; [lia|].
    rewrite iter_shr_1_mantissa by now rewrite shr_record_of_loc_mantissa.
    rewrite shr_record_of_loc_mantissa. do 2 f_equal. lia.
  - eexists _, _. split; [reflexivity|]. split; [lia|].
    rewrite shr_record_of_loc_mantissa, Z.sub_diag.
    now rewrite Z.pow_0_r, Z.div_1_r.
Qed.

Lemma round_nearest_even_bounds (m : Z) (l : location) :
  0 <= m -> m <= round_nearest_even m l <= m + 1.
Proof.
  intros Hm. destruct l as [|[| |]]; cbn [round_nearest_even]; try lia.
  destruct (Z.even m); lia.
Qed.

Lemma Zdigits2_mono (x y : Z) : 0 <= x <= y -> Zdigits2 x <= Zdigits2 y.
Proof.
  intros [Hx Hxy].
  pose proof (Zdigits2_upper y ltac:(lia)). pose proof (Zdigits2_nonneg y ltac:(lia)).
  apply Zdigits2_le; lia.
Qed.

Lemma fexp_double (k : Z) :
  fexp Double.prec Double.emax k = Z.max (k - 53) (-1074).
Proof. reflexivity. Qed.

(** Rounding a non-negative mantissa keeps the magnitude: the result is
    [+0] or a positive finite double with at most one binary digit more
    before the point. *)
Lemma binary_round_aux_below (m e : Z) (l : location) (E : Z) :
  0 <= m -> e <= 971 -> Zdigits2 m + e + 1 <= E -> -1073 <= E <= 1024 ->
  below E (binary_round_aux Double.prec Double.emax false m e l).
Proof.
  intros Hm He HE Hrange. unfold binary_round_aux.
  destruct (shr_fexp_spec m e l Hm) as [mrs1 [e1 [-> [He1 Hm1]]]].
  pose proof (Zdigits2_nonneg m Hm) as Hd.
  assert (Hm1pos : 0 <= shr_m mrs1)
    by (rewrite Hm1; apply Z.div_pos; [lia | apply pow2_pos; lia]).
  pose proof (round_nearest_even_bounds (shr_m mrs1) (loc_of_shr_record mrs1) Hm1pos)
    as Hround.
  set (m2 := round_nearest_even (shr_m mrs1) (loc_of_shr_record mrs1)) in *.
  assert (Hd1 : Zdigits2 (shr_m mrs1) <= Z.max 0 (Zdigits2 m - (e1 - e)))
    by (rewrite Hm1; apply Zdigits2_div_pow2; lia).
  assert (Hd2 : Zdigits2 m2 <= Zdigits2 (shr_m mrs1) + 1).
  { eapply Z.le_trans; [apply (Zdigits2_mono m2 (shr_m mrs1 + 1)); lia|].
    now apply Zdigits2_succ. }
  destruct (shr_fexp_spec m2 e1 loc_Exact ltac:(lia)) as [mrs2 [e2 [-> [He2 Hm2]]]].
  rewrite fexp_double in He1, He2.
  pose proof (Zdigits2_nonneg m2 ltac:(lia)) as Hd2pos.
  destruct (shr_m mrs2) as [|p|p] eqn:Hp.
  - now left.
  - assert (Hd3 : Zdigits2 (Z.pos p) <= Z.max 0 (Zdigits2 m2 - (e2 - e1)))
      by (rewrite Hm2; apply Zdigits2_div_pow2; lia).
    cbn [Zdigits2] in Hd3.
    unfold Double.prec, Double.emax.
    destruct (Z.leb_spec e2 (1024 - 53)); [|lia].
    right. exists p, e2. split; [reflexivity | lia].
  - exfalso.
    assert (0 <= m2 / 2 ^ (e2 - e1))
      by (apply Z.div_pos; [lia | apply pow2_pos; lia]).
    lia.
Qed.

Lemma below_mono (E E' : Z) (x : Double.double) :
  E <= E' -> below E x -> below E' x.
Proof.
  intros HE [->|[m [e [-> Hme]]]]; [now left|].
  right. exists m, e. split; [reflexivity | lia].
Qed.

Lemma iter_xO_value (p k : positive) :
  Z.pos (Pos.iter xO p k) = Z.pos p * 2 ^ Z.pos k.
Proof.
  induction k as [|k IH] using Pos.peano_ind.
  - cbn [Pos.iter]. rewrite Pos2Z.inj_xO. change (2 ^ 1) with 2. lia.
  - rewrite Pos.iter_succ, Pos2Z.inj_xO, IH, Pos2Z.inj_succ.
    rewrite Z.pow_succ_r by lia. lia.
Qed.

(** The double of a positive [int] [z]: a mantissa of 53 digits, equal to
    [z] scaled by the power of two of the exponent. *)
Lemma of_Z_int (z : Z) :
  0 < z <= INT_MAX ->
  exists m k,
    Double.of_Z z = S754_finite false m (Z.neg k) /\
    digits2_pos m = 53%positive /\
    22 <= Z.pos k <= 52 /\
    Z.pos m = z * 2 ^ Z.pos k.
Proof.
  intros Hz. destruct z as [|p|p]; try lia.
  pose proof (digits2_pos_int p ltac:(lia)) as Hd.
  unfold Double.of_Z. cbn [binary_normalize]. unfold binary_round, shl_align.
  assert (Hfexp : fexp Double.prec Double.emax (Z.pos (digits2_pos p) + 0)
                  = Z.pos (digits2_pos p) - 53).
  { unfold fexp, emin, Double.prec, Double.emax. lia. }
  rewrite Hfexp, Z.sub_0_r.
  destruct (Z.pos (digits2_pos p) - 53) as [|k|k] eqn:Hk; try lia.
  exists (Pos.iter xO p k), k.
  split; [|split; [|split]].
  - apply binary_round_aux_canonical; [rewrite digits2_pos_shift|]; lia.
  - rewrite digits2_pos_shift. lia.
  - lia.
  - apply iter_xO_value.
Qed.

(** The quotient of two positive [int]s is below [2^32]. *)
Lemma div_int_below (a b : Z) :
  0 < a <= INT_MAX -> 0 < b <= INT_MAX ->
  below 32 (Double.div (Double.of_Z a) (Double.of_Z b)).
Proof.
  intros Ha Hb.
  destruct (of_Z_int a Ha) as [ma [ka [-> [Hda [Hka _]]]]].
  destruct (of_Z_int b Hb) as [mb [kb [-> [Hdb [Hkb _]]]]].
  unfold Double.div, SFdiv, SFdiv_core_binary. cbn [Zdigits2 xorb].
  rewrite Hda, Hdb, fexp_double.
  replace (Z.min (Z.max (Z.pos 53 + Z.neg ka - (Z.pos 53 + Z.neg kb) - 53) (-1074))
                 (Z.neg ka - Z.neg kb))
    with (Z.neg ka - Z.neg kb - 53) by lia.
  replace (Z.neg ka - Z.neg kb - (Z.neg ka - Z.neg kb - 53)) with 53 by lia.
  rewrite Z.shiftl_mul_pow2 by lia.
  pose proof (Z_div_mod (Z.pos ma * 2 ^ 53) (Z.pos mb) ltac:(lia)) as Hdiv.
  destruct (Z.div_eucl (Z.pos ma * 2 ^ 53) (Z.pos mb)) as [q r].
  destruct Hdiv as [Hqr Hr].
  pose proof (digits2_pos_upper ma) as Hma. rewrite Hda in Hma.
  pose proof (digits2_pos_lower mb) as Hmb. rewrite Hdb in Hmb.
  change (Z.pos 53 - 1) with 52 in Hmb.
  assert (Hq0 : 0 <= q) by nia.
  assert (Hq : q < 2 ^ 54).
  { assert (q * 2 ^ 52 <= q * Z.pos mb) by nia.
    assert (q * Z.pos mb < 2 ^ 53 * 2 ^ 53) by nia.
    change (2 ^ 54) with (2 ^ 2 * 2 ^ 52).
    change (2 ^ 53 * 2 ^ 53) with (2 ^ 2 * 2 ^ 52 * 2 ^ 52) in *. nia. }
  apply binary_round_aux_below; try lia.
  pose proof (Zdigits2_le q 54 ltac:(lia) ltac:(lia)). lia.
Qed.

Lemma sqrt_digits (n k : Z) :
  0 <= k -> 0 <= n < 2 ^ (2 * k) -> Zdigits2 (Z.sqrt n) <= k.
Proof.
  intros Hk [Hn Hlt].
  pose proof (Z.sqrt_nonneg n) as Hq.
  pose proof (Z.sqrt_spec n Hn) as [Hsq _].
  apply Zdigits2_le; [split; [assumption|] | assumption].
  destruct (Z.lt_ge_cases (Z.sqrt n) (2 ^ k)) as [|Hge]; [assumption|exfalso].
  assert (2 ^ k * 2 ^ k <= Z.sqrt n * Z.sqrt n) by nia.
  rewrite <- Z.pow_add_r in H by lia.
  replace (k + k) with (2 * k) in H by lia. lia.
Qed.

(** Linear arithmetic with quotients by constants. *)
Ltac lia_div := Z.div_mod_to_equations; lia.

(** The square root of a double below [2^E] is below [2^((E+1)/2 + 1)]. *)
Lemma sqrt_below (E E' : Z) (x : Double.double) :
  -1000 <= E <= 1000 -> (E + 1) / 2 + 1 <= E' <= 1024 ->
  below E x -> below E' (Double.sqrt x).
Proof.
  intros HE HE' [->|[m [e [-> Hme]]]]; [now left|].
  unfold Double.sqrt, SFsqrt, SFsqrt_core_binary. cbn [Zdigits2].
  pose proof (digits2_pos_upper m) as Hm.
  set (d := Z.pos (digits2_pos m)) in *.
  assert (Hd : 1 <= d) by (unfold d; lia).
  clearbody d.
  rewrite fexp_double, !Z.div2_div.
  set (e' := Z.min (Z.max ((d + e + 1) / 2 - 53) (-1074)) (e / 2)).
  assert (He' : 2 * e' <= e) by (unfold e'; lia_div).
  clearbody e'.
  assert (Hbound : forall m', 0 <= m' < 2 ^ (d + (e - 2 * e')) ->
            below E'
              (let '(mz, ez, lz) :=
                 let (q, r) := Z.sqrtrem m' in
                 (q, e',
                  if r =? 0 then loc_Exact
                  else loc_Inexact (if r <=? q then Lt else Gt)) in
               binary_round_aux Double.prec Double.emax false mz ez lz)).
  { intros m' [Hm0 Hm'].
    pose proof (Z.sqrtrem_sqrt m') as Hfst.
    destruct (Z.sqrtrem m') as [q r]. cbn [fst] in Hfst. subst q.
    assert (Hdq : Zdigits2 (Z.sqrt m') <= (d + (e - 2 * e') + 1) / 2).
    { apply sqrt_digits; [lia_div|]. split; [assumption|].
      eapply Z.lt_le_trans; [exact Hm'|].
      apply Z.pow_le_mono_r; lia_div. }
    apply binary_round_aux_below.
    - apply Z.sqrt_nonneg.
    - lia.
    - clear Hm Hm'. lia_div.
    - clear Hm Hm'. lia_div. }
  destruct (e - 2 * e') as [|s|s] eqn:Hs; try lia.
  - apply Hbound. rewrite Z.add_0_r. lia.
  - rewrite Z.shiftl_mul_pow2 by lia. apply Hbound.
    rewrite Z.pow_add_r by lia.
    assert (0 < 2 ^ Z.pos s) by (apply pow2_pos; lia). nia.
Qed.

(** Multiplying by a constant below 1 raises the bound by at most one
    binary digit. *)
Lemma mul_below (E : Z) (mc : positive) (x : Double.double) :
  digits2_pos mc = 53%positive -> -1000 <= E <= 1000 ->
  below E x ->
  below (E + 1) (Double.mul (S754_finite false mc (-53)) x).
Proof.
  intros Hmc HE [->|[m [e [-> Hme]]]]; [now left|].
  unfold Double.mul, SFmul. cbn [xorb].
  apply binary_round_aux_below; try lia.
  rewrite Pos2Z.inj_mul.
  pose proof (Zdigits2_mul (Z.pos mc) (Z.pos m) ltac:(lia) ltac:(lia)) as Hmul.
  cbn [Zdigits2] in Hmul. rewrite Hmc in Hmul. lia.
Qed.

Lemma Zdigits2_eq (z D : Z) : 0 < D -> 2 ^ (D - 1) <= z < 2 ^ D -> Zdigits2 z = D.
Proof.
  intros HD [Hlo Hhi].
  assert (Hz : 0 < z) by (pose proof (pow2_pos (D - 1) ltac:(lia)); lia).
  pose proof (Zdigits2_le z D ltac:(lia) ltac:(lia)) as Hle.
  pose proof (Zdigits2_upper z ltac:(lia)) as Hup.
  pose proof (Zdigits2_nonneg z ltac:(lia)) as Hnn.
  destruct (Z.lt_ge_cases (Zdigits2 z) D) as [Hlt|]; [exfalso | lia].
  assert (2 ^ Zdigits2 z <= 2 ^ (D - 1)) by (apply Z.pow_le_mono_r; lia).
  lia.
Qed.

(** Rounding a mantissa of at least 53 digits: the result is a normal
    double whose neighbours enclose the interval [[m, m + 1]] of the exact
    value. *)
Lemma binary_round_aux_enclosure (m e : Z) (l : location) :
  2 ^ 52 <= m -> -1074 <= e -> Zdigits2 m + e <= 1023 ->
  exists p e2,
    binary_round_aux Double.prec Double.emax false m e l = S754_finite false p e2 /\
    e <= e2 <= Zdigits2 m + e - 52 /\ 2 ^ 52 <= Z.pos p < 2 ^ 53 /\
    (Z.pos p - 1) * 2 ^ (e2 - e) <= m /\
    m + 1 <= (Z.pos p + 1) * 2 ^ (e2 - e).
Proof.
  intros Hm He Hov. unfold binary_round_aux.
  assert (Hm0 : 0 <= m) by lia.
  destruct (shr_fexp_spec m e l Hm0) as [mrs1 [e1 [-> [He1 Hm1]]]].
  pose proof (Zdigits2_upper m Hm0) as Hup.
  pose proof (Zdigits2_lower m ltac:(lia)) as Hlow.
  set (d := Zdigits2 m) in *.
  assert (Hd : 53 <= d).
  { destruct (Z.lt_ge_cases d 53) as [Hlt|]; [exfalso | assumption].
    assert (2 ^ d <= 2 ^ 52) by (apply Z.pow_le_mono_r; lia). lia. }
  rewrite fexp_double in He1.
  assert (He1' : e1 = e + (d - 53)) by lia. clear He1.
  replace (e1 - e) with (d - 53) in Hm1 by lia.
  remember (d - 53) as k eqn:Hk.
  assert (Hk0 : 0 <= k) by lia.
  replace (2 ^ d) with (2 ^ 53 * 2 ^ k) in Hup
    by (rewrite <- Z.pow_add_r by lia; f_equal; lia).
  replace (2 ^ (d - 1)) with (2 ^ 52 * 2 ^ k) in Hlow
    by (rewrite <- Z.pow_add_r by lia; f_equal; lia).
  pose proof (pow2_pos k Hk0) as HP.
  pose proof (Z.div_mod m (2 ^ k) ltac:(lia)) as Hdm.
  pose proof (Z.mod_pos_bound m (2 ^ k) HP) as Hmod.
  remember (m / 2 ^ k) as m1 eqn:Hm1def.
  remember (m mod 2 ^ k) as r eqn:Hrdef.
  remember (2 ^ k) as P eqn:HPdef.
  change (2 ^ 52) with 4503599627370496 in *.
  change (2 ^ 53) with 9007199254740992 in *.
  assert (Hfloor : P * m1 <= m /\ m + 1 <= P * m1 + P) by lia.
  assert (Hm1r : 4503599627370496 <= m1 < 9007199254740992).
  { clear - Hup Hlow HP Hfloor. split.
    - destruct (Z.lt_ge_cases m1 4503599627370496) as [Hlt|]; [exfalso | lia].
      assert (P * m1 <= P * 4503599627370495) by (apply Z.mul_le_mono_nonneg_l; lia).
      lia.
    - destruct (Z.lt_ge_cases m1 9007199254740992) as [|Hge]; [lia | exfalso].
      assert (P * 9007199254740992 <= P * m1) by (apply Z.mul_le_mono_nonneg_l; lia).
      lia. }
  pose proof (round_nearest_even_bounds (shr_m mrs1) (loc_of_shr_record mrs1)
                ltac:(lia)) as Hround.
  remember (round_nearest_even (shr_m mrs1) (loc_of_shr_record mrs1)) as m2 eqn:Hm2def.
  rewrite Hm1 in Hround. clear Hm2def Hm1 mrs1.
  destruct (shr_fexp_spec m2 e1 loc_Exact ltac:(lia)) as [mrs2 [e2 [-> [He2 Hm2]]]].
  rewrite fexp_double in He2.
  unfold Double.prec, Double.emax.
  destruct (Z.eq_dec m2 9007199254740992) as [Hcarry|Hno].
  - rewrite Hcarry in He2, Hm2.
    change (Zdigits2 9007199254740992) with 54 in He2.
    assert (He2' : e2 = e1 + 1) by lia.
    replace (e2 - e1) with 1 in Hm2 by lia.
    change (9007199254740992 / 2 ^ 1) with (Z.pos 4503599627370496) in Hm2.
    rewrite Hm2.
    destruct (Z.leb_spec e2 (1024 - 53)); [|lia].
    exists 4503599627370496%positive, e2.
    split; [reflexivity|]. split; [lia|]. split; [lia|].
    replace (e2 - e) with (k + 1) by lia.
    rewrite Z.pow_add_r, <- HPdef by lia. change (2 ^ 1) with 2.
    assert (Hmono : P * 9007199254740991 <= P * m1)
      by (apply Z.mul_le_mono_nonneg_l; lia).
    assert (Hmono' : P * m1 <= P * 9007199254740991)
      by (apply Z.mul_le_mono_nonneg_l; lia).
    clear - Hmono Hmono' Hfloor HP. lia.
  - assert (Hd2 : Zdigits2 m2 = 53)
      by (apply Zdigits2_eq; [lia|];
          change (2 ^ (53 - 1)) with 4503599627370496;
          change (2 ^ 53) with 9007199254740992; lia).
    rewrite Hd2 in He2.
    assert (He2' : e2 = e1) by lia.
    replace (e2 - e1) with 0 in Hm2 by lia.
    rewrite Z.pow_0_r, Z.div_1_r in Hm2. rewrite Hm2.
    destruct m2 as [|p|p]; try lia.
    destruct (Z.leb_spec e2 (1024 - 53)); [|lia].
    exists p, e2.
    split; [reflexivity|]. split; [lia|]. split; [lia|].
    replace (e2 - e) with k by lia. rewrite <- HPdef.
    assert (Hlo : (Z.pos p - 1) * P <= m1 * P)
      by (apply Z.mul_le_mono_nonneg_r; lia).
    assert (Hhi : (m1 + 1) * P <= (Z.pos p + 1) * P)
      by (apply Z.mul_le_mono_nonneg_r; lia).
    clear - Hlo Hhi Hfloor HP. lia.
Qed.

(** ** Iteration calculator *)

(** Below [2^31] the floor is an [int], and converting the floored double
    gives it back. *)
Lemma floor_to_int (x : Double.double) :
  below 31 x ->
  exists z,
    Double.floor_Z x = Some z /\ 0 <= z <= INT_MAX /\
    Double.to_int (Double.floor x) = Ret z.
Proof.
  intros [->|[m [e [-> Hme]]]].
  - exists 0. unfold INT_MAX. repeat split; lia.
  - pose proof (digits2_pos_upper m) as Hm.
    set (d := Z.pos (digits2_pos m)) in *.
    assert (Hd : 1 <= d) by (unfold d; lia). clearbody d.
    assert (Hm31 : Z.pos m < 2 ^ (31 - e)).
    { eapply Z.lt_le_trans; [exact Hm|]. apply Z.pow_le_mono_r; lia. }
    cbn [Double.floor_Z Double.floor].
    set (z := if 0 <=? e then Z.pos m * 2 ^ e else Z.pos m / 2 ^ (- e)).
    assert (Hz : 0 <= z < 2 ^ 31).
    { unfold z. destruct (Z.leb_spec 0 e).
      - assert (0 < 2 ^ e) by (apply pow2_pos; lia).
        replace (2 ^ 31) with (2 ^ (31 - e) * 2 ^ e)
          by (rewrite <- Z.pow_add_r by lia; f_equal; lia).
        split; nia.
      - assert (0 < 2 ^ (- e)) by (apply pow2_pos; lia).
        split; [apply Z.div_pos; lia|].
        apply Z.div_lt_upper_bound; [assumption|].
        rewrite <- Z.pow_add_r by lia.
        now replace (- e + 31) with (31 - e) by lia. }
    clearbody z. exists z. unfold INT_MAX.
    split; [reflexivity|]. split; [lia|].
    destruct (Z.eq_dec z 0) as [->|Hnz]; [reflexivity|].
    change (binary_normalize Double.prec Double.emax z 0 false) with (Double.of_Z z).
    destruct (of_Z_int z ltac:(unfold INT_MAX; lia)) as [m' [k [-> [_ [Hk Hm']]]]].
    unfold Double.to_int. cbv zeta.
    destruct (Z.leb_spec 0 (Z.neg k)); [lia|].
    replace (- Z.neg k) with (Z.pos k) by lia.
    rewrite Hm', Z.div_mul by (apply Z.pow_nonzero; lia).
    unfold INT_MIN, INT_MAX.
    destruct (Z.leb_spec (- 2 ^ 31) z); [|lia].
    destruct (Z.leb_spec z (2 ^ 31 - 1)); [reflexivity | lia].
Qed.

(** The literal of [M_PI] lies within half a unit in the last place of the
    double chosen for it: [|m * 2^-51 - 3.14159265358979323846| <= 2^-52]. *)
Lemma M_PI_nearest :
  Double.M_PI = S754_finite false 7074237752028440 (-51) /\
  2 * Z.abs (7074237752028440 * 10 ^ 20 - 314159265358979323846 * 2 ^ 51)
  <= 10 ^ 20.
Proof. split; [reflexivity | vm_compute; discriminate]. Qed.

Lemma quarter_pi :
  Double.div Double.M_PI (Double.of_Z 4)
  = S754_finite false 7074237752028440 (-53).
Proof. reflexivity. Qed.

(** The double whose floor the calculator takes. *)
Lemma iterations_below (total_items marked_items : Z) :
  0 < total_items <= INT_MAX -> 0 < marked_items <= INT_MAX ->
  below 31 (grover_angle_ratio total_items marked_items).
Proof.
  intros Ht Hm. unfold grover_angle_ratio. rewrite quarter_pi.
  apply below_mono with (E := 17 + 1); [lia|].
  apply mul_below; [reflexivity | lia|].
  apply sqrt_below with (E := 32); [lia | split; [reflexivity | lia] |].
  now apply div_int_below.
Qed.

Lemma calculate_optimal_iterations_fallback (total_items marked_items : Z) :
  marked_items <= 0 \/ total_items <= 0 ->
  calculate_optimal_iterations total_items marked_items = Ret 1.
Proof.
  intros H. unfold calculate_optimal_iterations.
  destruct (Z.leb_spec marked_items 0), (Z.leb_spec total_items 0);
    cbn [orb]; try reflexivity; lia.
Qed.

Lemma calculate_optimal_iterations_floor (total_items marked_items : Z) :
  0 < total_items <= INT_MAX -> 0 < marked_items <= INT_MAX ->
  exists fl,
    Double.floor_Z (grover_angle_ratio total_items marked_items) = Some fl /\
    0 <= fl <= INT_MAX /\
    calculate_optimal_iterations total_items marked_items = Ret (Z.max 1 fl).
Proof.
  intros Ht Hm.
  destruct (floor_to_int _ (iterations_below total_items marked_items Ht Hm))
    as [fl [Hfl [Hrange Hconv]]].
  exists fl. split; [assumption|]. split; [assumption|].
  unfold calculate_optimal_iterations.
  destruct (Z.leb_spec marked_items 0), (Z.leb_spec total_items 0);
    cbn [orb]; try lia.
  fold (grover_angle_ratio total_items marked_items).
  now rewrite Hconv.
Qed.

(** *** The computed double and the real number *)

Section IterationAccuracy.
Import Reals Machin Lra.
Local Open Scope R_scope.

Lemma pow2_positive (e : Z) : 0 < pow2 e.
Proof. apply powerRZ_lt. lra. Qed.

Lemma pow2_add (a b : Z) : pow2 (a + b) = pow2 a * pow2 b.
Proof. apply powerRZ_add. lra. Qed.

Lemma pow2_IZR (k : Z) : (0 <= k)%Z -> IZR (2 ^ k) = pow2 k.
Proof.
  intros Hk. unfold pow2. rewrite <- (Z2Nat.id k Hk) at 1 2.
  now rewrite <- pow_IZR, pow_powerRZ.
Qed.

Lemma pow2_split (e e2 : Z) :
  (e <= e2)%Z -> pow2 e2 = IZR (2 ^ (e2 - e)) * pow2 e.
Proof.
  intros H. rewrite pow2_IZR by lia. rewrite <- pow2_add. f_equal. lia.
Qed.

(** From the integers of the rounding to the reals. *)
Lemma enclosure_near (m e e2 : Z) (p : positive) (v : R) :
  (e <= e2)%Z ->
  ((Z.pos p - 1) * 2 ^ (e2 - e) <= m)%Z ->
  (m + 1 <= (Z.pos p + 1) * 2 ^ (e2 - e))%Z ->
  IZR m * pow2 e <= v <= (IZR m + 1) * pow2 e ->
  (IZR (Z.pos p) - 1) * pow2 e2 <= v <= (IZR (Z.pos p) + 1) * pow2 e2.
Proof.
  intros He Hlo Hhi [Hv1 Hv2]. rewrite (pow2_split e e2 He).
  apply IZR_le in Hlo, Hhi.
  rewrite mult_IZR, minus_IZR in Hlo. rewrite mult_IZR, !plus_IZR in Hhi.
  pose proof (pow2_positive e) as Hu.
  set (u := pow2 e) in *. set (K := IZR (2 ^ (e2 - e))) in *.
  set (P := IZR (Z.pos p)) in *. set (M := IZR m) in *.
  clearbody u K P M. simpl in Hlo, Hhi.
  split.
  - apply Rle_trans with (M * u); [|assumption].
    rewrite <- Rmult_assoc. apply Rmult_le_compat_r; lra.
  - apply Rle_trans with ((M + 1) * u); [assumption|].
    rewrite <- Rmult_assoc. apply Rmult_le_compat_r; lra.
Qed.

(** A double near [v] is within the relative distance [2^-52] of it. *)
Lemma near_relative (lo hi : Z) (x : Double.double) (v : R) :
  near lo hi x v ->
  0 < double_value x /\
  double_value x * (1 - eps) <= v <= double_value x * (1 + eps).
Proof.
  intros (p & e & -> & [Hp _] & _ & Hv1 & Hv2).
  cbn [double_value]. apply IZR_le in Hp.
  change (IZR (2 ^ 52)) with 4503599627370496 in Hp.
  pose proof (pow2_positive e) as Hu.
  set (u := pow2 e) in *. set (P := IZR (Z.pos p)) in *. clearbody u P.
  unfold eps.
  assert (Hpu : u <= P * u * / 4503599627370496).
  { replace (P * u * / 4503599627370496) with (u * (P / 4503599627370496)) by (field).
    rewrite <- (Rmult_1_r u) at 1. apply Rmult_le_compat_l; lra. }
  split; [nra|]. split; nra.
Qed.

Lemma div_between (a b lo hi : R) :
  0 < b -> lo * b <= a <= hi * b -> lo <= a / b <= hi.
Proof.
  intros Hb [H1 H2]. pose proof (Rinv_0_lt_compat b Hb) as Hi. unfold Rdiv. split.
  - replace lo with (lo * b * / b) by (field; lra).
    apply Rmult_le_compat_r; lra.
  - replace hi with (hi * b * / b) by (field; lra).
    apply Rmult_le_compat_r; lra.
Qed.

(** The quotient of two positive [int]s, as doubles, is near their real
    quotient. *)
Lemma div_near (N M : Z) :
  (0 < N <= INT_MAX)%Z -> (0 < M <= INT_MAX)%Z ->
  near (-83) (-21) (Double.div (Double.of_Z N) (Double.of_Z M)) (IZR N / IZR M).
Proof.
  intros HN HM.
  destruct (of_Z_int N HN) as [ma [ka [-> [Hda [Hka Hma]]]]].
  destruct (of_Z_int M HM) as [mb [kb [-> [Hdb [Hkb Hmb]]]]].
  unfold Double.div, SFdiv, SFdiv_core_binary. cbn [Zdigits2 xorb].
  rewrite Hda, Hdb, fexp_double.
  replace (Z.min (Z.max (Z.pos 53 + Z.neg ka - (Z.pos 53 + Z.neg kb) - 53) (-1074))
                 (Z.neg ka - Z.neg kb))
    with (Z.neg ka - Z.neg kb - 53)%Z by lia.
  replace (Z.neg ka - Z.neg kb - (Z.neg ka - Z.neg kb - 53))%Z with 53%Z by lia.
  rewrite Z.shiftl_mul_pow2 by lia.
  pose proof (Z_div_mod (Z.pos ma * 2 ^ 53) (Z.pos mb) ltac:(lia)) as Hdiv.
  destruct (Z.div_eucl (Z.pos ma * 2 ^ 53) (Z.pos mb)) as [q r].
  destruct Hdiv as [Hqr Hr].
  pose proof (digits2_pos_upper ma) as Hmau. rewrite Hda in Hmau.
  pose proof (digits2_pos_lower ma) as Hmal. rewrite Hda in Hmal.
  pose proof (digits2_pos_upper mb) as Hmbu. rewrite Hdb in Hmbu.
  pose proof (digits2_pos_lower mb) as Hmbl. rewrite Hdb in Hmbl.
  change (Z.pos 53 - 1)%Z with 52%Z in Hmal, Hmbl.
  change (2 ^ Z.pos 53)%Z with 9007199254740992%Z in *.
  change (2 ^ 53)%Z with 9007199254740992%Z in *.
  change (2 ^ 52)%Z with 4503599627370496%Z in *.
  assert (Hq0 : (0 <= q)%Z) by nia.
  assert (Hq : (4503599627370496 <= q < 4 * 4503599627370496)%Z).
  { split.
    - destruct (Z.lt_ge_cases q 4503599627370496) as [Hlt|]; [exfalso | lia].
      assert (Z.pos mb * q <= Z.pos mb * 4503599627370495)%Z
        by (apply Z.mul_le_mono_nonneg_l; lia).
      nia.
    - destruct (Z.lt_ge_cases q (4 * 4503599627370496)) as [|Hge]; [lia | exfalso].
      assert (Z.pos mb * (4 * 4503599627370496) <= Z.pos mb * q)%Z
        by (apply Z.mul_le_mono_nonneg_l; lia).
      nia. }
  pose proof (Zdigits2_le q 54 ltac:(change (2 ^ 54)%Z with (4 * 4503599627370496)%Z; lia)
                ltac:(lia)) as Hdq.
  destruct (binary_round_aux_enclosure q (Z.neg ka - Z.neg kb - 53)
              (new_location (Z.pos mb) r))
    as (p & e2 & -> & He2 & Hp & Hlo & Hhi);
    [change (2 ^ 52)%Z with 4503599627370496%Z; lia | lia | lia |].
  exists p, e2. split; [reflexivity|]. split; [exact Hp|]. split; [lia|].
  apply (enclosure_near q (Z.neg ka - Z.neg kb - 53)); [lia | exact Hlo | exact Hhi |].
  set (e := (Z.neg ka - Z.neg kb - 53)%Z).
  assert (Hu : pow2 e * IZR (2 ^ Z.pos ka) * 9007199254740992 = IZR (2 ^ Z.pos kb)).
  { change 9007199254740992 with (IZR (2 ^ 53)).
    rewrite !pow2_IZR by lia. rewrite <- !pow2_add. f_equal. unfold e. lia. }
  apply IZR_le in Hq0.
  assert (HqrR := f_equal IZR Hqr).
  rewrite plus_IZR, !mult_IZR, Hma, Hmb, !mult_IZR in HqrR.
  destruct Hr as [Hr0 Hr1]. apply IZR_le in Hr0. apply IZR_lt in Hr1.
  rewrite Hmb, mult_IZR in Hr1.
  assert (HA : 0 < IZR (2 ^ Z.pos ka)) by (rewrite pow2_IZR by lia; apply pow2_positive).
  assert (HB : 0 < IZR (2 ^ Z.pos kb)) by (rewrite pow2_IZR by lia; apply pow2_positive).
  assert (HMpos : 0 < IZR M) by (apply IZR_lt; lia).
  pose proof (pow2_positive e) as Hupos.
  set (u := pow2 e) in *. set (A := IZR (2 ^ Z.pos ka)) in *.
  set (B := IZR (2 ^ Z.pos kb)) in *. set (Q := IZR q) in *.
  set (n := IZR N) in *. set (d := IZR M) in *. set (R0 := IZR r) in *.
  clearbody u A B Q n d R0. simpl in HqrR, Hr0, Hq0.
  apply div_between; [assumption|].
  assert (HAC : 0 < A * 9007199254740992) by nra.
  split.
  - apply Rmult_le_reg_r with (A * 9007199254740992); [assumption|].
    replace (Q * u * d * (A * 9007199254740992))
      with (d * (u * A * 9007199254740992) * Q) by ring.
    rewrite Hu. lra.
  - apply Rmult_le_reg_r with (A * 9007199254740992); [assumption|].
    replace ((Q + 1) * u * d * (A * 9007199254740992))
      with (d * (u * A * 9007199254740992) * Q + d * (u * A * 9007199254740992)) by ring.
    rewrite Hu. lra.
Qed.

Lemma sqrt_between (y lo hi : R) :
  0 <= lo -> 0 <= hi -> lo * lo <= y <= hi * hi -> lo <= sqrt y <= hi.
Proof.
  intros Hlo Hhi [H1 H2]. split.
  - rewrite <- (sqrt_square lo Hlo). now apply sqrt_le_1_alt.
  - rewrite <- (sqrt_square hi Hhi). now apply sqrt_le_1_alt.
Qed.

(** The square root of a normal double is near the real square root of its
    value. *)
Lemma sqrt_near (lo hi : Z) (x : Double.double) (v : R) :
  near lo hi x v -> (-1000 <= lo)%Z -> (hi <= 1000)%Z ->
  near (lo / 2 - 26) (hi / 2 - 25) (Double.sqrt x) (sqrt (double_value x)).
Proof.
  intros (p & e & -> & Hp & He & _) Hlo Hhi.
  unfold Double.sqrt, SFsqrt, SFsqrt_core_binary.
  rewrite (Zdigits2_eq (Z.pos p) 53) by (change (53 - 1)%Z with 52%Z; lia).
  rewrite fexp_double, !Z.div2_div.
  replace (Z.min (Z.max ((53 + e + 1) / 2 - 53) (-1074)) (e / 2))
    with (e / 2 - 26)%Z by lia_div.
  set (e' := (e / 2 - 26)%Z).
  assert (Hs : (e - 2 * e' = 52 \/ e - 2 * e' = 53)%Z) by (unfold e'; lia_div).
  assert (Hrange : (lo / 2 - 26 <= e' /\ e' + 1 <= hi / 2 - 25)%Z)
    by (unfold e'; lia_div).
  assert (Hm' : exists m',
             match (e - 2 * e')%Z with
             | 0%Z => Z.pos p
             | Z.pos _ => Z.shiftl (Z.pos p) (e - 2 * e')
             | Z.neg _ => 0%Z
             end = m' /\ m' = (Z.pos p * 2 ^ (e - 2 * e'))%Z /\
             (2 ^ 104 <= m' < 2 ^ 106)%Z).
  { destruct Hs as [-> | ->]; eexists; (split; [reflexivity|]);
      rewrite Z.shiftl_mul_pow2 by lia; (split; [reflexivity|]).
    - change (2 ^ 104)%Z with (2 ^ 52 * 2 ^ 52)%Z.
      change (2 ^ 106)%Z with (4 * (2 ^ 52 * 2 ^ 52))%Z.
      change (2 ^ 53)%Z with (2 * 2 ^ 52)%Z in Hp. lia.
    - change (2 ^ 104)%Z with (2 ^ 52 * 2 ^ 52)%Z.
      change (2 ^ 106)%Z with (2 ^ 53 * 2 ^ 53)%Z.
      change (2 ^ 53)%Z with (2 * 2 ^ 52)%Z in *. lia. }
  destruct Hm' as (m' & -> & Hm'eq & Hm'r).
  pose proof (Z.sqrtrem_sqrt m') as Hfst.
  destruct (Z.sqrtrem m') as [q r]. cbn [fst] in Hfst. subst q.
  pose proof (Z.sqrt_spec m' ltac:(lia)) as [Hsq1 Hsq2].
  pose proof (Z.sqrt_nonneg m') as Hq0.
  set (q := Z.sqrt m') in *.
  assert (Hq : (2 ^ 52 <= q < 2 ^ 53)%Z).
  { change (2 ^ 104)%Z with (2 ^ 52 * 2 ^ 52)%Z in Hm'r.
    change (2 ^ 106)%Z with (2 ^ 53 * 2 ^ 53)%Z in Hm'r.
    unfold Z.succ in Hsq2. split; nia. }
  destruct (binary_round_aux_enclosure q e'
              (if (r =? 0)%Z then loc_Exact
               else loc_Inexact (if (r <=? q)%Z then Lt else Gt)))
    as (p2 & e2 & -> & He2 & Hp2 & Hlo2 & Hhi2);
    [lia | unfold e'; lia_div
     | rewrite (Zdigits2_eq q 53) by (change (53 - 1)%Z with 52%Z; lia);
       unfold e'; lia_div |].
  rewrite (Zdigits2_eq q 53) in He2 by (change (53 - 1)%Z with 52%Z; lia).
  exists p2, e2. split; [reflexivity|]. split; [exact Hp2|]. split; [lia|].
  apply (enclosure_near q e'); [lia | exact Hlo2 | exact Hhi2 |].
  cbn [double_value]. rewrite Rmult_1_l.
  assert (Hval : IZR (Z.pos p) * pow2 e = IZR m' * (pow2 e' * pow2 e')).
  { rewrite Hm'eq, mult_IZR, pow2_IZR by lia.
    rewrite <- pow2_add, Rmult_assoc, <- pow2_add. do 2 f_equal. lia. }
  rewrite Hval.
  pose proof (pow2_positive e') as Hu.
  apply IZR_le in Hsq1, Hq0. apply IZR_lt in Hsq2.
  unfold Z.succ in Hsq2. rewrite mult_IZR in Hsq1.
  rewrite mult_IZR, !plus_IZR in Hsq2.
  set (u := pow2 e') in *. set (Q := IZR q) in *. set (M' := IZR m') in *.
  clearbody u Q M'. simpl in Hsq2, Hq0.
  apply sqrt_between; [nra | nra |].
  split.
  - replace (Q * u * (Q * u)) with (Q * Q * (u * u)) by ring.
    apply Rmult_le_compat_r; nra.
  - replace ((Q + 1) * u * ((Q + 1) * u)) with ((Q + 1) * (Q + 1) * (u * u)) by ring.
    apply Rmult_le_compat_r; nra.
Qed.

(** The product of a constant below 1 and a normal double is near the real
    product of their values. *)
Lemma mul_near (lo hi : Z) (mc : positive) (x : Double.double) (v : R) :
  (2 ^ 52 <= Z.pos mc < 2 ^ 53)%Z ->
  near lo hi x v -> (-900 <= lo)%Z -> (hi <= 900)%Z ->
  near (lo - 53) (hi + 1) (Double.mul (S754_finite false mc (-53)) x)
    (double_value (S754_finite false mc (-53)) * double_value x).
Proof.
  intros Hmc (p & e & -> & Hp & He & _) Hlo Hhi.
  unfold Double.mul, SFmul. cbn [xorb].
  assert (Hm : (2 ^ 104 <= Z.pos (mc * p) < 2 ^ 106)%Z).
  { rewrite Pos2Z.inj_mul.
    change (2 ^ 104)%Z with (2 ^ 52 * 2 ^ 52)%Z.
    change (2 ^ 106)%Z with (2 ^ 53 * 2 ^ 53)%Z. split; nia. }
  pose proof (Zdigits2_le (Z.pos (mc * p)) 106 ltac:(lia) ltac:(lia)) as Hd.
  destruct (binary_round_aux_enclosure (Z.pos (mc * p)) (-53 + e) loc_Exact)
    as (p2 & e2 & -> & He2 & Hp2 & Hlo2 & Hhi2);
    [change (2 ^ 104)%Z with (2 ^ 52 * 2 ^ 52)%Z in Hm;
     pose proof (pow2_pos 52 ltac:(lia)); nia | lia | lia |].
  exists p2, e2. split; [reflexivity|]. split; [exact Hp2|]. split; [lia|].
  apply (enclosure_near (Z.pos (mc * p)) (-53 + e)); [lia | exact Hlo2 | exact Hhi2 |].
  cbn [double_value]. rewrite Pos2Z.inj_mul, mult_IZR, pow2_add.
  pose proof (pow2_positive (-53)). pose proof (pow2_positive e).
  assert (0 < IZR (Z.pos mc)) by (apply IZR_lt; lia).
  assert (0 < IZR (Z.pos p)) by (apply IZR_lt; lia).
  split; nra.
Qed.

(** The floor taken by the model is the integer part of the value. *)
Lemma floor_Z_value (p : positive) (e : Z) :
  exists fl,
    Double.floor_Z (S754_finite false p e) = Some fl /\
    IZR fl <= double_value (S754_finite false p e) < IZR fl + 1.
Proof.
  cbn [Double.floor_Z double_value]. rewrite Rmult_1_l.
  eexists. split; [reflexivity|].
  destruct (Z.leb_spec 0 e) as [He|He].
  - rewrite mult_IZR, pow2_IZR by assumption. lra.
  - assert (HK : pow2 e * IZR (2 ^ (- e)) = 1).
    { rewrite pow2_IZR by lia. rewrite <- pow2_add.
      replace (e + - e)%Z with 0%Z by lia. reflexivity. }
    pose proof (pow2_pos (- e) ltac:(lia)) as HKpos.
    pose proof (Z.div_mod (Z.pos p) (2 ^ (- e)) ltac:(lia)) as Hdm.
    pose proof (Z.mod_pos_bound (Z.pos p) (2 ^ (- e)) HKpos) as [Hr0 Hr1].
    assert (HdmR := f_equal IZR Hdm). rewrite plus_IZR, mult_IZR in HdmR.
    apply IZR_le in Hr0. apply IZR_lt in Hr1, HKpos.
    pose proof (pow2_positive e) as Hu.
    set (u := pow2 e) in *. set (K := IZR (2 ^ (- e))) in *.
    set (F := IZR (Z.pos p / 2 ^ (- e))) in *.
    set (R0 := IZR (Z.pos p mod 2 ^ (- e))) in *.
    set (P := IZR (Z.pos p)) in *. clearbody u K F R0 P. simpl in Hr0, HKpos.
    assert (H1 : K * u = 1) by (rewrite Rmult_comm; assumption).
    assert (H2 : R0 * u < K * u) by (apply Rmult_lt_compat_r; assumption).
    assert (H3 : 0 <= R0 * u) by (apply Rmult_le_pos; lra).
    subst P. replace ((K * F + R0) * u) with (F * (K * u) + R0 * u) by ring.
    rewrite H1 in *. lra.
Qed.

Lemma PI_upper : PI < 3141592653589793239 / 1000000000000000000.
Proof.
  pose proof (proj2 (PI_2_3_7_ineq 9)) as H.
  unfold sum_f_R0, tg_alt, PI_2_3_7_tg, Ratan_seq in H.
  simpl in H. lra.
Qed.

Lemma PI_lower : 3141592653589793238 / 1000000000000000000 < PI.
Proof.
  pose proof (proj1 (PI_2_3_7_ineq 9)) as H.
  unfold sum_f_R0, tg_alt, PI_2_3_7_tg, Ratan_seq in H.
  simpl in H. lra.
Qed.

Lemma quarter_pi_value :
  double_value (S754_finite false 7074237752028440 (-53))
  = 7074237752028440 / 9007199254740992.
Proof.
  cbn [double_value]. rewrite Rmult_1_l.
  assert (H : pow2 (-53) * IZR (2 ^ 53) = 1).
  { rewrite pow2_IZR by lia. rewrite <- pow2_add. reflexivity. }
  change (IZR (2 ^ 53)) with 9007199254740992 in H.
  set (u := pow2 (-53)) in *. clearbody u.
  replace u with (/ 9007199254740992) by (apply Rmult_eq_reg_r with 9007199254740992; [rewrite H; field | lra]).
  reflexivity.
Qed.

(** The double whose floor the calculator takes is within [10^-9] of the
    real number [(pi / 4) * sqrt (total_items / marked_items)]. *)
Lemma grover_angle_ratio_accuracy (total_items marked_items : Z) :
  (0 < total_items <= INT_MAX)%Z -> (0 < marked_items <= INT_MAX)%Z ->
  exists p e,
    grover_angle_ratio total_items marked_items = S754_finite false p e /\
    Rabs (double_value (grover_angle_ratio total_items marked_items)
          - PI / 4 * sqrt (IZR total_items / IZR marked_items))
    <= / 1000000000.
Proof.
  intros HN HM. unfold grover_angle_ratio. rewrite quarter_pi.
  pose proof (div_near total_items marked_items HN HM) as H1.
  pose proof (sqrt_near _ _ _ _ H1 ltac:(lia) ltac:(lia)) as H2.
  pose proof (mul_near _ _ 7074237752028440 _ _ ltac:(now compute) H2
                ltac:(now compute) ltac:(now compute)) as H3.
  destruct (near_relative _ _ _ _ H1) as [Hr0 [Hr1 Hr2]].
  destruct (near_relative _ _ _ _ H2) as [Hs0 [Hs1 Hs2]].
  destruct (near_relative _ _ _ _ H3) as [Hx0 [Hx1 Hx2]].
  destruct H3 as (p & e & Hx & _). exists p, e. split; [exact Hx|].
  rewrite quarter_pi_value in Hx1, Hx2.
  set (ratio := Double.div (Double.of_Z total_items) (Double.of_Z marked_items)) in *.
  set (x := double_value
              (Double.mul (S754_finite false 7074237752028440 (-53))
                 (Double.sqrt ratio))) in *.
  set (s := double_value (Double.sqrt ratio)) in *.
  set (rho := double_value ratio) in *.
  assert (Ha : 0 < IZR total_items / IZR marked_items <= 2147483647).
  { unfold INT_MAX in HN, HM.
    assert (0 < IZR total_items <= 2147483647)
      by (split; [apply IZR_lt | apply IZR_le]; lia).
    assert (1 <= IZR marked_items) by (apply IZR_le; lia).
    split; [apply Rdiv_lt_0_compat; lra|].
    apply (div_between (IZR total_items) (IZR marked_items) 0 2147483647); nra. }
  set (a := IZR total_items / IZR marked_items) in *.
  assert (HS : 0 <= sqrt a <= 46341).
  { apply sqrt_between; lra. }
  assert (HSS : sqrt a * sqrt a = a) by (apply sqrt_sqrt; lra).
  set (S := sqrt a) in *.
  assert (HT : S * (1 - eps) <= sqrt rho <= S * (1 + eps)).
  { assert (0 < eps < / 1000) by (unfold eps; lra).
    apply sqrt_between; [nra | nra |].
    replace (S * (1 - eps) * (S * (1 - eps)))
      with (S * S * ((1 - eps) * (1 - eps))) by ring.
    replace (S * (1 + eps) * (S * (1 + eps)))
      with (S * S * ((1 + eps) * (1 + eps))) by ring.
    rewrite HSS. unfold eps in *. split; lra. }
  set (T := sqrt rho) in *.
  clearbody x s rho T S a.
  pose proof PI_upper as Hpu. pose proof PI_lower as Hpl.
  assert (Hc1 : 0 <= (PI / 4 - 7074237752028440 / 9007199254740992) * S).
  { apply Rmult_le_pos; lra. }
  assert (Hc2 : (PI / 4 - 7074237752028440 / 9007199254740992) * S
                <= / 10000000000000000 * 46341).
  { apply Rmult_le_compat; lra. }
  unfold eps in *.
  apply Rabs_le. split; lra.
Qed.

Lemma Rabs_le_between (a b : R) : Rabs a <= b -> - b <= a <= b.
Proof.
  intros H. pose proof (Rle_abs a) as H1. pose proof (Rle_abs (- a)) as H2.
  rewrite Rabs_Ropp in H2. lra.
Qed.

Lemma Int_part_close (x v : R) :
  Rabs (x - v) <= / 1000000000 ->
  (Int_part v - 1 <= Int_part x <= Int_part v + 1)%Z /\
  ((forall k : Z, / 1000000000 < Rabs (v - IZR k)) -> Int_part x = Int_part v).
Proof.
  intros Hclose. apply Rabs_le_between in Hclose.
  destruct (base_Int_part x) as [Hx1 Hx2]. destruct (base_Int_part v) as [Hv1 Hv2].
  assert (Hd1 : IZR (Int_part x - Int_part v) < IZR 2) by (rewrite minus_IZR; lra).
  assert (Hd2 : IZR (Int_part v - Int_part x) < IZR 2) by (rewrite minus_IZR; lra).
  apply lt_IZR in Hd1, Hd2. split; [lia|].
  intros Hfar.
  destruct (Z.lt_trichotomy (Int_part x) (Int_part v)) as [Hlt|[Heq|Hgt]];
    [exfalso | exact Heq | exfalso].
  - specialize (Hfar (Int_part v)).
    assert (IZR (Int_part x) + 1 <= IZR (Int_part v))
      by (rewrite <- plus_IZR; apply IZR_le; lia).
    rewrite Rabs_pos_eq in Hfar by lra. lra.
  - specialize (Hfar (Int_part x)).
    assert (IZR (Int_part v) + 1 <= IZR (Int_part x))
      by (rewrite <- plus_IZR; apply IZR_le; lia).
    rewrite Rabs_left1 in Hfar by lra. lra.
Qed.

(** C6: for [int] arguments, [calculate_optimal_iterations] returns 1 when
    [marked_items <= 0] or [total_items <= 0]; otherwise the call is defined
    and returns the larger of 1 and the floor of the double [x] that
    evaluating [(M_PI / 4.0) * sqrt(total_items / marked_items)] in binary64
    gives.  [x] is within [10^-9] of the real number
    [(pi / 4) * sqrt(total_items / marked_items)]: the result differs from
    the contract's [max(1, floor(...))] over the reals by at most one, and
    equals it whenever the real number is farther than [10^-9] from every
    integer.  On (1024, 1) it returns 25 and on (0, 5) it returns 1. *)
Theorem calculate_optimal_iterations_spec (total_items marked_items : Z) :
  is_int total_items -> is_int marked_items ->
  ((marked_items <= 0)%Z \/ (total_items <= 0)%Z ->
   calculate_optimal_iterations total_items marked_items = Ret 1%Z) /\
  ((0 < marked_items)%Z -> (0 < total_items)%Z ->
   exists fl,
     Double.floor_Z (grover_angle_ratio total_items marked_items) = Some fl /\
     calculate_optimal_iterations total_items marked_items = Ret (Z.max 1 fl) /\
     fl = Int_part (double_value (grover_angle_ratio total_items marked_items)) /\
     Rabs (double_value (grover_angle_ratio total_items marked_items)
           - PI / 4 * sqrt (IZR total_items / IZR marked_items))
     <= / 1000000000 /\
     (grover_iterations total_items marked_items - 1 <= Z.max 1 fl
      <= grover_iterations total_items marked_items + 1)%Z /\
     ((forall k : Z,
         / 1000000000
         < Rabs (PI / 4 * sqrt (IZR total_items / IZR marked_items) - IZR k)) ->
      Z.max 1 fl = grover_iterations total_items marked_items)) /\
  calculate_optimal_iterations 1024 1 = Ret 25%Z /\
  calculate_optimal_iterations 0 5 = Ret 1%Z.
Proof.
  intros [_ Ht] [_ Hm].
  split; [apply calculate_optimal_iterations_fallback|].
  split; [|split; reflexivity].
  intros Hm0 Ht0.
  destruct (calculate_optimal_iterations_floor total_items marked_items)
    as [fl [Hfl [_ Hcalc]]]; try lia.
  destruct (grover_angle_ratio_accuracy total_items marked_items)
    as (p & e & Hx & Hclose); try lia.
  exists fl. split; [exact Hfl|]. split; [exact Hcalc|].
  assert (Hint : fl = Int_part (double_value (grover_angle_ratio total_items marked_items))).
  { rewrite Hx in Hfl |- *.
    destruct (floor_Z_value p e) as (fl' & Hfl' & Hv1 & Hv2).
    rewrite Hfl in Hfl'. injection Hfl' as <-.
    apply Int_part_spec. lra. }
  split; [exact Hint|]. split; [exact Hclose|].
  destruct (Int_part_close _ _ Hclose) as [Hone Hsame].
  rewrite <- Hint in Hone, Hsame. unfold grover_iterations.
  split; [lia|]. intros Hfar. now rewrite (Hsame Hfar).
Qed.

Lemma calculate_optimal_iterations_spec_witness :
  ((4 <= 0)%Z \/ (1000000 <= 0)%Z ->
   calculate_optimal_iterations 1000000 4 = Ret 1%Z) /\
  ((0 < 4)%Z -> (0 < 1000000)%Z ->
   exists fl,
     Double.floor_Z (grover_angle_ratio 1000000 4) = Some fl /\
     calculate_optimal_iterations 1000000 4 = Ret (Z.max 1 fl) /\
     fl = Int_part (double_value (grover_angle_ratio 1000000 4)) /\
     Rabs (double_value (grover_angle_ratio 1000000 4)
           - PI / 4 * sqrt (IZR 1000000 / IZR 4))
     <= / 1000000000 /\
     (grover_iterations 1000000 4 - 1 <= Z.max 1 fl
      <= grover_iterations 1000000 4 + 1)%Z /\
     ((forall k : Z,
         / 1000000000 < Rabs (PI / 4 * sqrt (IZR 1000000 / IZR 4) - IZR k)) ->
      Z.max 1 fl = grover_iterations 1000000 4)) /\
  calculate_optimal_iterations 1024 1 = Ret 25%Z /\
  calculate_optimal_iterations 0 5 = Ret 1%Z.
Proof.
  apply (calculate_optimal_iterations_spec 1000000 4);
    unfold is_int, INT_MIN, INT_MAX; lia.
Defined.

Lemma sqrt_below_bound (x s : R) : 0 <= x -> 0 <= s -> x < s * s -> sqrt x < s.
Proof.
  intros Hx Hs H. rewrite <- (sqrt_square s Hs). apply sqrt_lt_1_alt. lra.
Qed.

(** On (788277019, 121562224) the real number
    [(pi / 4) * sqrt(total_items / marked_items)] is just below 2 and the
    double computed for it is 2: the function returns 2 where the contract
    over the reals gives 1. *)
Lemma calculate_optimal_iterations_rounds_up :
  calculate_optimal_iterations 788277019 121562224 = Ret 2%Z /\
  grover_iterations 788277019 121562224 = 1%Z /\
  grover_angle_ratio 788277019 121562224 = S754_finite false 4503599627370496 (-51) /\
  PI / 4 * sqrt (IZR 788277019 / IZR 121562224) < 2.
Proof.
  split; [now vm_compute|].
  assert (Hv : 1 <= PI / 4 * sqrt (788277019 / 121562224) < 2).
  { pose proof PI_upper as Hu. pose proof PI_lower as Hl.
    assert (Hs : sqrt (788277019 / 121562224)
                 < 8000000000000000000 / 3141592653589793239)
      by (apply sqrt_below_bound; lra).
    assert (Hs' : 2 <= sqrt (788277019 / 121562224))
      by (apply sqrt_between with (hi := 3); lra).
    split; nra. }
  split; [|split; [now vm_compute | apply Hv]].
  unfold grover_iterations.
  rewrite <- (Int_part_spec (PI / 4 * sqrt (788277019 / 121562224)) 1);
    [reflexivity | simpl; lra].
Qed.

End IterationAccuracy.


(** * Further properties *)

(** ** Utilities *)

Lemma is_valid_dna_cons (base : ascii) (rest : string) :
  is_valid_dna (String base rest)
  = existsb (Ascii.eqb base) DNA_BASES && is_valid_dna rest.
Proof.
  cbn [is_valid_dna existsb DNA_BASES].
  destruct (Ascii.eqb base "A"), (Ascii.eqb base "T"),
    (Ascii.eqb base "G"), (Ascii.eqb base "C"); reflexivity.
Qed.

Lemma base_In (base : ascii) :
  existsb (Ascii.eqb base) DNA_BASES = true <-> In base DNA_BASES.
Proof.
  rewrite existsb_exists. split.
  - intros [c [Hin Heq]]. apply Ascii.eqb_eq in Heq. now subst.
  - intros Hin. exists base. split; [assumption | apply Ascii.eqb_refl].
Qed.

(** X1: [is_valid_dna] answers [true] exactly when every character of the
    sequence is one of [DNA_BASES]; in particular the empty sequence is
    valid. *)
Theorem is_valid_dna_iff (sequence : string) :
  is_valid_dna sequence = true <->
  forall k c, String.get k sequence = Some c -> In c DNA_BASES.
Proof.
  induction sequence as [|base rest IH].
  - split; [intros _ k c; destruct k; discriminate | reflexivity].
  - rewrite is_valid_dna_cons, andb_true_iff, base_In, IH. split.
    + intros [Hb Hrest] [|k] c; cbn [String.get].
      * now intros [= <-].
      * apply Hrest.
    + intros H. split.
      * apply (H O). reflexivity.
      * intros k c Hk. apply (H (S k)). exact Hk.
Qed.

(** X2: a concatenation is valid exactly when both parts are. *)
Theorem is_valid_dna_append (s1 s2 : string) :
  is_valid_dna (s1 ++ s2) = is_valid_dna s1 && is_valid_dna s2.
Proof.
  induction s1 as [|base rest IH]; [reflexivity|].
  cbn [append]. rewrite !is_valid_dna_cons, IH. apply andb_assoc.
Qed.

Lemma gc_bases_bounds (sequence : string) :
  0 <= gc_bases sequence <= size sequence.
Proof.
  unfold size. induction sequence as [|base rest IH]; cbn [gc_bases String.length].
  - lia.
  - destruct (is_gc base); lia.
Qed.

Lemma gc_loop_counts (sequence : string) (gc_count : Z) :
  0 <= gc_count -> gc_count + gc_bases sequence <= INT_MAX ->
  gc_loop sequence gc_count = Ret (gc_count + gc_bases sequence).
Proof.
  revert gc_count.
  induction sequence as [|base rest IH]; intros gc_count H0 Hmax;
    cbn [gc_loop gc_bases] in *.
  - now rewrite Z.add_0_r.
  - pose proof (gc_bases_bounds rest) as [Hrest _].
    destruct (is_gc base).
    + unfold add_int, INT_MIN, INT_MAX in *.
      destruct (Z.leb_spec (- 2 ^ 31) (gc_count + 1)); [|lia].
      destruct (Z.leb_spec (gc_count + 1) (2 ^ 31 - 1)); [|lia].
      cbn [andb bind]. rewrite IH by lia. f_equal. lia.
    + rewrite IH by lia. f_equal.
Qed.

Lemma gc_loop_overflows (sequence : string) (gc_count : Z) :
  0 <= gc_count <= INT_MAX -> INT_MAX < gc_count + gc_bases sequence ->
  gc_loop sequence gc_count = Undefined SignedOverflow.
Proof.
  revert gc_count.
  induction sequence as [|base rest IH]; intros gc_count H0 Hmax;
    cbn [gc_loop gc_bases] in *.
  - lia.
  - destruct (is_gc base).
    + unfold add_int, INT_MIN, INT_MAX in *.
      destruct (Z.leb_spec (- 2 ^ 31) (gc_count + 1)); [|lia].
      destruct (Z.leb_spec (gc_count + 1) (2 ^ 31 - 1)); cbn [andb bind].
      * apply IH; lia.
      * reflexivity.
    + apply IH; lia.
Qed.

(** X3: [calculate_gc_content] never inspects validity: it returns the
    number of ['G'] and ['C'] characters divided by the length, both as
    doubles, and [0.0] for the empty sequence; the count lies between 0 and
    the length.  It returns exactly when that count is an [int]: with more
    than [INT_MAX] such characters the counter [gc_count++] overflows. *)
Theorem calculate_gc_content_spec (sequence : string) :
  0 <= gc_bases sequence <= size sequence /\
  (size sequence = 0 -> calculate_gc_content sequence = Ret Double.zero) /\
  (0 < size sequence -> gc_bases sequence <= INT_MAX ->
   calculate_gc_content sequence
   = Ret (Double.div (Double.of_Z (gc_bases sequence))
                     (Double.of_Z (size sequence)))) /\
  (INT_MAX < gc_bases sequence ->
   calculate_gc_content sequence = Undefined SignedOverflow).
Proof.
  pose proof (gc_bases_bounds sequence) as Hb.
  split; [exact Hb|]. unfold calculate_gc_content.
  split; [|split].
  - intros ->. reflexivity.
  - intros Hpos Hmax. destruct (Z.eqb_spec (size sequence) 0); [lia|].
    rewrite gc_loop_counts by lia. reflexivity.
  - intros Hover. unfold INT_MAX in Hover.
    destruct (Z.eqb_spec (size sequence) 0); [lia|].
    rewrite gc_loop_overflows by (unfold INT_MAX; lia). reflexivity.
Qed.

Lemma new_location_zero (n : Z) : new_location n 0 = loc_Exact.
Proof.
  unfold new_location, new_location_even, new_location_odd.
  now destruct (Z.even n).
Qed.

(** A positive [int] divided by itself is exactly 1. *)
Lemma div_self (z : Z) :
  0 < z <= INT_MAX -> Double.div (Double.of_Z z) (Double.of_Z z) = one.
Proof.
  intros Hz. destruct (of_Z_int z Hz) as [m [k [-> [Hd [Hk _]]]]].
  unfold Double.div, SFdiv, SFdiv_core_binary. cbn [Zdigits2 xorb].
  rewrite Hd, fexp_double.
  replace (Z.min (Z.max (Z.pos 53 + Z.neg k - (Z.pos 53 + Z.neg k) - 53) (-1074))
                 (Z.neg k - Z.neg k))
    with (-53) by lia.
  replace (Z.neg k - Z.neg k - -53) with 53 by lia.
  rewrite Z.shiftl_mul_pow2 by lia.
  pose proof (Z_div_mod (Z.pos m * 2 ^ 53) (Z.pos m) ltac:(lia)) as Hdiv.
  destruct (Z.div_eucl (Z.pos m * 2 ^ 53) (Z.pos m)) as [q r].
  destruct Hdiv as [Hqr Hr].
  assert (Hq : q = 2 ^ 53) by nia.
  assert (Hr0 : r = 0) by nia.
  subst q r. rewrite new_location_zero. reflexivity.
Qed.

(** X4: on a sequence of at most [INT_MAX] characters the GC content is
    exactly [0.0] when no character is ['G'] or ['C'] and exactly [1.0] when
    all of them are. *)
Theorem calculate_gc_content_extremes (sequence : string) :
  0 < size sequence <= INT_MAX ->
  (gc_bases sequence = 0 -> calculate_gc_content sequence = Ret Double.zero) /\
  (gc_bases sequence = size sequence -> calculate_gc_content sequence = Ret one).
Proof.
  intros Hs. unfold calculate_gc_content.
  destruct (Z.eqb_spec (size sequence) 0); [lia|].
  split; intros Hgc; rewrite gc_loop_counts by lia; cbn [bind];
    rewrite Z.add_0_l, Hgc.
  - now rewrite div_zero_by_positive.
  - now rewrite div_self.
Qed.

Lemma calculate_gc_content_extremes_witness :
  (gc_bases "GCCG" = 0 -> calculate_gc_content "GCCG" = Ret Double.zero) /\
  (gc_bases "GCCG" = size "GCCG" -> calculate_gc_content "GCCG" = Ret one).
Proof.
  apply (calculate_gc_content_extremes "GCCG").
  unfold size, INT_MAX. simpl. lia.
Defined.

Lemma calculate_gc_content_spec_witness :
  calculate_gc_content "GATTACA"
  = Ret (Double.div (Double.of_Z (gc_bases "GATTACA"))
                    (Double.of_Z (size "GATTACA"))).
Proof.
  destruct (calculate_gc_content_spec "GATTACA") as [_ [_ [H _]]].
  apply H; unfold size, INT_MAX; simpl; lia.
Defined.

Lemma lcg_rand_nonneg (g : Z) : 0 <= fst (lcg_rand g).
Proof. unfold lcg_rand. cbn [fst]. apply Z.mod_pos_bound. lia. Defined.

Section GeneratorProperties.

Variable rng : Type.
Variable srand : Z -> rng.
Variable rand : rng -> Z * rng.

(** [std::rand] returns a number between 0 and [RAND_MAX]. *)
Hypothesis rand_nonneg : forall g, 0 <= fst (rand g).

Lemma pick_base_valid (r : Z) :
  0 <= r -> exists base, pick_base r = Ret base /\ In base DNA_BASES.
Proof.
  intros Hr. unfold pick_base. cbv zeta.
  pose proof (Z.rem_bound_pos r 4 Hr ltac:(lia)) as Hk.
  destruct (Z.ltb_spec (Z.rem r 4) 0); [lia|].
  assert (Hcases : Z.rem r 4 = 0 \/ Z.rem r 4 = 1 \/ Z.rem r 4 = 2 \/ Z.rem r 4 = 3)
    by lia.
  destruct Hcases as [-> | [-> | [-> | ->]]]; eexists; (split; [reflexivity|]);
    cbn; tauto.
Qed.

(** The loop appends one valid character per iteration. *)
Lemma generate_loop_spec (fuel : nat) (g : rng) (sequence : string) :
  exists drawn g',
    generate_loop rand fuel g sequence = Ret ((sequence ++ drawn)%string, g') /\
    String.length drawn = fuel /\
    is_valid_dna drawn = true.
Proof.
  revert g sequence. induction fuel as [|fuel IH]; intros g sequence.
  - exists EmptyString, g. cbn [generate_loop].
    now rewrite string_app_nil_r.
  - cbn [generate_loop]. pose proof (rand_nonneg g) as Hr.
    destruct (rand g) as [r g1]. cbn [fst] in Hr.
    destruct (pick_base_valid r Hr) as [base [-> Hbase]]. cbn [bind].
    destruct (IH g1 (push_char sequence base)) as [drawn [g' [-> [Hlen Hvalid]]]].
    exists (String base drawn), g'. split; [|split].
    + unfold push_char. now rewrite string_app_assoc.
    + cbn [String.length]. now rewrite Hlen.
    + rewrite is_valid_dna_cons, Hvalid, andb_true_r. now apply base_In.
Qed.

(** Running the loop for [n + k] iterations is running it for [n] and then
    for [k] more from where it stopped. *)
Lemma generate_loop_add (n k : nat) (g : rng) (sequence : string) :
  generate_loop rand (n + k) g sequence
  = (p <- generate_loop rand n g sequence ;;
     generate_loop rand k (snd p) (fst p)).
Proof.
  revert g sequence. induction n as [|n IH]; intros g sequence.
  - reflexivity.
  - cbn [Nat.add generate_loop]. destruct (rand g) as [r g1].
    destruct (pick_base r) as [base| |]; cbn [bind]; [apply IH | reflexivity..].
Qed.

(** X5: with a conforming [std::rand], [generate_random_dna] returns a
    sequence of exactly [length] characters for [0 <= length]; a negative
    [length] makes [reserve] throw [std::length_error]. *)
Theorem generate_random_dna_length (length seed : Z) :
  (0 <= length <= INT_MAX ->
   exists sequence g,
     generate_random_dna srand rand length seed = Ret (sequence, g) /\
     size sequence = length) /\
  (INT_MIN <= length < 0 ->
   generate_random_dna srand rand length seed = Throws LengthError).
Proof.
  unfold generate_random_dna. cbv zeta. split; intros Hlen.
  - rewrite check_size_ok by assumption. cbn [bind].
    destruct (generate_loop_spec (Z.to_nat length) (srand seed) EmptyString)
      as [drawn [g [-> [Hl _]]]].
    exists drawn, g. split; [reflexivity|]. unfold size. lia.
  - now rewrite check_size_negative.
Qed.

(** X6: with a conforming [std::rand], the sequence [generate_random_dna]
    returns for [0 <= length] passes [is_valid_dna]. *)
Theorem generate_random_dna_valid (length seed : Z) :
  0 <= length <= INT_MAX ->
  exists sequence g,
    generate_random_dna srand rand length seed = Ret (sequence, g) /\
    is_valid_dna sequence = true.
Proof.
  intros Hlen. unfold generate_random_dna. cbv zeta.
  rewrite check_size_ok by assumption. cbn [bind].
  destruct (generate_loop_spec (Z.to_nat length) (srand seed) EmptyString)
    as [drawn [g [-> [_ Hvalid]]]].
  now exists drawn, g.
Qed.

(** X7: with the same seed a longer request extends a shorter one: the
    sequence of [n] characters is a prefix of the sequence of [m >= n]
    characters. *)
Theorem generate_random_dna_prefix (n m seed : Z) :
  0 <= n <= m -> m <= INT_MAX ->
  exists shorter longer g g' rest,
    generate_random_dna srand rand n seed = Ret (shorter, g) /\
    generate_random_dna srand rand m seed = Ret (longer, g') /\
    longer = (shorter ++ rest)%string.
Proof.
  intros Hn Hm. unfold generate_random_dna. cbv zeta.
  rewrite !check_size_ok by lia. cbn [bind].
  replace (Z.to_nat m) with (Z.to_nat n + Z.to_nat (m - n))%nat by lia.
  rewrite generate_loop_add.
  destruct (generate_loop_spec (Z.to_nat n) (srand seed) EmptyString)
    as [shorter [g [-> _]]]. cbn [bind fst snd append].
  destruct (generate_loop_spec (Z.to_nat (m - n)) g shorter)
    as [rest [g' [-> _]]].
  now exists shorter, (shorter ++ rest)%string, g, g', rest.
Qed.

End GeneratorProperties.

Lemma generate_random_dna_length_witness :
  (0 <= 12 <= INT_MAX ->
   exists sequence g,
     generate_random_dna lcg_srand lcg_rand 12 42 = Ret (sequence, g) /\
     size sequence = 12) /\
  (INT_MIN <= 12 < 0 ->
   generate_random_dna lcg_srand lcg_rand 12 42 = Throws LengthError).
Proof.
  apply (generate_random_dna_length Z lcg_srand lcg_rand lcg_rand_nonneg 12 42).
Defined.

Lemma generate_random_dna_valid_witness :
  exists sequence g,
    generate_random_dna lcg_srand lcg_rand 12 42 = Ret (sequence, g) /\
    is_valid_dna sequence = true.
Proof.
  apply (generate_random_dna_valid Z lcg_srand lcg_rand lcg_rand_nonneg 12 42).
  unfold INT_MAX. lia.
Defined.

Lemma generate_random_dna_prefix_witness :
  exists shorter longer g g' rest,
    generate_random_dna lcg_srand lcg_rand 5 42 = Ret (shorter, g) /\
    generate_random_dna lcg_srand lcg_rand 12 42 = Ret (longer, g') /\
    longer = (shorter ++ rest)%string.
Proof.
  apply (generate_random_dna_prefix Z lcg_srand lcg_rand lcg_rand_nonneg 5 12 42);
    unfold INT_MAX; lia.
Defined.


(** ** Statistics analyzer, continued *)

Lemma shannon_loop_observed (log2 : Double.double -> Double.double)
  (counts : histogram) (total_shots : Z) (entropy : Double.double) :
  shannon_loop log2 counts total_shots entropy
  = shannon_loop log2 (filter observed counts) total_shots entropy.
Proof.
  revert entropy. induction counts as [|[state count] rest IH]; intros entropy.
  - reflexivity.
  - cbn [shannon_loop filter]. unfold observed at 1. cbn [snd].
    destruct (0 <? count) eqn:Hc.
    + cbn [shannon_loop]. rewrite Hc. apply IH.
    + apply IH.
Qed.

(** X8: outcomes whose count is zero or negative contribute nothing to the
    entropy and [std::log2] is never evaluated for them: the entropy of a
    histogram is that of its entries with a positive count, and it is [0.0]
    when there is none. *)
Theorem calculate_shannon_entropy_observed
  (log2 : Double.double -> Double.double) (counts : histogram) (total_shots : Z) :
  calculate_shannon_entropy log2 counts total_shots
  = calculate_shannon_entropy log2 (filter observed counts) total_shots /\
  (Forall (fun entry => snd entry <= 0) counts ->
   calculate_shannon_entropy log2 counts total_shots = Double.zero).
Proof.
  unfold calculate_shannon_entropy. split; [apply shannon_loop_observed|].
  intros Hall. rewrite shannon_loop_observed.
  assert (Hnone : filter observed counts = []).
  { apply filter_none. intros entry Hin. rewrite Forall_forall in Hall.
    specialize (Hall entry Hin). unfold observed.
    destruct (Z.ltb_spec 0 (snd entry)); [lia | reflexivity]. }
  now rewrite Hnone.
Qed.

Lemma calculate_shannon_entropy_observed_witness :
  calculate_shannon_entropy (fun x => x) [("00"%string, 0); ("11"%string, 0)] 8
  = Double.zero.
Proof.
  apply (proj2 (calculate_shannon_entropy_observed (fun x => x)
                  [("00"%string, 0); ("11"%string, 0)] 8)).
  repeat constructor; simpl; lia.
Defined.

(** X9: when [std::log2 (1.0)] is [0.0], as in every C library, a histogram
    in which every observed outcome has all the shots has entropy exactly
    [0.0]. *)
Theorem calculate_shannon_entropy_certain
  (log2 : Double.double -> Double.double) (counts : histogram) (total_shots : Z) :
  log2 one = Double.zero ->
  0 < total_shots <= INT_MAX ->
  Forall (fun entry => snd entry <= 0 \/ snd entry = total_shots) counts ->
  calculate_shannon_entropy log2 counts total_shots = Double.zero.
Proof.
  intros Hlog Hshots Hall. unfold calculate_shannon_entropy.
  induction Hall as [|[state count] rest Hc _ IH]; [reflexivity|].
  cbn [shannon_loop]. cbn [snd] in Hc.
  destruct (Z.ltb_spec 0 count) as [Hpos|Hneg].
  - assert (count = total_shots) by lia. subst count.
    rewrite div_self, Hlog by assumption. exact IH.
  - exact IH.
Qed.

Lemma calculate_shannon_entropy_certain_witness :
  calculate_shannon_entropy (fun _ => Double.zero)
    [("101"%string, 100); ("000"%string, 0)] 100 = Double.zero.
Proof.
  apply (calculate_shannon_entropy_certain (fun _ => Double.zero)
           [("101"%string, 100); ("000"%string, 0)] 100).
  - reflexivity.
  - unfold INT_MAX. lia.
  - repeat constructor; simpl; lia.
Defined.

Lemma sum_counts_perm (counts counts' : histogram) :
  Permutation counts counts' -> sum_counts counts = sum_counts counts'.
Proof.
  induction 1 as [|e l l' _ IH|e e' l|l l' l'' _ IH1 _ IH2];
    unfold sum_counts in *; cbn [fold_right] in *; lia.
Qed.

Lemma largest_count_perm (counts counts' : histogram) :
  Permutation counts counts' -> largest_count counts = largest_count counts'.
Proof.
  induction 1 as [|e l l' _ IH|e e' l|l l' l'' _ IH1 _ IH2];
    unfold largest_count in *; cbn [fold_right] in *; lia.
Qed.

(** X10: when the histogram accounts for every shot, that is when
    [total_shots] is the sum of its (non-negative) counts,
    [success_probability] is exactly [1.0], whatever [expected_matches]
    is. *)
Theorem success_probability_is_one
  (log2 : Double.double -> Double.double) (counts : histogram)
  (expected_matches : list Z) (total_shots : Z) :
  Forall (fun entry => 0 <= snd entry) counts ->
  total_shots = sum_counts counts ->
  0 < total_shots <= INT_MAX ->
  exists r,
    analyze_measurement_statistics log2 counts expected_matches total_shots = Ret r /\
    success_probability r = one.
Proof.
  intros Hnn Hsum Hshots. eexists.
  split; [apply analyze_returns; [assumption | lia]|].
  cbn [success_probability]. rewrite <- Hsum. now apply div_self.
Qed.

Lemma success_probability_is_one_witness :
  exists r,
    analyze_measurement_statistics (fun x => x)
      [("000"%string, 40); ("111"%string, 60)] [5] 100 = Ret r /\
    success_probability r = one.
Proof.
  apply (success_probability_is_one (fun x => x)
           [("000"%string, 40); ("111"%string, 60)] [5] 100).
  - repeat constructor; simpl; lia.
  - reflexivity.
  - unfold INT_MAX. lia.
Defined.

(** X11: for non-negative counts whose sum is an [int], the order in which
    the map yields its entries does not matter for [success_probability],
    [max_amplitude] and [num_unique_states]. *)
Theorem statistics_order_independent
  (log2 : Double.double -> Double.double) (counts counts' : histogram)
  (expected_matches : list Z) (total_shots : Z) :
  Permutation counts counts' ->
  Forall (fun entry => 0 <= snd entry) counts ->
  sum_counts counts <= INT_MAX ->
  exists r r',
    analyze_measurement_statistics log2 counts expected_matches total_shots = Ret r /\
    analyze_measurement_statistics log2 counts' expected_matches total_shots = Ret r' /\
    success_probability r = success_probability r' /\
    max_amplitude r = max_amplitude r' /\
    num_unique_states r = num_unique_states r'.
Proof.
  intros Hperm Hnn Hsum.
  assert (Hnn' : Forall (fun entry => 0 <= snd entry) counts')
    by (eapply Permutation_Forall; eassumption).
  pose proof (sum_counts_perm _ _ Hperm) as Hs.
  pose proof (largest_count_perm _ _ Hperm) as Hl.
  pose proof (Permutation_length Hperm) as Hlen.
  eexists _, _.
  split; [now apply analyze_returns|].
  split; [apply analyze_returns; [assumption | lia]|].
  cbn [success_probability max_amplitude num_unique_states].
  now rewrite Hs, Hl, Hlen.
Qed.

Lemma statistics_order_independent_witness :
  exists r r',
    analyze_measurement_statistics (fun x => x)
      [("000"%string, 40); ("111"%string, 60)] [] 100 = Ret r /\
    analyze_measurement_statistics (fun x => x)
      [("111"%string, 60); ("000"%string, 40)] [] 100 = Ret r' /\
    success_probability r = success_probability r' /\
    max_amplitude r = max_amplitude r' /\
    num_unique_states r = num_unique_states r'.
Proof.
  apply (statistics_order_independent (fun x => x)
           [("000"%string, 40); ("111"%string, 60)]
           [("111"%string, 60); ("000"%string, 40)] [] 100).
  - apply perm_swap.
  - repeat constructor; simpl; lia.
  - unfold INT_MAX. simpl. lia.
Defined.

(** ** Sequence matcher, continued *)

Lemma insert_sorted_perm (x : Z) (l : list Z) :
  Permutation (x :: l) (insert_sorted x l).
Proof.
  induction l as [|y l IH]; cbn [insert_sorted]; [apply Permutation_refl|].
  destruct (x <=? y); [apply Permutation_refl|].
  eapply perm_trans; [apply perm_swap|]. now apply perm_skip.
Qed.

Lemma std_sort_perm (l : list Z) : Permutation l (std_sort l).
Proof.
  induction l as [|x l IH]; cbn [std_sort]; [constructor|].
  eapply perm_trans; [apply perm_skip, IH | apply insert_sorted_perm].
Qed.

Lemma insert_sorted_hd (x y : Z) (l : list Z) :
  y <= x -> HdRel Z.le y l -> HdRel Z.le y (insert_sorted x l).
Proof.
  intros Hyx Hhd. destruct l as [|z l]; cbn [insert_sorted].
  - now constructor.
  - destruct (x <=? z); constructor; [assumption|]. now inversion Hhd.
Qed.

Lemma insert_sorted_sorted (x : Z) (l : list Z) :
  Sorted Z.le l -> Sorted Z.le (insert_sorted x l).
Proof.
  induction 1 as [|y l Hs IH Hhd]; cbn [insert_sorted].
  - repeat constructor.
  - destruct (Z.leb_spec x y).
    + constructor; [now constructor | now constructor].
    + constructor; [assumption|]. apply insert_sorted_hd; [lia | assumption].
Qed.

Lemma std_sort_ascending (l : list Z) : Sorted Z.le (std_sort l).
Proof.
  induction l as [|x l IH]; cbn [std_sort]; [constructor|].
  now apply insert_sorted_sorted.
Qed.

(** On every input, degenerate or not, the parallel variant returns the
    sorted serial vector. *)
Lemma parallel_sorts_serial (sequence pattern : string) (num_threads : Z) :
  size sequence < SIZE_MODULUS ->
  1 <= num_threads <= INT_MAX ->
  find_pattern_matches_parallel sequence pattern num_threads
  = Ret (std_sort (find_pattern_matches sequence pattern)).
Proof.
  intros Hs Hk. destruct (degenerate sequence pattern) eqn:Hd.
  - unfold find_pattern_matches_parallel, find_pattern_matches. now rewrite Hd.
  - apply parallel_merge; try assumption.
    apply degenerate_false in Hd. unfold search_len. lia.
Qed.

(** With the system made explicit: a degenerate input returns before any
    thread is asked for; otherwise the sorted serial vector is returned when
    every thread is started and [std::system_error] is thrown when not. *)
Lemma parallel_async_sorts_serial (started : Z -> bool) (sequence pattern : string)
  (num_threads : Z) :
  size sequence < SIZE_MODULUS ->
  1 <= num_threads <= INT_MAX ->
  find_pattern_matches_parallel_async started sequence pattern num_threads
  = if degenerate sequence pattern || all_started started num_threads
    then Ret (std_sort (find_pattern_matches sequence pattern))
    else Throws SystemError.
Proof.
  intros Hs Hk. rewrite parallel_async_spec.
  destruct (degenerate sequence pattern) eqn:Hd; cbn [orb].
  - unfold find_pattern_matches. now rewrite Hd.
  - rewrite to_size_t_threads by assumption.
    destruct (Z.eqb_spec num_threads 0); [lia|].
    destruct (all_started started num_threads); [|reflexivity].
    now apply parallel_sorts_serial.
Qed.

(** X12: for every thread count from 1 on and every sequence, also when
    offsets exceed [INT_MAX]: if the input is degenerate or the system
    starts every thread, the parallel variant returns an ascending
    rearrangement of what the serial variant returns (the same reported
    numbers, each as many times); if the input is not degenerate and the
    system cannot start one of the threads, [std::system_error] leaves the
    function. *)
Theorem parallel_rearranges_serial (started : Z -> bool) (sequence pattern : string)
  (num_threads : Z) :
  size sequence < SIZE_MODULUS ->
  1 <= num_threads <= INT_MAX ->
  (degenerate sequence pattern || all_started started num_threads = true ->
   exists matches,
     find_pattern_matches_parallel_async started sequence pattern num_threads
     = Ret matches /\
     Sorted Z.le matches /\
     Permutation (find_pattern_matches sequence pattern) matches) /\
  (degenerate sequence pattern || all_started started num_threads = false ->
   find_pattern_matches_parallel_async started sequence pattern num_threads
   = Throws SystemError).
Proof.
  intros Hs Hk. rewrite parallel_async_sorts_serial by assumption. split.
  - intros ->. exists (std_sort (find_pattern_matches sequence pattern)).
    split; [reflexivity|].
    split; [apply std_sort_ascending | apply std_sort_perm].
  - now intros ->.
Qed.

Lemma parallel_rearranges_serial_witness :
  (exists matches,
     find_pattern_matches_parallel_async unlimited "ATATATAT" "ATA" 7 = Ret matches /\
     Sorted Z.le matches /\
     Permutation (find_pattern_matches "ATATATAT" "ATA") matches) /\
  find_pattern_matches_parallel_async (limited 5) "ATATATAT" "ATA" 7
  = Throws SystemError.
Proof.
  assert (Hs : size "ATATATAT" < SIZE_MODULUS)
    by (unfold size, SIZE_MODULUS; simpl; lia).
  assert (Hk : 1 <= 7 <= INT_MAX) by (unfold INT_MAX; lia).
  split.
  - apply (parallel_rearranges_serial unlimited "ATATATAT" "ATA" 7 Hs Hk).
    reflexivity.
  - apply (parallel_rearranges_serial (limited 5) "ATATATAT" "ATA" 7 Hs Hk).
    reflexivity.
Defined.

(** X13: the result of the parallel variant does not depend on the thread
    count, as long as it is at least 1 and the system starts the threads
    asked for. *)
Theorem parallel_thread_count_irrelevant (started started' : Z -> bool)
  (sequence pattern : string) (threads threads' : Z) :
  size sequence < SIZE_MODULUS ->
  1 <= threads <= INT_MAX ->
  1 <= threads' <= INT_MAX ->
  all_started started threads = true ->
  all_started started' threads' = true ->
  find_pattern_matches_parallel_async started sequence pattern threads
  = find_pattern_matches_parallel_async started' sequence pattern threads'.
Proof.
  intros Hs Hk Hk' Ha Ha'.
  rewrite !parallel_async_sorts_serial by assumption.
  now rewrite Ha, Ha', !orb_true_r.
Qed.

Lemma parallel_thread_count_irrelevant_witness :
  find_pattern_matches_parallel_async (limited 2) "ATATATAT" "ATA" 2
  = find_pattern_matches_parallel_async unlimited "ATATATAT" "ATA" 5.
Proof.
  apply (parallel_thread_count_irrelevant (limited 2) unlimited "ATATATAT" "ATA" 2 5).
  - unfold size, SIZE_MODULUS. simpl. lia.
  - unfold INT_MAX. lia.
  - unfold INT_MAX. lia.
  - reflexivity.
  - reflexivity.
Defined.

Lemma chunk_bounds_empty (search_len num_threads t : Z) :
  chunk_bounds search_len 0 num_threads t
  = (0, if t =? num_threads - 1 then search_len else 0).
Proof. unfold chunk_bounds. cbv zeta. now rewrite !Z.mul_0_r. Qed.

Lemma spawn_empty_chunks (search_len num_threads : Z) (fuel : nat) (t : Z)
  (tasks : list (Z * Z)) :
  t + Z.of_nat fuel = num_threads -> (0 < fuel)%nat ->
  spawn search_len 0 num_threads t fuel tasks
  = tasks ++ repeat (0, 0) (fuel - 1) ++ [(0, search_len)].
Proof.
  revert t tasks. induction fuel as [|fuel IH]; intros t tasks Hsum Hpos; [lia|].
  cbn [spawn]. rewrite chunk_bounds_empty. destruct fuel as [|fuel].
  - cbn [spawn repeat Nat.sub app].
    destruct (Z.eqb_spec t (num_threads - 1)); [reflexivity | lia].
  - rewrite IH by lia.
    destruct (Z.eqb_spec t (num_threads - 1)); [lia|].
    rewrite <- app_assoc. cbn [app].
    now replace (S (S fuel) - 1)%nat with (S (S fuel - 1)) by lia.
Qed.

Lemma workers_of_empty_ranges (sequence pattern : string) (n : nat) :
  List.concat (map (worker sequence pattern) (repeat (0, 0) n)) = [].
Proof. induction n as [|n IH]; [reflexivity|]. cbn [repeat map List.concat]. exact IH. Qed.

(** X14: on a non-degenerate input with [num_threads >= 1] the function asks
    for exactly [num_threads] threads: it returns the sorted reports of the
    [num_threads] tasks of the loop when the system starts a thread at each
    of the iterations [0 .. num_threads - 1], and [std::system_error] leaves
    it when one of these is refused; no other thread is asked for.  When
    there are more threads than start offsets the chunk size is 0: every
    task but the last gets the empty range, the last one scans all the
    offsets alone, and the result is what that one task reports. *)
Theorem launched_tasks (started : Z -> bool) (sequence pattern : string)
  (num_threads : Z) :
  degenerate sequence pattern = false ->
  1 <= num_threads <= INT_MAX ->
  find_pattern_matches_parallel_async started sequence pattern num_threads
  = (if all_started started num_threads
     then Ret (std_sort
                 (List.concat
                    (map (worker sequence pattern)
                       (launched sequence pattern num_threads))))
     else Throws SystemError) /\
  Z.of_nat (List.length (launched sequence pattern num_threads)) = num_threads /\
  (search_len sequence pattern < num_threads ->
   launched sequence pattern num_threads
   = repeat (0, 0) (Z.to_nat (num_threads - 1))
     ++ [(0, search_len sequence pattern)] /\
   (all_started started num_threads = true ->
    find_pattern_matches_parallel_async started sequence pattern num_threads
    = Ret (std_sort (worker sequence pattern (0, search_len sequence pattern))))).
Proof.
  intros Hd Hk.
  assert (Hcall :
            find_pattern_matches_parallel_async started sequence pattern num_threads
            = (if all_started started num_threads
               then Ret (std_sort
                           (List.concat
                              (map (worker sequence pattern)
                                 (launched sequence pattern num_threads))))
               else Throws SystemError)).
  { rewrite parallel_async_spec, Hd.
    unfold find_pattern_matches_parallel. rewrite Hd. cbv zeta.
    rewrite to_size_t_threads by assumption.
    destruct (Z.eqb_spec num_threads 0); [lia|].
    unfold launched, search_len. now rewrite to_size_t_threads by assumption. }
  apply degenerate_false in Hd.
  assert (Hlast : search_len sequence pattern < num_threads ->
            launched sequence pattern num_threads
            = repeat (0, 0) (Z.to_nat (num_threads - 1))
              ++ [(0, search_len sequence pattern)]).
  { intros Hover. unfold launched, chunks. rewrite to_size_t_threads by assumption.
    rewrite Z.div_small by (unfold search_len in *; lia).
    rewrite spawn_empty_chunks by lia. cbn [app].
    now replace (Z.to_nat num_threads - 1)%nat with (Z.to_nat (num_threads - 1)) by lia. }
  split; [exact Hcall|]. split.
  - unfold launched, chunks. rewrite to_size_t_threads by assumption.
    rewrite spawn_length. cbn [List.length]. lia.
  - intros Hover. split; [now apply Hlast|].
    intros Hall. rewrite Hcall, Hall, (Hlast Hover).
    rewrite map_app, concat_app, workers_of_empty_ranges.
    cbn [app map List.concat]. now rewrite app_nil_r.
Qed.

Lemma launched_tasks_witness :
  (find_pattern_matches_parallel_async unlimited "ATGC" "AT" 8 = Ret [0] /\
   Z.of_nat (List.length (launched "ATGC" "AT" 8)) = 8 /\
   launched "ATGC" "AT" 8
   = repeat (0, 0) (Z.to_nat (8 - 1)) ++ [(0, search_len "ATGC" "AT")]) /\
  find_pattern_matches_parallel_async (limited 7) "ATGC" "AT" 8 = Throws SystemError.
Proof.
  assert (Hk : 1 <= 8 <= INT_MAX) by (unfold INT_MAX; lia).
  split.
  - destruct (launched_tasks unlimited "ATGC" "AT" 8 eq_refl Hk) as (Hcall & Hlen & Hover).
    split; [exact Hcall|]. split; [exact Hlen|].
    apply Hover. unfold search_len, size. simpl. lia.
  - exact (proj1 (launched_tasks (limited 7) "ATGC" "AT" 8 eq_refl Hk)).
Defined.

Lemma compare_at_ext (sequence sequence' pattern : string) (i j : Z) (fuel : nat) :
  (forall k, (k < fuel)%nat ->
     char_at sequence (i + j + Z.of_nat k) = char_at sequence' (i + j + Z.of_nat k)) ->
  compare_at sequence pattern i j fuel = compare_at sequence' pattern i j fuel.
Proof.
  revert j. induction fuel as [|fuel IH]; intros j H; [reflexivity|].
  cbn [compare_at].
  pose proof (H O ltac:(lia)) as H0. rewrite Z.add_0_r in H0. rewrite H0.
  destruct (negb _); [reflexivity|].
  apply IH. intros k Hk. specialize (H (S k) ltac:(lia)).
  now replace (i + (j + 1) + Z.of_nat k) with (i + j + Z.of_nat (S k)) by lia.
Qed.

(** An offset that fits in the first part matches there as in the whole. *)
Lemma match_at_append (s1 s2 pattern : string) (i : Z) :
  0 <= i -> i + size pattern <= size s1 ->
  match_at (s1 ++ s2) pattern i = match_at s1 pattern i.
Proof.
  unfold size, match_at. intros Hi Hfit. apply compare_at_ext.
  intros k Hk. unfold char_at. symmetry. apply append_correct1. lia.
Qed.

(** X15: appending characters to the sequence keeps every reported match
    and adds new ones only after them: the result on [s1] is a prefix of the
    result on [s1 ++ s2]. *)
Theorem find_pattern_matches_extends (s1 s2 pattern : string) :
  exists later,
    find_pattern_matches (s1 ++ s2) pattern
    = find_pattern_matches s1 pattern ++ later.
Proof.
  destruct (degenerate s1 pattern) eqn:Hd1.
  - exists (find_pattern_matches (s1 ++ s2) pattern).
    unfold find_pattern_matches at 2. now rewrite Hd1.
  - pose proof (proj1 (degenerate_false _ _) Hd1) as H1.
    assert (Hsize : size (s1 ++ s2) = size s1 + size s2)
      by (unfold size; rewrite append_length; lia).
    assert (Hd : degenerate (s1 ++ s2) pattern = false)
      by (apply degenerate_false; unfold size in *; lia).
    rewrite !find_pattern_matches_scan by assumption.
    unfold search_space. rewrite Hsize.
    replace (Z.to_nat (size s1 + size s2 - size pattern + 1))
      with (Z.to_nat (size s1 - size pattern + 1) + Z.to_nat (size s2))%nat
      by (unfold size in *; lia).
    rewrite offsets_app, filter_app, map_app.
    eexists. f_equal. f_equal.
    apply filter_ext_in. intros i Hi. apply offsets_In in Hi.
    apply match_at_append; lia.
Qed.

Lemma substring_all (s : string) : String.substring 0 (String.length s) s = s.
Proof. induction s as [|c s IH]; cbn; [reflexivity | now rewrite IH]. Qed.

(** X16: when the pattern is as long as the (non-empty) sequence the scan
    makes one comparison, at offset 0: the result is [[0]] if the two are
    equal and empty otherwise. *)
Theorem find_pattern_matches_whole (sequence pattern : string) :
  0 < size sequence -> size pattern = size sequence ->
  (sequence = pattern -> find_pattern_matches sequence pattern = [0]) /\
  (sequence <> pattern -> find_pattern_matches sequence pattern = []).
Proof.
  intros Hpos Heq.
  assert (Hd : degenerate sequence pattern = false)
    by (apply degenerate_false; lia).
  rewrite find_pattern_matches_scan by assumption.
  unfold search_space.
  replace (Z.to_nat (size sequence - size pattern + 1)) with 1%nat by lia.
  cbn [offsets filter].
  pose proof (match_at_occurs sequence pattern 0 ltac:(lia) ltac:(lia)) as Hm.
  assert (Hlen : String.length pattern = String.length sequence)
    by (unfold size in Heq; lia).
  rewrite Hlen, substring_all in Hm. change (Z.to_nat 0) with O in Hm.
  split; intros H.
  - apply Hm in H. now rewrite H.
  - destruct (match_at sequence pattern 0); [|reflexivity].
    exfalso. apply H. now apply Hm.
Qed.

Lemma find_pattern_matches_whole_witness :
  ("GATTACA"%string = "GATTACA"%string ->
   find_pattern_matches "GATTACA" "GATTACA" = [0]) /\
  ("GATTACA"%string <> "GATTACA"%string ->
   find_pattern_matches "GATTACA" "GATTACA" = []).
Proof.
  apply (find_pattern_matches_whole "GATTACA" "GATTACA").
  - unfold size. simpl. lia.
  - reflexivity.
Defined.

(** ** Oracle builder, continued *)

Lemma phase_flips_nth_error (matches : list Z) (database_size i : Z) :
  0 <= i < database_size ->
  nth_error (phase_flips matches database_size) (Z.to_nat i)
  = Some (if marked matches i then minus_one else plus_one).
Proof.
  intros Hi. unfold phase_flips.
  rewrite nth_error_map, offsets_nth_error by lia. cbn [option_map].
  now replace (0 + Z.of_nat (Z.to_nat i)) with i by lia.
Qed.

(** X17: the matcher feeds the oracle builder safely: when every start
    offset is an [int], the diagonal built from the matches of [pattern] in
    [sequence] has [-1] exactly at the offsets below [database_size] where
    the pattern occurs, and [+1] elsewhere. *)
Theorem oracle_marks_occurrences (sequence pattern : string) (database_size : Z) :
  size sequence - size pattern <= INT_MAX ->
  0 <= database_size <= INT_MAX ->
  exists diagonal,
    build_oracle_diagonal (find_pattern_matches sequence pattern) database_size
    = Ret diagonal /\
    Z.of_nat (List.length diagonal) = database_size /\
    forall i, 0 <= i < database_size ->
      (0 < size pattern /\ occurs_at sequence pattern i ->
       nth_error diagonal (Z.to_nat i) = Some minus_one) /\
      (~ (0 < size pattern /\ occurs_at sequence pattern i) ->
       nth_error diagonal (Z.to_nat i) = Some plus_one).
Proof.
  intros Hfit Hsize.
  assert (Hnn : Forall (fun m => 0 <= m) (find_pattern_matches sequence pattern)).
  { apply Forall_forall. intros m Hm.
    apply find_pattern_matches_In in Hm; [|assumption].
    destruct Hm as [_ [H0 _]]. exact H0. }
  exists (phase_flips (find_pattern_matches sequence pattern) database_size).
  split; [now apply build_oracle_diagonal_flips|].
  split; [unfold phase_flips; rewrite length_map, offsets_length; lia|].
  intros i Hi. rewrite phase_flips_nth_error by assumption.
  split; intros Hocc.
  - apply find_pattern_matches_In in Hocc; [|assumption].
    apply marked_In in Hocc. now rewrite Hocc.
  - destruct (marked (find_pattern_matches sequence pattern) i) eqn:Hm;
      [|reflexivity].
    exfalso. apply Hocc. apply marked_In in Hm.
    now apply find_pattern_matches_In in Hm.
Qed.

Lemma oracle_marks_occurrences_witness :
  exists diagonal,
    build_oracle_diagonal (find_pattern_matches "ATGCAT" "AT") 8 = Ret diagonal /\
    Z.of_nat (List.length diagonal) = 8 /\
    forall i, 0 <= i < 8 ->
      (0 < size "AT" /\ occurs_at "ATGCAT" "AT" i ->
       nth_error diagonal (Z.to_nat i) = Some minus_one) /\
      (~ (0 < size "AT" /\ occurs_at "ATGCAT" "AT" i) ->
       nth_error diagonal (Z.to_nat i) = Some plus_one).
Proof.
  apply (oracle_marks_occurrences "ATGCAT" "AT" 8);
    unfold size, INT_MAX; simpl; lia.
Defined.

Lemma marked_same (matches matches' : list Z) (i : Z) :
  (forall m, In m matches <-> In m matches') ->
  marked matches i = marked matches' i.
Proof.
  intros Hsame.
  destruct (marked matches i) eqn:H1, (marked matches' i) eqn:H2;
    try reflexivity.
  - apply marked_In, Hsame, marked_In in H1. congruence.
  - apply marked_In, Hsame, marked_In in H2. congruence.
Qed.

(** X18: for non-negative positions the diagonal depends only on which
    positions are listed, not on their order nor on repetitions. *)
Theorem oracle_depends_on_set (matches matches' : list Z) (database_size : Z) :
  0 <= database_size <= INT_MAX ->
  Forall (fun m => 0 <= m) matches ->
  (forall m, In m matches <-> In m matches') ->
  build_oracle_diagonal matches database_size
  = build_oracle_diagonal matches' database_size.
Proof.
  intros Hsize Hnn Hsame.
  assert (Hnn' : Forall (fun m => 0 <= m) matches').
  { rewrite Forall_forall in *. intros m Hm. apply Hnn, Hsame, Hm. }
  rewrite !build_oracle_diagonal_flips by assumption.
  f_equal. unfold phase_flips. apply map_ext. intros i.
  now rewrite (marked_same matches matches' i Hsame).
Qed.

Lemma oracle_depends_on_set_witness :
  build_oracle_diagonal [3; 1; 3] 4 = build_oracle_diagonal [1; 3] 4.
Proof.
  apply (oracle_depends_on_set [3; 1; 3] [1; 3] 4).
  - unfold INT_MAX. lia.
  - repeat constructor; lia.
  - intros m. simpl. tauto.
Defined.

Lemma mark_all_skipped (matches : list Z) (database_size : Z)
  (diagonal : list complex) :
  Forall (fun m => database_size <= m) matches ->
  mark matches database_size diagonal = Ret diagonal.
Proof.
  induction 1 as [|m rest Hm _ IH]; cbn [mark]; [reflexivity|].
  destruct (Z.ltb_spec m database_size); [lia | exact IH].
Qed.

(** X19: a negative [database_size] makes the vector constructor throw
    [std::length_error], whatever the matches; for [0 <= database_size], if
    every listed position is at or above [database_size] (in particular if
    none is listed) the diagonal is [+1] everywhere. *)
Theorem build_oracle_diagonal_edges (matches : list Z) (database_size : Z) :
  (INT_MIN <= database_size < 0 ->
   build_oracle_diagonal matches database_size = Throws LengthError) /\
  (0 <= database_size <= INT_MAX ->
   Forall (fun m => database_size <= m) matches ->
   build_oracle_diagonal matches database_size
   = Ret (repeat plus_one (Z.to_nat database_size))).
Proof.
  unfold build_oracle_diagonal. split.
  - intros Hneg. now rewrite check_size_negative.
  - intros Hsize Hall. rewrite check_size_ok by assumption. cbn [bind].
    now apply mark_all_skipped.
Qed.

Lemma build_oracle_diagonal_edges_witness :
  build_oracle_diagonal [5; 9] 3 = Ret (repeat plus_one (Z.to_nat 3)) /\
  build_oracle_diagonal [5; 9] (-2) = Throws LengthError.
Proof.
  split.
  - apply (proj2 (build_oracle_diagonal_edges [5; 9] 3)).
    + unfold INT_MAX. lia.
    + repeat constructor; lia.
  - apply (proj1 (build_oracle_diagonal_edges [5; 9] (-2))).
    unfold INT_MIN. lia.
Defined.

(** ** Position encoder, continued *)

Lemma binary_digits_low_bits (i j : Z) (n n' : nat) :
  i mod 2 ^ Z.of_nat n = j mod 2 ^ Z.of_nat n -> (n' <= n)%nat ->
  binary_digits i n' = binary_digits j n'.
Proof.
  intros Hmod. induction n' as [|n' IH]; intros Hle; [reflexivity|].
  cbn [binary_digits]. rewrite IH by lia. f_equal.
  rewrite <- (Z.mod_pow2_bits_low i (Z.of_nat n) (Z.of_nat n')) by lia.
  rewrite <- (Z.mod_pow2_bits_low j (Z.of_nat n) (Z.of_nat n')) by lia.
  now rewrite Hmod.
Qed.

(** X20: two candidates get the same string exactly when their indices
    agree modulo [2^n_qubits]; so the strings are pairwise distinct when
    [num_candidates <= 2^n_qubits], and collide otherwise. *)
Theorem encode_positions_collisions (num_candidates n_qubits i j : Z) :
  0 <= num_candidates <= INT_MAX ->
  0 <= n_qubits <= 32 ->
  0 <= i < num_candidates ->
  0 <= j < num_candidates ->
  exists encodings si sj,
    encode_positions num_candidates n_qubits = Ret encodings /\
    nth_error encodings (Z.to_nat i) = Some si /\
    nth_error encodings (Z.to_nat j) = Some sj /\
    (si = sj <-> i mod 2 ^ n_qubits = j mod 2 ^ n_qubits) /\
    (num_candidates <= 2 ^ n_qubits -> si = sj -> i = j).
Proof.
  intros Hc Hq Hi Hj.
  assert (Hiff : binary_digits i (Z.to_nat n_qubits) = binary_digits j (Z.to_nat n_qubits)
                 <-> i mod 2 ^ n_qubits = j mod 2 ^ n_qubits).
  { split; intros H.
    - apply (f_equal parse_binary) in H. unfold parse_binary in H.
      rewrite !parse_binary_from_digits in H by lia.
      rewrite Z2Nat.id in H by lia. lia.
    - apply binary_digits_low_bits with (n := Z.to_nat n_qubits); [|lia].
      now rewrite Z2Nat.id by lia. }
  eexists _, _, _.
  split; [now apply encode_positions_digits|].
  split; [apply encoding_nth_error; lia|].
  split; [apply encoding_nth_error; lia|].
  split; [exact Hiff|].
  intros Hroom Heq. apply Hiff in Heq.
  rewrite !Z.mod_small in Heq by lia. exact Heq.
Qed.

Lemma encode_positions_collisions_witness :
  exists encodings si sj,
    encode_positions 6 2 = Ret encodings /\
    nth_error encodings (Z.to_nat 1) = Some si /\
    nth_error encodings (Z.to_nat 5) = Some sj /\
    (si = sj <-> 1 mod 2 ^ 2 = 5 mod 2 ^ 2) /\
    (6 <= 2 ^ 2 -> si = sj -> 1 = 5).
Proof.
  apply (encode_positions_collisions 6 2 1 5); unfold INT_MAX; lia.
Defined.

(** X21: the edges of [encode_positions]: a negative [num_candidates] makes
    [reserve] throw [std::length_error]; with [num_candidates = 0] the result
    is empty whatever [n_qubits] is; with at least one candidate, a negative
    [n_qubits] throws [std::length_error] and more than 32 qubits shift an
    [int] by 32 or more, which is undefined. *)
Theorem encode_positions_edges (num_candidates n_qubits : Z) :
  (INT_MIN <= num_candidates < 0 ->
   encode_positions num_candidates n_qubits = Throws LengthError) /\
  encode_positions 0 n_qubits = Ret [] /\
  (0 < num_candidates <= INT_MAX -> INT_MIN <= n_qubits < 0 ->
   encode_positions num_candidates n_qubits = Throws LengthError) /\
  (0 < num_candidates <= INT_MAX -> 32 < n_qubits <= INT_MAX ->
   encode_positions num_candidates n_qubits = Undefined ShiftCountOutOfRange).
Proof.
  unfold encode_positions. split; [|split; [|split]].
  - intros Hneg. now rewrite check_size_negative.
  - reflexivity.
  - intros Hc Hq. rewrite check_size_ok by lia. cbn [bind].
    destruct (Z.to_nat num_candidates) as [|fuel] eqn:Hfuel; [lia|].
    cbn [encode_loop]. now rewrite check_size_negative.
  - intros Hc Hq. rewrite check_size_ok by lia. cbn [bind].
    destruct (Z.to_nat num_candidates) as [|fuel] eqn:Hfuel; [lia|].
    cbn [encode_loop]. rewrite check_size_ok by lia. cbn [bind].
    destruct (Z.to_nat n_qubits) as [|bits] eqn:Hbits; [lia|].
    cbn [encode_bits]. unfold shr_int.
    destruct (Z.leb_spec 0 (n_qubits - 1)); [|lia].
    destruct (Z.ltb_spec (n_qubits - 1) 32); [lia|].
    reflexivity.
Qed.

Lemma encode_positions_edges_witness :
  encode_positions 3 40 = Undefined ShiftCountOutOfRange /\
  encode_positions 3 (-1) = Throws LengthError /\
  encode_positions (-3) 2 = Throws LengthError.
Proof.
  split; [|split].
  - destruct (encode_positions_edges 3 40) as [_ [_ [_ H]]].
    apply H; unfold INT_MAX; lia.
  - destruct (encode_positions_edges 3 (-1)) as [_ [_ [H _]]].
    apply H; unfold INT_MIN, INT_MAX; lia.
  - destruct (encode_positions_edges (-3) 2) as [H _].
    apply H; unfold INT_MIN; lia.
Defined.

(** ** Iteration calculator, continued *)

(** X22: when every item is marked, [total_items = marked_items > 0], the
    ratio is exactly [1.0] and one iteration is returned. *)
Theorem calculate_optimal_iterations_all_marked (items : Z) :
  0 < items <= INT_MAX ->
  calculate_optimal_iterations items items = Ret 1.
Proof.
  intros Hn. unfold calculate_optimal_iterations.
  destruct (Z.leb_spec items 0); [lia|]. cbn [orb].
  rewrite div_self by assumption. reflexivity.
Qed.

Lemma calculate_optimal_iterations_all_marked_witness :
  calculate_optimal_iterations 1024 1024 = Ret 1.
Proof.
  apply (calculate_optimal_iterations_all_marked 1024). unfold INT_MAX. lia.
Defined.

Lemma floor_Z_below (E : Z) (x : Double.double) (z : Z) :
  0 <= E -> below E x -> Double.floor_Z x = Some z -> 0 <= z < 2 ^ E.
Proof.
  intros HE [->|[m [e [-> Hme]]]] Hz.
  - injection Hz as <-. split; [lia | apply pow2_pos; lia].
  - change (Double.floor_Z (S754_finite false m e))
      with (Some (if 0 <=? e then Z.pos m * 2 ^ e else Z.pos m / 2 ^ (- e))) in Hz.
    assert (Hzeq : z = if 0 <=? e then Z.pos m * 2 ^ e else Z.pos m / 2 ^ (- e))
      by congruence.
    clear Hz. subst z.
    pose proof (digits2_pos_upper m) as Hm.
    set (d := Z.pos (digits2_pos m)) in *.
    assert (Hd : 1 <= d) by (unfold d; lia). clearbody d.
    assert (HmE : Z.pos m < 2 ^ (E - e)).
    { eapply Z.lt_le_trans; [exact Hm|]. apply Z.pow_le_mono_r; lia. }
    destruct (Z.leb_spec 0 e).
    + assert (0 < 2 ^ e) by (apply pow2_pos; lia).
      replace (2 ^ E) with (2 ^ (E - e) * 2 ^ e)
        by (rewrite <- Z.pow_add_r by lia; f_equal; lia).
      split; nia.
    + assert (0 < 2 ^ (- e)) by (apply pow2_pos; lia).
      split; [apply Z.div_pos; lia|].
      apply Z.div_lt_upper_bound; [assumption|].
      rewrite <- Z.pow_add_r by lia.
      now replace (- e + E) with (E - e) by lia.
Qed.

(** X23: for all [int] arguments the call returns, and what it returns is at
    least 1 and below [2^18]. *)
Theorem calculate_optimal_iterations_range (total_items marked_items : Z) :
  is_int total_items -> is_int marked_items ->
  exists iterations,
    calculate_optimal_iterations total_items marked_items = Ret iterations /\
    1 <= iterations < 2 ^ 18.
Proof.
  intros [_ Ht] [_ Hm].
  destruct (Z.le_gt_cases marked_items 0) as [Hm0|Hm0].
  - exists 1. split; [apply calculate_optimal_iterations_fallback; lia | lia].
  - destruct (Z.le_gt_cases total_items 0) as [Ht0|Ht0].
    + exists 1. split; [apply calculate_optimal_iterations_fallback; lia | lia].
    + destruct (calculate_optimal_iterations_floor total_items marked_items)
        as [fl [Hfl [_ Hcalc]]]; try lia.
      exists (Z.max 1 fl). split; [assumption|].
      assert (Hbelow : below 18 (grover_angle_ratio total_items marked_items)).
      { unfold grover_angle_ratio. rewrite quarter_pi.
        apply (mul_below 17); [reflexivity | lia|].
        apply sqrt_below with (E := 32); [lia | split; [reflexivity | lia] |].
        apply div_int_below; lia. }
      pose proof (floor_Z_below 18 _ fl ltac:(lia) Hbelow Hfl). lia.
Qed.

Lemma calculate_optimal_iterations_range_witness :
  exists iterations,
    calculate_optimal_iterations 2147483647 1 = Ret iterations /\
    1 <= iterations < 2 ^ 18.
Proof.
  apply (calculate_optimal_iterations_range 2147483647 1);
    unfold is_int, INT_MIN, INT_MAX; lia.
Defined.
